(** * Workflow engine: scheduling, run loop, sandbox protocol

    A shallow embedding of the execution core of the workflow backend:

    - [app/models/*.py]        the data model (workflows, executions);
    - [app/core/engine.py]     [WorkflowEngine]: the topological walk, input
                               resolution, the run loop and [stop_execution];
    - [nodes/flow.py]          [FlowNode.group_by_dependencies];
    - [nodes/scheduler.py]     [SchedulerNode]: the task heap and
                               [optimize_schedule];
    - [utils/executor.py]      [PythonExecutor]: the isolated runner's
                               result protocol and its process handling.

    Python dictionaries are [gmap]s, Python sets are [gset]s, lists are
    lists.  Code that can raise returns an [outcome]; loops that the
    source writes as [while] or as a recursive closure take a fuel
    argument, and the entry points supply enough of it (proved below). *)

From stdpp Require Import gmap strings list fin_maps sorting relations pretty.

#[local] Set Warnings "-register-all,-clear-no-such-hyp".
#[local] Open Scope string_scope.
#[local] Open Scope list_scope.
#[local] Open Scope nat_scope.

(* ===================================================================== *)
(** * Python runtime: exceptions and loops *)
(* ===================================================================== *)

Module Py.

(** The exceptions the embedded code can raise.  [Exception msg] is an
    exception raised by a collaborator (a node executor); [msg] is its
    [str(e)]. *)
Inductive exn :=
| KeyError (k : string)
| StopIteration
| Exception (msg : string).

(** The result of running a piece of code: a value, a raised exception,
    or fuel exhaustion of the model (never produced by an entry point). *)
Inductive outcome (A : Type) :=
| Ok (a : A)
| Raise (e : exn)
| OutOfFuel.
Arguments Ok {A} a.
Arguments Raise {A} e.
Arguments OutOfFuel {A}.

#[global] Instance outcome_bind : MBind outcome := λ A B k m,
  match m with
  | Ok a => k a
  | Raise e => Raise e
  | OutOfFuel => OutOfFuel
  end.
#[global] Instance outcome_ret : MRet outcome := @Ok.

(** [for x in l: s = body(x, s)], stopping at the first exception. *)
Fixpoint for_in {A S} (l : list A) (body : A → S → outcome S) (s : S)
  : outcome S :=
  match l with
  | [] => Ok s
  | x :: l' => s' ← body x s; for_in l' body s'
  end.

(** [l.index(x)]: position of the first occurrence. *)
Fixpoint index (x : string) (l : list string) : option nat :=
  match l with
  | [] => None
  | y :: l' => if decide (x = y) then Some 0 else S <$> index x l'
  end.

(** JSON-like payloads ([Dict[str, Any]]). *)
Inductive value :=
| VNone
| VBool (b : bool)
| VInt (z : Z)
| VStr (s : string)
| VList (l : list value)
| VDict (d : gmap string value).

(** Truthiness, as used by [if x] and [x and y]. *)
Definition truthy (v : value) : bool :=
  match v with
  | VNone => false
  | VBool b => b
  | VInt z => negb (Z.eqb z 0)
  | VStr s => negb (String.eqb s EmptyString)
  | VList l => negb (Nat.eqb (length l) 0)
  | VDict d => negb (Nat.eqb (size d) 0)
  end.

(** Truthiness of an [Optional[str]]. *)
Definition truthy_opt_str (o : option string) : bool :=
  match o with
  | None => false
  | Some s => negb (String.eqb s EmptyString)
  end.

End Py.
Export Py.

(* ===================================================================== *)
(** * app/models *)
(* ===================================================================== *)

(** [models/execution.py] *)
Inductive ExecutionStatus :=
| PENDING | RUNNING | SUCCESS | FAILED | CANCELLED | TIMEOUT.

Inductive NodeExecutionStatus :=
| NWAITING | NRUNNING | NSUCCESS | NFAILED | NSKIPPED.

#[global] Instance ExecutionStatus_eq_dec : EqDecision ExecutionStatus.
Proof. solve_decision. Defined.
#[global] Instance NodeExecutionStatus_eq_dec : EqDecision NodeExecutionStatus.
Proof. solve_decision. Defined.

(** [models/workflow.py], [models/node.py].  Of a node the engine reads
    [id] and [data.label]; everything else is passed through to the
    executor. *)
Record Edge := {
  source : string;
  target : string;
  sourceHandle : option string;
  targetHandle : option string;
}.

Record Node := {
  n_id : string;
  n_type : string;
  n_label : string;
  n_config : gmap string value;
}.

Record Workflow := {
  wf_id : string;
  nodes : list Node;
  edges : list Edge;
  settings : gmap string value;
}.

(** A reading of [datetime.now()]. *)
Definition datetime := nat.

(** [models/execution.py].  Field [f] of [ExecutionLog], [NodeExecution]
    and [WorkflowExecution] is written [log_f], [ne_f] and [ex_f]. *)
Record ExecutionLog := {
  log_timestamp : datetime;
  log_level : string;
  log_node_id : option string;
  log_message : string;
  log_data : option (gmap string value);
}.

Record NodeExecution := {
  ne_node_id : string;
  ne_status : NodeExecutionStatus;
  ne_started_at : option datetime;
  ne_completed_at : option datetime;
  ne_input_data : gmap string value;
  ne_output_data : option (gmap string value);
  ne_error : option string;
  ne_logs : list ExecutionLog;
}.

Record WorkflowExecution := {
  ex_id : string;
  ex_workflow_id : string;
  ex_status : ExecutionStatus;
  ex_mode : string;
  ex_started_at : option datetime;
  ex_completed_at : option datetime;
  ex_triggered_by : option string;
  ex_node_executions : gmap string NodeExecution;
  ex_logs : list ExecutionLog;
  ex_context : gmap string value;
  ex_error : option string;
}.

(* ===================================================================== *)
(** * app/core/engine.py: the dependency walk *)
(* ===================================================================== *)

Module Engine.

Section Walk.

(** The order in which [for dep_id in dependencies[node_id]] enumerates
    the set of node [node_id]; Python leaves it unspecified.  Every set
    is enumerated at most once per walk. *)
Variable set_iter : string → gset string → list string.

(** [visited] and [order], the two variables the closure [visit]
    mutates. *)
Definition walk : Type := gset string * list string.

Fixpoint visit (fuel : nat) (dependencies : gmap string (gset string))
    (node_id : string) (st : walk) : outcome walk :=
  match fuel with
  | O => OutOfFuel
  | S fuel' =>
      let '(visited, order) := st in
      if decide (node_id ∈ visited) then Ok st
      else
        let visited := visited ∪ {[node_id]} in
        match dependencies !! node_id with
        | None => Raise (KeyError node_id)
        | Some deps =>
            '(visited, order) ←
              for_in (set_iter node_id deps) (visit fuel' dependencies)
                     (visited, order);
            Ok (visited, order ++ [node_id])
        end
  end.

(** [{node.id: set() for node in workflow.nodes}] *)
Definition empty_dependencies (ns : list Node) : gmap string (gset string) :=
  foldl (λ d n, <[n_id n := ∅]> d) ∅ ns.

(** [dependencies[edge.target].add(edge.source)] *)
Definition add_dependency (e : Edge) (d : gmap string (gset string))
  : outcome (gmap string (gset string)) :=
  match d !! target e with
  | Some s => Ok (<[target e := s ∪ {[source e]}]> d)
  | None => Raise (KeyError (target e))
  end.

Definition build_dependencies (wf : Workflow)
  : outcome (gmap string (gset string)) :=
  for_in (edges wf) add_dependency (empty_dependencies (nodes wf)).

Definition _get_execution_order (wf : Workflow) : outcome (list string) :=
  dependencies ← build_dependencies wf;
  '(_, order) ←
    for_in (nodes wf)
           (λ n, visit (S (size dependencies)) dependencies (n_id n))
           (∅, []);
  Ok order.

End Walk.

(** ** Input resolution *)

(** The body of [for edge in workflow.edges] in [_collect_input_data].
    [source_output[edge.sourceHandle]] is a dictionary subscript, which
    raises [KeyError] on a missing key. *)
Definition collect_edge (node : Node)
    (node_outputs : gmap string (gmap string value))
    (edge : Edge) (input_data : gmap string value)
  : outcome (gmap string value) :=
  if decide (target edge = n_id node) then
    let source_output := default ∅ (node_outputs !! source edge) in
    match sourceHandle edge, targetHandle edge with
    | Some sh, Some th =>
        if truthy_opt_str (Some sh) && truthy_opt_str (Some th) then
          if decide (sh ∈ dom source_output) then
            match source_output !! sh with
            | Some v => Ok (<[th := v]> input_data)
            | None => Raise (KeyError sh)
            end
          else Ok input_data
        else Ok (source_output ∪ input_data)
    | _, _ => Ok (source_output ∪ input_data)
    end
  else Ok input_data.

Definition _collect_input_data (node : Node) (workflow : Workflow)
    (node_outputs : gmap string (gmap string value))
    (context : gmap string value) : outcome (gmap string value) :=
  input_data ← for_in (edges workflow) (collect_edge node node_outputs) ∅;
  Ok (<["_context" := VDict context]> input_data).

(** ** Engine state *)

(** What the engine hands to the connection manager, in order. *)
Inductive message :=
| execution_update (execution : WorkflowExecution)
| node_update (executionId : string) (nodeExecution : NodeExecution)
| log_update (executionId : string) (log : ExecutionLog).

(** [self.executions], and the messages sent so far.  An execution
    object is reached through its id: the dictionary is only ever added
    to, so the entry stored under an id is the object a run holds. *)
Record engine := {
  executions : gmap string WorkflowExecution;
  outbox : list message;
}.

Definition set_ex_status (s : ExecutionStatus) (e : WorkflowExecution)
  : WorkflowExecution :=
  {| ex_id := ex_id e; ex_workflow_id := ex_workflow_id e; ex_status := s;
     ex_mode := ex_mode e; ex_started_at := ex_started_at e;
     ex_completed_at := ex_completed_at e;
     ex_triggered_by := ex_triggered_by e;
     ex_node_executions := ex_node_executions e; ex_logs := ex_logs e;
     ex_context := ex_context e; ex_error := ex_error e |}.

Definition set_ex_completed_at (t : datetime) (e : WorkflowExecution)
  : WorkflowExecution :=
  {| ex_id := ex_id e; ex_workflow_id := ex_workflow_id e;
     ex_status := ex_status e; ex_mode := ex_mode e;
     ex_started_at := ex_started_at e; ex_completed_at := Some t;
     ex_triggered_by := ex_triggered_by e;
     ex_node_executions := ex_node_executions e; ex_logs := ex_logs e;
     ex_context := ex_context e; ex_error := ex_error e |}.

Definition set_ex_error (msg : string) (e : WorkflowExecution)
  : WorkflowExecution :=
  {| ex_id := ex_id e; ex_workflow_id := ex_workflow_id e;
     ex_status := ex_status e; ex_mode := ex_mode e;
     ex_started_at := ex_started_at e; ex_completed_at := ex_completed_at e;
     ex_triggered_by := ex_triggered_by e;
     ex_node_executions := ex_node_executions e; ex_logs := ex_logs e;
     ex_context := ex_context e; ex_error := Some msg |}.

Definition append_ex_log (l : ExecutionLog) (e : WorkflowExecution)
  : WorkflowExecution :=
  {| ex_id := ex_id e; ex_workflow_id := ex_workflow_id e;
     ex_status := ex_status e; ex_mode := ex_mode e;
     ex_started_at := ex_started_at e; ex_completed_at := ex_completed_at e;
     ex_triggered_by := ex_triggered_by e;
     ex_node_executions := ex_node_executions e;
     ex_logs := ex_logs e ++ [l];
     ex_context := ex_context e; ex_error := ex_error e |}.

(** [execution.node_executions[node_id]] updated in place by [f]. *)
Definition alter_node_execution (node_id : string)
    (f : NodeExecution → NodeExecution) (e : WorkflowExecution)
  : WorkflowExecution :=
  {| ex_id := ex_id e; ex_workflow_id := ex_workflow_id e;
     ex_status := ex_status e; ex_mode := ex_mode e;
     ex_started_at := ex_started_at e; ex_completed_at := ex_completed_at e;
     ex_triggered_by := ex_triggered_by e;
     ex_node_executions := alter f node_id (ex_node_executions e);
     ex_logs := ex_logs e;
     ex_context := ex_context e; ex_error := ex_error e |}.

(** The three groups of assignments [_run_workflow] makes to a node
    execution: before the executor call, after its return, and in the
    [except] branch. *)
Definition ne_start (input_data : gmap string value) (t : datetime)
    (ne : NodeExecution) : NodeExecution :=
  {| ne_node_id := ne_node_id ne; ne_status := NRUNNING;
     ne_started_at := Some t; ne_completed_at := ne_completed_at ne;
     ne_input_data := input_data; ne_output_data := ne_output_data ne;
     ne_error := ne_error ne; ne_logs := ne_logs ne |}.

Definition ne_succeed (output_data : gmap string value) (t : datetime)
    (ne : NodeExecution) : NodeExecution :=
  {| ne_node_id := ne_node_id ne; ne_status := NSUCCESS;
     ne_started_at := ne_started_at ne; ne_completed_at := Some t;
     ne_input_data := ne_input_data ne; ne_output_data := Some output_data;
     ne_error := ne_error ne; ne_logs := ne_logs ne |}.

Definition ne_fail (msg : string) (t : datetime)
    (ne : NodeExecution) : NodeExecution :=
  {| ne_node_id := ne_node_id ne; ne_status := NFAILED;
     ne_started_at := ne_started_at ne; ne_completed_at := Some t;
     ne_input_data := ne_input_data ne; ne_output_data := ne_output_data ne;
     ne_error := Some msg; ne_logs := ne_logs ne |}.

Definition update_execution (execution_id : string)
    (f : WorkflowExecution → WorkflowExecution) (st : engine) : engine :=
  {| executions := alter f execution_id (executions st);
     outbox := outbox st |}.

Definition send (m : message) (st : engine) : engine :=
  {| executions := executions st; outbox := outbox st ++ [m] |}.

(** [str(e)] *)
Definition str (e : exn) : string :=
  match e with
  | KeyError k => "'" +:+ k +:+ "'"
  | StopIteration => "coroutine raised StopIteration"
  | Exception msg => msg
  end.

(** ** [stop_execution] *)

Definition stop_execution (execution_id : string) (st : engine) : engine :=
  match executions st !! execution_id with
  | Some execution =>
      if decide (ex_status execution = RUNNING) then
        {| executions :=
             <[execution_id := set_ex_status CANCELLED execution]>
               (executions st);
           outbox := outbox st |}
      else st
  | None => st
  end.

(** ** The run loop *)

(** What a node executor does with a node and its input: it returns an
    output or raises an exception whose [str] is [msg]. *)
Inductive executor_result :=
| Returns (output_data : gmap string value)
| Raises (msg : string).

Section Run.

Variable set_iter : string → gset string → list string.

(** [self.executor.execute_node]; its log callback, which only appends
    to the node's own log list, is left out. *)
Variable execute_node : Node → gmap string value → executor_result.

(** The clock. *)
Variable now : datetime.

(** [arrivals node_id]: the execution ids for which other coroutines
    call [stop_execution] while the run is suspended in the executor
    call of [node_id]. *)
Variable arrivals : string → list string.

Definition _notify_execution_update (execution_id : string) (st : engine)
  : engine :=
  match executions st !! execution_id with
  | Some e => send (execution_update e) st
  | None => st
  end.

Definition _notify_node_update (execution_id node_id : string) (st : engine)
  : engine :=
  match executions st !! execution_id with
  | Some e =>
      match ex_node_executions e !! node_id with
      | Some ne => send (node_update execution_id ne) st
      | None => st
      end
  | None => st
  end.

Definition _add_log (execution_id : string) (level message : string)
    (data : option (gmap string value)) (st : engine) : engine :=
  let log := {| log_timestamp := now; log_level := level;
                log_node_id := None; log_message := message;
                log_data := data |} in
  send (log_update execution_id log)
    (update_execution execution_id (append_ex_log log) st).

(** [workflow.settings.get("continueOnError", False)] *)
Definition continueOnError (workflow : Workflow) : bool :=
  truthy (default (VBool false) (settings workflow !! "continueOnError")).

(** The [except Exception as e] branch of one plan entry followed by its
    [finally]; the result says whether the exception is raised again. *)
Definition node_failed (execution_id : string) (workflow : Workflow)
    (node : Node) (node_id : string) (e : exn) (st : engine)
  : engine * option exn :=
  let st := update_execution execution_id
              (alter_node_execution node_id (ne_fail (str e) now)) st in
  let st := _add_log execution_id "error"
              ("Node " +:+ n_label node +:+ " failed: " +:+ str e)
              (Some {["node_id" := VStr node_id]}) st in
  let st := _notify_node_update execution_id node_id st in
  if continueOnError workflow then (st, None) else (st, Some e).

(** One iteration of [for node_id in execution_order]. *)
Definition run_node (execution_id : string) (workflow : Workflow)
    (node_id : string)
    (node_outputs : gmap string (gmap string value)) (st : engine)
  : engine * (exn + gmap string (gmap string value)) :=
  match list_find (λ n, n_id n = node_id) (nodes workflow) with
  | None => (st, inl StopIteration)
  | Some (_, node) =>
      match executions st !! execution_id with
      | None => (st, inl (KeyError execution_id))
      | Some execution =>
          match ex_node_executions execution !! node_id with
          | None => (st, inl (KeyError node_id))
          | Some _ =>
              match _collect_input_data node workflow node_outputs
                      (ex_context execution) with
              | Ok input_data =>
                  let st := update_execution execution_id
                              (alter_node_execution node_id
                                 (ne_start input_data now)) st in
                  let st := _notify_node_update execution_id node_id st in
                  let st := foldl (λ st id, stop_execution id st) st
                              (arrivals node_id) in
                  match execute_node node input_data with
                  | Returns output_data =>
                      let st := update_execution execution_id
                                  (alter_node_execution node_id
                                     (ne_succeed output_data now)) st in
                      let st := _notify_node_update execution_id node_id st in
                      (st, inr (<[node_id := output_data]> node_outputs))
                  | Raises msg =>
                      match node_failed execution_id workflow node node_id
                              (Exception msg) st with
                      | (st, Some e) => (st, inl e)
                      | (st, None) => (st, inr node_outputs)
                      end
                  end
              | Raise e =>
                  match node_failed execution_id workflow node node_id e st
                  with
                  | (st, Some e) => (st, inl e)
                  | (st, None) => (st, inr node_outputs)
                  end
              | OutOfFuel => (st, inr node_outputs)
              end
          end
      end
  end.

(** The state in which the executor of [node_id] is called, and the
    state in which a failure of that call leaves the engine: the two
    halves of [run_node] around the executor call. *)
Definition at_call (execution_id node_id : string)
    (input_data : gmap string value) (st : engine) : engine :=
  foldl (λ st id, stop_execution id st)
    (_notify_node_update execution_id node_id
       (update_execution execution_id
          (alter_node_execution node_id (ne_start input_data now)) st))
    (arrivals node_id).

Definition after_failure (execution_id : string) (workflow : Workflow)
    (node : Node) (node_id : string) (input_data : gmap string value)
    (msg : string) (st : engine) : engine :=
  (node_failed execution_id workflow node node_id (Exception msg)
     (at_call execution_id node_id input_data st)).1.

(** The first assignments of [_run_workflow]: [RUNNING], notified. *)
Definition mark_running (execution_id : string) (st : engine) : engine :=
  _notify_execution_update execution_id
    (update_execution execution_id (set_ex_status RUNNING) st).

Fixpoint run_nodes (execution_id : string) (workflow : Workflow)
    (execution_order : list string)
    (node_outputs : gmap string (gmap string value)) (st : engine)
  : engine * option exn :=
  match execution_order with
  | [] => (st, None)
  | node_id :: rest =>
      match run_node execution_id workflow node_id node_outputs st with
      | (st, inr node_outputs) =>
          run_nodes execution_id workflow rest node_outputs st
      | (st, inl e) => (st, Some e)
      end
  end.

(** The outer [except Exception as e] and [finally]. *)
Definition run_failed (execution_id : string) (e : exn) (st : engine)
  : engine :=
  let st := update_execution execution_id
              (λ x, set_ex_completed_at now
                      (set_ex_error (str e) (set_ex_status FAILED x))) st in
  let st := _add_log execution_id "error"
              ("Execution failed: " +:+ str e) None st in
  _notify_execution_update execution_id st.

Definition _run_workflow (execution_id : string) (workflow : Workflow)
    (st : engine) : outcome engine :=
  let st := mark_running execution_id st in
  match _get_execution_order set_iter workflow with
  | OutOfFuel => OutOfFuel
  | Raise e => Ok (run_failed execution_id e st)
  | Ok execution_order =>
      match run_nodes execution_id workflow execution_order ∅ st with
      | (st, None) =>
          let st := update_execution execution_id
                      (λ x, set_ex_completed_at now (set_ex_status SUCCESS x))
                      st in
          Ok (_notify_execution_update execution_id st)
      | (st, Some e) => Ok (run_failed execution_id e st)
      end
  end.

(** The execution [execute_workflow] creates and stores before it starts
    the run: every node [WAITING]. *)
Definition new_execution (execution_id : string) (workflow : Workflow)
    (client_id : option string) (mode : string)
    (context : gmap string value) : WorkflowExecution :=
  {| ex_id := execution_id; ex_workflow_id := wf_id workflow;
     ex_status := PENDING; ex_mode := mode; ex_started_at := Some now;
     ex_completed_at := None; ex_triggered_by := client_id;
     ex_node_executions :=
       foldl (λ m n, <[n_id n :=
                {| ne_node_id := n_id n; ne_status := NWAITING;
                   ne_started_at := None; ne_completed_at := None;
                   ne_input_data := ∅; ne_output_data := None;
                   ne_error := None; ne_logs := [] |}]> m)
             ∅ (nodes workflow);
     ex_logs := []; ex_context := context; ex_error := None |}.

End Run.

End Engine.

(* ===================================================================== *)
(** * nodes/flow.py: dependency groups *)
(* ===================================================================== *)

Module Flow.

(** One entry of an execution plan, as [create_execution_plan] builds
    it. *)
Record PlanItem := {
  order : nat;
  nodeId : string;
  nodeType : string;
  isManager : bool;
  dependencies : list string;
  estimatedTime : Z;
}.

#[global] Instance PlanItem_eq_dec : EqDecision PlanItem.
Proof. solve_decision. Defined.

(** The guard of the inner loop of [group_by_dependencies]: the item is
    not completed and [all(dep in completed for dep in dependencies)]. *)
Definition ready (completed : gset string) (item : PlanItem) : Prop :=
  (nodeId item ∉ completed)
  ∧ Forall (λ dep, dep ∈ completed) (dependencies item).

#[global] Instance ready_dec completed item : Decision (ready completed item).
Proof. unfold ready. apply _. Defined.

(** One pass of [for item in execution_plan]. *)
Definition frontier (execution_plan : list PlanItem) (completed : gset string)
  : list PlanItem :=
  filter (ready completed) execution_plan.

(** The [while] loop; [groups] and [completed] are its variables. *)
Fixpoint group_loop (fuel : nat) (execution_plan : list PlanItem)
    (groups : list (list PlanItem)) (completed : gset string)
  : outcome (list (list PlanItem)) :=
  match fuel with
  | O => OutOfFuel
  | S fuel' =>
      if decide (size completed < length execution_plan) then
        let group := frontier execution_plan completed in
        match group with
        | [] => Ok groups
        | _ :: _ =>
            group_loop fuel' execution_plan (groups ++ [group])
              (completed ∪ list_to_set (nodeId <$> group))
        end
      else Ok groups
  end.

Definition group_by_dependencies (execution_plan : list PlanItem)
  : outcome (list (list PlanItem)) :=
  group_loop (S (length execution_plan)) execution_plan [] ∅.

End Flow.

(* ===================================================================== *)
(** * nodes/scheduler.py: the task queue and the schedule *)
(* ===================================================================== *)

Module Scheduler.

Record ScheduledTask := {
  id : string;
  node_id : string;
  task_name : string;
  estimated_time : Z;
  actual_time : option Z;
  start_time : option datetime;
  end_time : option datetime;
  dependencies : list string;
  priority : Z;
  status : string;
}.

(** [ScheduledTask.__lt__]: a higher priority compares smaller. *)
Definition lt (self other : ScheduledTask) : bool :=
  (priority other <? priority self)%Z.

(** *** [heapq]

    [heappush] and [_siftdown] as the standard library defines them,
    with [<] read as [__lt__]. *)

Fixpoint _siftdown_loop (fuel : nat) (heap : list ScheduledTask)
    (newitem : ScheduledTask) (startpos pos : nat) : list ScheduledTask :=
  match fuel with
  | O => <[pos := newitem]> heap
  | S fuel' =>
      if decide (startpos < pos) then
        let parentpos := Nat.shiftr (pos - 1) 1 in
        match heap !! parentpos with
        | Some parent =>
            if lt newitem parent then
              _siftdown_loop fuel' (<[pos := parent]> heap) newitem
                startpos parentpos
            else <[pos := newitem]> heap
        | None => <[pos := newitem]> heap
        end
      else <[pos := newitem]> heap
  end.

(** [pos] falls in every iteration, so [pos] units of fuel are enough. *)
Definition _siftdown (heap : list ScheduledTask) (startpos pos : nat)
  : list ScheduledTask :=
  match heap !! pos with
  | Some newitem => _siftdown_loop pos heap newitem startpos pos
  | None => heap
  end.

Definition heappush (heap : list ScheduledTask) (item : ScheduledTask)
  : list ScheduledTask :=
  let heap := heap ++ [item] in
  _siftdown heap 0 (length heap - 1).

(** *** Insertion-ordered dictionaries

    [build_dependency_graph] and [topological_sort] iterate over
    dictionaries, so their key order matters: association lists with
    distinct keys, a new key going to the end. *)

Fixpoint odict_set {V} (k : string) (v : V) (d : list (string * V))
  : list (string * V) :=
  match d with
  | [] => [(k, v)]
  | (k', v') :: d' =>
      if decide (k' = k) then (k, v) :: d' else (k', v') :: odict_set k v d'
  end.

Fixpoint odict_get {V} (k : string) (d : list (string * V)) : option V :=
  match d with
  | [] => None
  | (k', v') :: d' => if decide (k' = k) then Some v' else odict_get k d'
  end.

(** [d[k] = f(d[k])] for a key that is present. *)
Definition odict_alter {V} (f : V → V) (k : string) (d : list (string * V))
  : list (string * V) :=
  (λ kv, if decide (kv.1 = k) then (kv.1, f kv.2) else kv) <$> d.

(** *** [SchedulerNode] *)

Record SchedulerNode := {
  task_queue : list ScheduledTask;
  running_tasks : list (string * ScheduledTask);
  completed_tasks : list ScheduledTask;
}.

(** An element of [data['newTasks']]: the keys [create_scheduled_task]
    reads, each possibly absent. *)
Record task_data := {
  td_id : option string;
  td_nodeId : option string;
  td_taskName : option string;
  td_estimatedTime : option Z;
  td_dependencies : option (list string);
  td_priority : option Z;
}.

(** [fresh] stands for [f"task_{datetime.now().timestamp()}"]. *)
Definition create_scheduled_task (fresh : string) (td : task_data)
  : outcome ScheduledTask :=
  match td_nodeId td with
  | None => Raise (KeyError "nodeId")
  | Some nid =>
      Ok {| id := default fresh (td_id td);
            node_id := nid;
            task_name := default "Unnamed Task" (td_taskName td);
            estimated_time := default 30%Z (td_estimatedTime td);
            actual_time := None; start_time := None; end_time := None;
            dependencies := default [] (td_dependencies td);
            priority := default 50%Z (td_priority td);
            status := "scheduled" |}
  end.

Definition build_dependency_graph (self : SchedulerNode)
  : list (string * list string) :=
  let all_tasks := task_queue self ++ (snd <$> running_tasks self) in
  foldl (λ graph task, odict_set (id task) (dependencies task) graph)
        [] all_tasks.

(** The body of [for next_node, deps in graph.items()] for the node just
    taken from the queue. *)
Definition relax (node : string)
    (st : list (string * Z) * list string) (entry : string * list string)
  : list (string * Z) * list string :=
  let '(in_degree, queue) := st in
  let '(next_node, deps) := entry in
  if decide (node ∈ deps) then
    let in_degree := odict_alter (λ n, (n - 1)%Z) next_node in_degree in
    if decide (odict_get next_node in_degree = Some 0%Z)
    then (in_degree, queue ++ [next_node])
    else (in_degree, queue)
  else (in_degree, queue).

(** The entries of [in_degree] that are still above zero: together with
    the length of the queue they bound the iterations left. *)
Definition positive_entries (in_degree : list (string * Z)) : nat :=
  length (filter (λ kv, (0 < kv.2)%Z) in_degree).

(** [while queue:] *)
Fixpoint topological_loop (fuel : nat) (graph : list (string * list string))
    (in_degree : list (string * Z)) (queue result : list string)
  : outcome (list string) :=
  match fuel with
  | O => OutOfFuel
  | S fuel' =>
      match queue with
      | [] => Ok result
      | node :: queue =>
          let result := result ++ [node] in
          let '(in_degree, queue) :=
            foldl (relax node) (in_degree, queue) graph in
          topological_loop fuel' graph in_degree queue result
      end
  end.

Definition topological_sort (graph : list (string * list string))
  : outcome (list string) :=
  let in_degree := (λ kv : string * list string, (kv.1, 0%Z)) <$> graph in
  let in_degree :=
    foldl (λ in_degree kv,
             foldl (λ in_degree dep,
                      if decide (is_Some (odict_get dep in_degree))
                      then odict_alter (λ n, (n + 1)%Z) dep in_degree
                      else in_degree)
                   in_degree kv.2)
          in_degree graph in
  let queue := (filter (λ kv, kv.2 = 0%Z) in_degree).*1 in
  topological_loop (S (length graph)) graph in_degree queue [].

Definition find_task_by_id (self : SchedulerNode) (task_id : string)
  : option ScheduledTask :=
  match list_find (λ t, id t = task_id) (task_queue self) with
  | Some (_, task) => Some task
  | None => odict_get task_id (running_tasks self)
  end.

(** [list.sort(key=lambda t: t.priority, reverse=True)]: the stable sort
    into descending key order.  [insert_task] puts [t] in front of the
    first element whose key is not larger. *)
Fixpoint insert_task (t : ScheduledTask) (l : list ScheduledTask)
  : list ScheduledTask :=
  match l with
  | [] => [t]
  | x :: l' =>
      if (priority t <? priority x)%Z then x :: insert_task t l'
      else t :: x :: l'
  end.

Definition sort_by_priority (l : list ScheduledTask) : list ScheduledTask :=
  foldr insert_task [] l.

Definition optimize_schedule (self : SchedulerNode)
  : outcome (list ScheduledTask) :=
  let dependency_graph := build_dependency_graph self in
  execution_order ← topological_sort dependency_graph;
  let optimized :=
    omap (λ task_id,
            match find_task_by_id self task_id with
            | Some task =>
                if decide (status task = "scheduled") then Some task else None
            | None => None
            end) execution_order in
  Ok (sort_by_priority optimized).

(** The part of [execute] that builds the schedule: push the new tasks,
    then optimise.  The state loaded from disk is [self]; [fresh] is the
    default id. *)
Definition execute (fresh : string) (self : SchedulerNode)
    (newTasks : list task_data)
  : outcome (SchedulerNode * list ScheduledTask) :=
  self ← for_in newTasks
           (λ td self,
              task ← create_scheduled_task fresh td;
              Ok {| task_queue := heappush (task_queue self) task;
                    running_tasks := running_tasks self;
                    completed_tasks := completed_tasks self |})
           self;
  optimized_schedule ← optimize_schedule self;
  Ok (self, optimized_schedule).

End Scheduler.

(* ===================================================================== *)
(** * utils/executor.py: the isolated runner *)
(* ===================================================================== *)

Module Executor.

(** ** Text

    [bytes] and [str] are both byte strings here; a [str] is held in its
    UTF-8 encoding.  Searching for and splitting at an ASCII separator
    is the same on the encoding as on the text. *)

Fixpoint starts_with (p s : string) : bool :=
  match p with
  | EmptyString => true
  | String c p' =>
      match s with
      | String d s' => Ascii.eqb c d && starts_with p' s'
      | EmptyString => false
      end
  end.

Fixpoint drop_chars (n : nat) (s : string) : string :=
  match n, s with
  | S n', String _ s' => drop_chars n' s'
  | _, _ => s
  end.

(** [s.partition(sep)] when [sep] occurs: the text before the first
    occurrence and the text after it. *)
Fixpoint cut (sep s : string) : option (string * string) :=
  if starts_with sep s then Some (EmptyString, drop_chars (String.length sep) s)
  else
    match s with
    | EmptyString => None
    | String c s' =>
        match cut sep s' with
        | Some (before, after) => Some (String c before, after)
        | None => None
        end
    end.

(** [sep in s] *)
Definition contains (sep s : string) : bool :=
  match cut sep s with Some _ => true | None => false end.

Fixpoint split_loop (fuel : nat) (sep s : string) : list string :=
  match fuel with
  | O => [s]
  | S fuel' =>
      match cut sep s with
      | Some (before, after) => before :: split_loop fuel' sep after
      | None => [s]
      end
  end.

(** [s.split(sep)] for a non-empty [sep]: every cut removes at least one
    character, so [length s] units of fuel are enough. *)
Definition split (sep s : string) : list string :=
  split_loop (String.length s) sep s.

(** ASCII white space, as [str.strip()] removes it. *)
Definition is_space (c : Ascii.ascii) : bool :=
  let n := Ascii.nat_of_ascii c in
  (Nat.leb 9 n && Nat.leb n 13) || (Nat.leb 28 n && Nat.leb n 32).

Fixpoint lstrip (s : string) : string :=
  match s with
  | String c s' => if is_space c then lstrip s' else s
  | EmptyString => EmptyString
  end.

Fixpoint rstrip (s : string) : string :=
  match s with
  | String c s' =>
      match rstrip s' with
      | EmptyString => if is_space c then EmptyString else String c EmptyString
      | r => String c r
      end
  | EmptyString => EmptyString
  end.

Definition strip (s : string) : string := rstrip (lstrip s).

(** ** The result protocol *)

Definition marker : string := "===EXECUTION_RESULT===".

(** What can go wrong inside the [try] of [parse_isolated_result]. *)
Inductive parse_exn :=
| UnicodeDecodeError
| JSONDecodeError
| TypeError
| IndexError.

Section Parse.

(** [b.decode('utf-8')], [None] when it raises;
    [b.decode('utf-8', errors='replace')]; [json.loads], [None] when it
    raises; and [str(e)] of what was raised. *)
Variable decode : string → option string.
Variable decode_replace : string → string.
Variable json_loads : string → option value.
Variable str_exn : parse_exn → string.

(** The body of the [try]. *)
Definition parse_body (stdout stderr : string)
  : parse_exn + gmap string value :=
  match decode stdout with
  | None => inl UnicodeDecodeError
  | Some output =>
      if contains marker output then
        let parts := split marker output in
        match parts !! 1 with
        | None => inl IndexError
        | Some part1 =>
            let result_json := strip part1 in
            match json_loads result_json with
            | None => inl JSONDecodeError
            | Some (VDict result) =>
                let result :=
                  <["stdout" := VStr (default EmptyString (parts !! 0))]>
                    result in
                match decode stderr with
                | None => inl UnicodeDecodeError
                | Some err => inr (<["stderr" := VStr err]> result)
                end
            | Some _ => inl TypeError
            end
        end
      else
        match decode stderr with
        | None => inl UnicodeDecodeError
        | Some err =>
            inr (<["stderr" := VStr err]>
                 (<["stdout" := VStr output]>
                  (<["error" := VStr "No execution result found"]>
                   {["status" := VStr "error"]})))
        end
  end.

Definition parse_isolated_result (stdout stderr : string)
  : gmap string value :=
  match parse_body stdout stderr with
  | inr result => result
  | inl e =>
      <["stderr" := VStr (decode_replace stderr)]>
      (<["stdout" := VStr (decode_replace stdout)]>
       (<["error" := VStr ("Failed to parse result: " +:+ str_exn e)]>
        {["status" := VStr "error"]}))
  end.

End Parse.

(** ** Processes

    The operating system's side of a child process: the signals it has
    been sent so far and whether it has exited. *)
Inductive signal := SIGTERM | SIGKILL.

Record process := {
  signals : list signal;
  exited : bool;
}.

(** [self.running_processes] maps execution ids to process objects; the
    objects live in [processes], under their pid. *)
Record PythonExecutor := {
  processes : gmap nat process;
  running_processes : gmap string nat;
}.

Definition default_timeout : Z := 300.

Section Sandbox.

(** How a child behaves.  [communicate pid timeout] is the output of
    [process.communicate()] when the child ends within [timeout]
    seconds, and [None] when [asyncio.wait_for] raises [TimeoutError].
    [exits_on_sigterm pid] says whether the child, once sent [SIGTERM],
    exits within the 5 seconds [stop_execution] waits.  A child sent
    [SIGKILL] exits. *)
Variable communicate : nat → Z → option (string * string).
Variable exits_on_sigterm : nat → bool.

Variable decode : string → option string.
Variable decode_replace : string → string.
Variable json_loads : string → option value.
Variable str_exn : parse_exn → string.

Definition alter_process (pid : nat) (f : process → process)
    (self : PythonExecutor) : PythonExecutor :=
  {| processes := alter f pid (processes self);
     running_processes := running_processes self |}.

(** [process.terminate()] and [process.kill()]: the signal is delivered
    to a child that is still there; on one that has already exited they
    raise [ProcessLookupError] ([None]). *)
Definition send_signal (sig : signal) (pid : nat) (self : PythonExecutor)
  : option PythonExecutor :=
  match processes self !! pid with
  | Some p =>
      if exited p then None
      else Some (alter_process pid
                   (λ p, {| signals := signals p ++ [sig];
                            exited := exited p |}) self)
  | None => None
  end.

(** The child has ended and [await process.wait()] has returned. *)
Definition reap (pid : nat) (self : PythonExecutor) : PythonExecutor :=
  alter_process pid (λ p, {| signals := signals p; exited := true |}) self.

Definition unregister (execution_id : string) (self : PythonExecutor)
  : PythonExecutor :=
  {| processes := processes self;
     running_processes := delete execution_id (running_processes self) |}.

(** [{**self.default_limits, **(limits or {})}["timeout"]] *)
Definition timeout_of (limits : gmap string Z) : Z :=
  default default_timeout
    ((limits ∪ {["timeout" := default_timeout]}) !! "timeout").

(** [execute_isolated] from the point where the child [pid] has been
    started: register it, wait for it under the time limit, parse or
    kill, unregister. *)
Definition execute_isolated (execution_id : string) (pid : nat)
    (limits : gmap string Z) (self : PythonExecutor)
  : PythonExecutor * outcome (gmap string value) :=
  let timeout := timeout_of limits in
  let self :=
    {| processes := processes self;
       running_processes := <[execution_id := pid]> (running_processes self) |}
  in
  match communicate pid timeout with
  | Some (stdout, stderr) =>
      let self := reap pid self in
      let result :=
        parse_isolated_result decode decode_replace json_loads str_exn
          stdout stderr in
      (unregister execution_id self, Ok result)
  | None =>
      match send_signal SIGKILL pid self with
      | Some self =>
          let self := reap pid self in
          let result : gmap string value :=
            <["output" := VDict ∅]>
            (<["error" := VStr ("Execution timeout after " +:+ pretty timeout
                                +:+ " seconds")]>
             {["status" := VStr "timeout"]}) in
          (unregister execution_id self, Ok result)
      | None =>
          (unregister execution_id self,
           Raise (Exception "ProcessLookupError"))
      end
  end.

(** [stop_execution]; the second component is the returned boolean. *)
Definition stop_execution (execution_id : string) (self : PythonExecutor)
  : PythonExecutor * bool :=
  match running_processes self !! execution_id with
  | Some pid =>
      match send_signal SIGTERM pid self with
      | Some self =>
          if exits_on_sigterm pid then
            (unregister execution_id (reap pid self), true)
          else
            match send_signal SIGKILL pid self with
            | Some self => (unregister execution_id (reap pid self), true)
            | None => (self, false)
            end
      | None => (self, false)
      end
  | None => (self, false)
  end.

End Sandbox.

End Executor.

(* ===================================================================== *)
(** * app/core/engine.py: starting, subscribing, shutting down *)
(* ===================================================================== *)

Module Lifecycle.
Import Engine.

(** ** Subscriptions: [self.subscriptions], workflow id to client ids *)

Definition subscribe_client (client_id workflow_id : string)
    (subscriptions : gmap string (gset string)) : gmap string (gset string) :=
  let subscriptions :=
    if decide (workflow_id ∈ dom subscriptions) then subscriptions
    else <[workflow_id := ∅]> subscriptions in
  alter (λ clients, clients ∪ {[client_id]}) workflow_id subscriptions.

Definition unsubscribe_client (client_id workflow_id : string)
    (subscriptions : gmap string (gset string)) : gmap string (gset string) :=
  if decide (workflow_id ∈ dom subscriptions) then
    alter (λ clients, clients ∖ {[client_id]}) workflow_id subscriptions
  else subscriptions.

Definition unsubscribe_all (client_id : string)
    (subscriptions : gmap string (gset string)) : gmap string (gset string) :=
  (λ clients, clients ∖ {[client_id]}) <$> subscriptions.

(** The clients a notification about [execution] goes to: the loop
    [for client_id in self.subscriptions[execution.workflow_id]], taken
    only when the workflow id is a key. *)
Definition recipients (subscriptions : gmap string (gset string))
    (execution : WorkflowExecution) : gset string :=
  default ∅ (subscriptions !! ex_workflow_id execution).

(** ** [execute_workflow] *)

(** [WorkflowExecution(workflow_id=..., mode=..., triggered_by=...,
    context=..., started_at=now)] followed by the loop that gives every
    node a [WAITING] record.  [execution_id] is the fresh uuid. *)
Definition create_execution (now : datetime) (execution_id : string)
    (workflow_id : string) (workflow : Workflow)
    (client_id : option string) (mode : string)
    (context : gmap string value) : WorkflowExecution :=
  {| ex_id := execution_id; ex_workflow_id := workflow_id;
     ex_status := PENDING; ex_mode := mode; ex_started_at := Some now;
     ex_completed_at := None; ex_triggered_by := client_id;
     ex_node_executions :=
       foldl (λ m n, <[n_id n :=
                {| ne_node_id := n_id n; ne_status := NWAITING;
                   ne_started_at := None; ne_completed_at := None;
                   ne_input_data := ∅; ne_output_data := None;
                   ne_error := None; ne_logs := [] |}]> m)
             ∅ (nodes workflow);
     ex_logs := []; ex_context := context; ex_error := None |}.

(** [execute_workflow] up to the point where it spawns the run task.
    An unknown workflow raises [ValueError], an [Exception] whose [str]
    is the message. *)
Definition execute_workflow (workflows : gmap string Workflow)
    (now : datetime) (execution_id : string) (workflow_id : string)
    (client_id : option string) (mode : string)
    (context : option (gmap string value)) (st : engine) : outcome engine :=
  match workflows !! workflow_id with
  | None => Raise (Exception ("Workflow " +:+ workflow_id +:+ " not found"))
  | Some workflow =>
      let execution :=
        create_execution now execution_id workflow_id workflow client_id
          mode (default ∅ context) in
      let st := {| executions := <[execution_id := execution]> (executions st);
                   outbox := outbox st |} in
      Ok (_notify_execution_update execution_id st)
  end.

(** ** [get_execution_logs], [get_status] *)

Definition get_execution_logs (execution_id : string) (st : engine)
  : list ExecutionLog :=
  match executions st !! execution_id with
  | Some execution => ex_logs execution
  | None => []
  end.

(** The [active_executions] and [total_executions] entries of
    [get_status]. *)
Definition active_executions (st : engine) : nat :=
  size (filter (λ kv, ex_status kv.2 = RUNNING) (executions st)).

Definition total_executions (st : engine) : nat := size (executions st).

(** ** [shutdown] *)

(** One iteration of [for execution in self.executions.values()], for
    the object stored under [key]. *)
Definition shutdown_step (key : string) (st : engine) : engine :=
  match executions st !! key with
  | Some execution =>
      if decide (ex_status execution = RUNNING)
      then stop_execution (ex_id execution) st
      else st
  | None => st
  end.

(** [keys] is the order in which the dictionary is gone through. *)
Definition shutdown (keys : list string) (st : engine) : engine :=
  foldl (λ st key, shutdown_step key st) st keys.

End Lifecycle.

(* ===================================================================== *)
(** * nodes/flow.py: building and running a plan *)
(* ===================================================================== *)

Module FlowRun.
Import Flow.

(** ** [get_manager_type] *)

(** [str.lower()] on the ASCII letters.  The key words below are ASCII
    and no other character lowers to one of their letters, so the test
    [word in node_id.lower()] comes out the same. *)
Definition lower_ascii (c : Ascii.ascii) : Ascii.ascii :=
  let n := Ascii.nat_of_ascii c in
  if Nat.leb 65 n && Nat.leb n 90 then Ascii.ascii_of_nat (n + 32) else c.

Fixpoint lower (s : string) : string :=
  match s with
  | EmptyString => EmptyString
  | String c s' => String (lower_ascii c) (lower s')
  end.

Definition get_manager_type (node_id : string) : string :=
  if Executor.contains "supervisor" (lower node_id) then "supervisor"
  else if Executor.contains "planner" (lower node_id) then "planner"
  else if Executor.contains "watcher" (lower node_id) then "watcher"
  else if Executor.contains "scheduler" (lower node_id) then "scheduler"
  else "manager".

(** ** [validate_dependencies] *)

(** [{item['nodeId']: idx for idx, item in enumerate(plan)}]: of two
    items with the same id the later one keeps the key. *)
Definition node_index (plan : list PlanItem) : gmap string nat :=
  foldl (λ m p, <[nodeId p.2 := p.1]> m) ∅ (imap pair plan).

(** The closure [visit]; [validated] and [visited] are the variables it
    shares with its caller.  [plan[node_index[dep]]] is in range by the
    construction of [node_index]. *)
Fixpoint visit (fuel : nat) (plan : list PlanItem)
    (node_index : gmap string nat) (item : PlanItem)
    (st : list PlanItem * gset string)
  : outcome (list PlanItem * gset string) :=
  match fuel with
  | O => OutOfFuel
  | S fuel' =>
      let '(validated, visited) := st in
      if decide (nodeId item ∈ visited) then Ok st
      else
        let visited := visited ∪ {[nodeId item]} in
        '(validated, visited) ←
          for_in (dependencies item)
            (λ dep st,
               match node_index !! dep with
               | Some i =>
                   if decide (dep ∈ st.2) then Ok st
                   else
                     match plan !! i with
                     | Some item' => visit fuel' plan node_index item' st
                     | None => Raise (Exception "list index out of range")
                     end
               | None => Ok st
               end)
            (validated, visited);
        Ok (validated ++ [item], visited)
  end.

(** [item['order'] = idx] *)
Definition set_order (idx : nat) (item : PlanItem) : PlanItem :=
  {| order := idx; nodeId := nodeId item; nodeType := nodeType item;
     isManager := isManager item; dependencies := dependencies item;
     estimatedTime := estimatedTime item |}.

(** Every call of [visit] that goes past the first test adds an id of
    the plan to [visited], so the calls nest at most [length plan]
    deep. *)
Definition validate_dependencies (plan : list PlanItem)
  : outcome (list PlanItem) :=
  '(validated, _) ←
    for_in plan (visit (S (length plan)) plan (node_index plan)) ([], ∅);
  Ok (imap set_order validated).

(** ** [create_execution_plan] *)

(** An element of [execution_list] that carries a [nodeId]; the other
    keys are read with [get] and a default. *)
Record ExecutionItem := {
  ei_nodeId : string;
  ei_type : option string;
  ei_dependencies : option (list string);
  ei_estimatedTime : option Z;
}.

Definition ZeroDivisionError : exn :=
  Exception "integer division or modulo by zero".

Definition plan_entry (idx : nat) (item : ExecutionItem) : PlanItem :=
  {| order := idx; nodeId := ei_nodeId item;
     nodeType := default "worker" (ei_type item);
     isManager := false;
     dependencies := default [] (ei_dependencies item);
     estimatedTime := default 30%Z (ei_estimatedTime item) |}.

Definition manager_entry (plan : list PlanItem) (manager_id : string)
  : PlanItem :=
  {| order := length plan; nodeId := manager_id;
     nodeType := get_manager_type manager_id;
     isManager := true; dependencies := []; estimatedTime := 60%Z |}.

(** The body of [for idx, item in enumerate(execution_list)]. *)
Definition plan_step (manager_nodes : list string) (interval : Z)
    (p : nat * ExecutionItem) (plan : list PlanItem)
  : outcome (list PlanItem) :=
  let plan := plan ++ [plan_entry p.1 p.2] in
  if decide (interval = 0%Z) then Raise ZeroDivisionError
  else if decide (((Z.of_nat p.1 + 1) `mod` interval = 0)%Z
                  ∧ manager_nodes ≠ [])
  then Ok (foldl (λ plan manager_id, plan ++ [manager_entry plan manager_id])
             plan manager_nodes)
  else Ok plan.

(** [config.get('managerExecutionInterval', 10)] *)
Definition interval_of (config : gmap string Z) : Z :=
  default 10%Z (config !! "managerExecutionInterval").

Definition create_execution_plan (execution_list : list ExecutionItem)
    (manager_nodes : list string) (config : gmap string Z)
  : outcome (list PlanItem) :=
  plan ← for_in (imap pair execution_list)
            (plan_step manager_nodes (interval_of config)) [];
  validate_dependencies plan.

(** ** Running a plan *)

(** [self.is_running] and [self.execution_status]: per flow node the
    status entries of its plan nodes, in insertion order.  An entry is
    the status with its time stamp. *)
Record FlowNode := {
  is_running : bool;
  execution_status : gmap string (list (string * (string * datetime)));
}.

(** An element of [results]; [executionTime] and [timestamp], which are
    read off the clock, are left out. *)
Record NodeResult := {
  r_nodeId : string;
  r_nodeType : string;
  r_status : string;
  r_result : option (gmap string value);
  r_error : option string;
}.

Section Run.

(** [execute_single_node]: the imported node module returns a result or
    an [Exception] is raised with the given [str]. *)
Variable execute_single_node :
  string → string → gmap string value → Engine.executor_result.

Variable now : datetime.

(** [stops node_id]: another coroutine calls [stop_execution] for this
    flow node while [node_id] executes. *)
Variable stops : string → bool.

Definition update_execution_status (flow_node_id node_id status : string)
    (self : FlowNode) : FlowNode :=
  {| is_running := is_running self;
     execution_status :=
       <[flow_node_id :=
           Scheduler.odict_set node_id (status, now)
             (default [] (execution_status self !! flow_node_id))]>
         (execution_status self) |}.

(** [stop_execution].  The loop variable [node_id] takes the place of
    the parameter: the update goes to [execution_status[n][n]] for the
    running node [n]. *)
Definition stop_execution (node_id : string) (self : FlowNode) : FlowNode :=
  let self := {| is_running := false;
                 execution_status := execution_status self |} in
  match execution_status self !! node_id with
  | Some statuses =>
      foldl (λ self kv,
               if decide (kv.2.1 = "running")
               then update_execution_status kv.1 kv.1 "stopped" self
               else self)
            self statuses
  | None => self
  end.

(** [data.get('errorHandling', 'continue') == 'stop'] *)
Definition stop_on_error (data : gmap string value) : bool :=
  match default (VStr "continue") (data !! "errorHandling") with
  | VStr s => String.eqb s "stop"
  | _ => false
  end.

Definition success_result (item : PlanItem) (result : gmap string value)
  : NodeResult :=
  {| r_nodeId := nodeId item; r_nodeType := nodeType item;
     r_status := "success"; r_result := Some result; r_error := None |}.

Definition error_result (item : PlanItem) (msg : string) : NodeResult :=
  {| r_nodeId := nodeId item; r_nodeType := nodeType item;
     r_status := "error"; r_result := None; r_error := Some msg |}.

(** [for item in execution_plan] of [execute_sequential], with its
    variables [previous_output] and [results]. *)
Fixpoint sequential_loop (flow_node_id : string)
    (execution_plan : list PlanItem) (data : gmap string value)
    (previous_output : value) (results : list NodeResult) (self : FlowNode)
  : FlowNode * list NodeResult :=
  match execution_plan with
  | [] => (self, results)
  | item :: rest =>
      if negb (is_running self) then (self, results)
      else
        let self :=
          update_execution_status flow_node_id (nodeId item) "running" self in
        let self :=
          if stops (nodeId item) then stop_execution flow_node_id self
          else self in
        match execute_single_node (nodeId item) (nodeType item)
                (<["inputData" := previous_output]> data) with
        | Engine.Returns result =>
            let results := results ++ [success_result item result] in
            let previous_output :=
              match result !! "output" with
              | Some output => if truthy output then output
                               else previous_output
              | None => previous_output
              end in
            let self :=
              update_execution_status flow_node_id (nodeId item) "completed"
                self in
            sequential_loop flow_node_id rest data previous_output results
              self
        | Engine.Raises msg =>
            let results := results ++ [error_result item msg] in
            let self :=
              update_execution_status flow_node_id (nodeId item) "error"
                self in
            if stop_on_error data then (self, results)
            else sequential_loop flow_node_id rest data previous_output
                   results self
        end
  end.

Definition execute_sequential (flow_node_id : string)
    (execution_plan : list PlanItem) (data : gmap string value)
    (self : FlowNode) : FlowNode * list NodeResult :=
  sequential_loop flow_node_id execution_plan data (VDict ∅) [] self.

End Run.

(** ** [analyze_results] *)

Record TypeStat := {
  ts_success : nat;
  ts_error : nat;
  ts_total : nat;
}.

(** The counting entries of the summary; the averages are left out. *)
Record Summary := {
  total : nat;
  successful : nat;
  failed : nat;
  typeStatistics : list (string * TypeStat);
  errors : list (string * option string);
}.

(** The body of [for result in results]. *)
Definition count_type (type_stats : list (string * TypeStat))
    (result : NodeResult) : list (string * TypeStat) :=
  let type_stats :=
    if decide (is_Some (Scheduler.odict_get (r_nodeType result) type_stats))
    then type_stats
    else Scheduler.odict_set (r_nodeType result)
           {| ts_success := 0; ts_error := 0; ts_total := 0 |} type_stats in
  Scheduler.odict_alter
    (λ s, if decide (r_status result = "success")
          then {| ts_success := ts_success s + 1; ts_error := ts_error s;
                  ts_total := ts_total s + 1 |}
          else {| ts_success := ts_success s; ts_error := ts_error s + 1;
                  ts_total := ts_total s + 1 |})
    (r_nodeType result) type_stats.

Definition analyze_results (results : list NodeResult) : Summary :=
  {| total := length results;
     successful := length (filter (λ r, r_status r = "success") results);
     failed := length (filter (λ r, r_status r = "error") results);
     typeStatistics := foldl count_type [] results;
     errors := (λ r, (r_nodeId r, r_error r))
               <$> filter (λ r, r_status r = "error") results |}.

End FlowRun.

(* ===================================================================== *)
(** * nodes/scheduler.py: starting and completing a task *)
(* ===================================================================== *)

Module SchedulerTasks.
Import Scheduler.

(** [del d[k]] for a key that is present. *)
Definition odict_delete {V} (k : string) (d : list (string * V))
  : list (string * V) :=
  filter (λ kv, kv.1 ≠ k) d.

Definition set_running (t : datetime) (task : ScheduledTask)
  : ScheduledTask :=
  {| id := id task; node_id := node_id task; task_name := task_name task;
     estimated_time := estimated_time task; actual_time := actual_time task;
     start_time := Some t; end_time := end_time task;
     dependencies := dependencies task; priority := priority task;
     status := "running" |}.

Definition set_completed (t : datetime) (actual : Z) (task : ScheduledTask)
  : ScheduledTask :=
  {| id := id task; node_id := node_id task; task_name := task_name task;
     estimated_time := estimated_time task; actual_time := Some actual;
     start_time := start_time task; end_time := Some t;
     dependencies := dependencies task; priority := priority task;
     status := "completed" |}.

(** [start_task]: the task found is marked, stored under [task_id], and
    every task with that id leaves the queue. *)
Definition start_task (now : datetime) (task_id : string)
    (self : SchedulerNode) : SchedulerNode :=
  match find_task_by_id self task_id with
  | Some task =>
      {| task_queue := filter (λ t, id t ≠ task_id) (task_queue self);
         running_tasks :=
           odict_set task_id (set_running now task) (running_tasks self);
         completed_tasks := completed_tasks self |}
  | None => self
  end.

Definition complete_task (now : datetime) (task_id : string)
    (actual_time : Z) (self : SchedulerNode) : SchedulerNode :=
  match odict_get task_id (running_tasks self) with
  | Some task =>
      {| task_queue := task_queue self;
         running_tasks := odict_delete task_id (running_tasks self);
         completed_tasks :=
           completed_tasks self ++ [set_completed now actual_time task] |}
  | None => self
  end.

End SchedulerTasks.

(* ===================================================================== *)
(** * utils/executor.py: the execution history *)
(* ===================================================================== *)

Module History.

(** An entry of [self.execution_history]. *)
Record history_entry := {
  h_executionId : string;
  h_timestamp : datetime;
  h_status : option value;
  h_executionTime : option value;
}.

(** [save_execution_history], on the list it appends to. *)
Definition save_execution_history (now : datetime) (execution_id : string)
    (result : gmap string value) (execution_history : list history_entry)
  : list history_entry :=
  let execution_history :=
    execution_history
    ++ [{| h_executionId := execution_id; h_timestamp := now;
           h_status := result !! "status";
           h_executionTime := result !! "executionTime" |}] in
  if decide (100 < length execution_history)
  then drop (length execution_history - 100) execution_history
  else execution_history.

End History.

(* ===================================================================== *)
(** * Graph vocabulary used by the statements *)
(* ===================================================================== *)

Module Graph.

(** [depends_on wf s t]: some edge of [wf] goes from [s] to [t]. *)
Definition depends_on (wf : Workflow) (s t : string) : Prop :=
  ∃ e, e ∈ edges wf ∧ source e = s ∧ target e = t.

(** No node reaches itself along one or more edges. *)
Definition acyclic (wf : Workflow) : Prop :=
  ∀ x, ¬ tc (depends_on wf) x x.

Definition has_cycle (wf : Workflow) : Prop :=
  ∃ x, tc (depends_on wf) x x.

Definition node_ids (wf : Workflow) : list string := n_id <$> nodes wf.

(** The data-model invariant: edge endpoints are existing nodes. *)
Definition edges_closed (wf : Workflow) : Prop :=
  ∀ e, e ∈ edges wf → source e ∈ node_ids wf ∧ target e ∈ node_ids wf.

(** A legal enumeration order for Python sets. *)
Definition enumerates (set_iter : string → gset string → list string) : Prop :=
  ∀ k s, set_iter k s ≡ₚ elements s.

(** [before x y l]: [x] occurs in [l] at a smaller index than [y]. *)
Definition before (x y : string) (l : list string) : Prop :=
  ∃ i j, index x l = Some i ∧ index y l = Some j ∧ i < j.

(** Every element's dependencies stand to its left. *)
Definition topologically_ordered (dependencies : gmap string (gset string))
    (l : list string) : Prop :=
  ∀ l1 x l2 deps d,
    l = l1 ++ x :: l2 → dependencies !! x = Some deps → d ∈ deps → d ∈ l1.

End Graph.

(** Executions compared field by field. *)
Module Frame.

(** [e'] is [e] with, at most, another [status]. *)
Definition same_but_status (e e' : WorkflowExecution) : Prop :=
  ex_id e' = ex_id e
  ∧ ex_workflow_id e' = ex_workflow_id e
  ∧ ex_mode e' = ex_mode e
  ∧ ex_started_at e' = ex_started_at e
  ∧ ex_completed_at e' = ex_completed_at e
  ∧ ex_triggered_by e' = ex_triggered_by e
  ∧ ex_node_executions e' = ex_node_executions e
  ∧ ex_logs e' = ex_logs e
  ∧ ex_context e' = ex_context e
  ∧ ex_error e' = ex_error e.

(** Every execution is stored under its own id, as [execute_workflow]
    stores it. *)
Definition well_keyed (executions : gmap string WorkflowExecution) : Prop :=
  ∀ k e, executions !! k = Some e → ex_id e = k.

(** The execution a run works on stays in the store, and every node
    record it had is still there. *)
Definition carried (execution_id : string) (e : WorkflowExecution)
    (st : Engine.engine) : Prop :=
  ∃ e', Engine.executions st !! execution_id = Some e'
        ∧ ∀ k, is_Some (ex_node_executions e !! k)
               → is_Some (ex_node_executions e' !! k).

(** The record of node [k] in [e] as a successful executor call at time
    [t] leaves it. *)
Definition succeeded (t : datetime) (e : WorkflowExecution) (k : string)
  : Prop :=
  ∃ ne, ex_node_executions e !! k = Some ne
        ∧ ne_status ne = NSUCCESS
        ∧ is_Some (ne_output_data ne)
        ∧ ne_completed_at ne = Some t.

(** The record of node [k] is as [execute_workflow] created it. *)
Definition untouched (e : WorkflowExecution) (k : string) : Prop :=
  ∃ ne, ex_node_executions e !! k = Some ne
        ∧ ne_status ne = NWAITING
        ∧ ne_started_at ne = None
        ∧ ne_output_data ne = None.

End Frame.

(** The same vocabulary for execution plans. *)
Module Plan.
Import Flow.

Definition node_ids (plan : list PlanItem) : list string := nodeId <$> plan.

(** [depends_on plan d x]: the plan has an item [x] that lists [d]. *)
Definition depends_on (plan : list PlanItem) (d x : string) : Prop :=
  ∃ item, item ∈ plan ∧ nodeId item = x ∧ d ∈ dependencies item.

#[global] Instance depends_on_dec plan d x : Decision (depends_on plan d x).
Proof.
  refine (cast_if (decide (Exists (λ item, nodeId item = x
                                          ∧ d ∈ dependencies item) plan)));
    unfold depends_on; rewrite Exists_exists in *; naive_solver.
Defined.

Definition acyclic (plan : list PlanItem) : Prop :=
  ∀ x, ¬ tc (depends_on plan) x x.

(** Every dependency names an item of the plan. *)
Definition closed (plan : list PlanItem) : Prop :=
  ∀ item dep, item ∈ plan → dep ∈ dependencies item → dep ∈ node_ids plan.

(** [in_group groups i item]: [item] is a member of group number [i]. *)
Definition in_group (groups : list (list PlanItem)) (i : nat)
    (item : PlanItem) : Prop :=
  ∃ g, groups !! i = Some g ∧ item ∈ g.

(** The ids scheduled in the groups before group [i]. *)
Definition ids_before (groups : list (list PlanItem)) (i : nat)
  : list string :=
  nodeId <$> concat (take i groups).

(** Every member of a group is a plan item whose id is new and whose
    dependencies have all been scheduled in earlier groups. *)
Definition well_grouped (plan : list PlanItem)
    (groups : list (list PlanItem)) : Prop :=
  ∀ i item, in_group groups i item →
    item ∈ plan
    ∧ (nodeId item ∉ ids_before groups i)
    ∧ (∀ dep, dep ∈ dependencies item → dep ∈ ids_before groups i).

(** Where the loop stops: whatever is not scheduled waits for something
    that is not scheduled either. *)
Definition stuck (plan : list PlanItem) (groups : list (list PlanItem))
  : Prop :=
  ∀ item, item ∈ plan →
    (nodeId item ∈ (nodeId <$> concat groups))
    ∨ (∃ dep, dep ∈ dependencies item ∧ dep ∉ (nodeId <$> concat groups)).

End Plan.

(** Vocabulary for validated plans. *)
Module Validated.
Import Flow.

(** Every dependency of an item of [validated] that names a node of the
    plan belongs to an item further to the left. *)
Definition dependencies_first (plan validated : list PlanItem) : Prop :=
  ∀ i item dep,
    validated !! i = Some item → dep ∈ dependencies item →
    dep ∈ Plan.node_ids plan →
    ∃ j item', j < i ∧ validated !! j = Some item' ∧ nodeId item' = dep.

End Validated.

(** Vocabulary for the results of a plan run. *)
Module Results.
Import Flow FlowRun.

(** [r] is the result recorded for the plan item [item]. *)
Definition result_of (r : NodeResult) (item : PlanItem) : Prop :=
  r_nodeId r = nodeId item
  ∧ r_nodeType r = nodeType item
  ∧ (r_status r = "success" ∨ r_status r = "error").

(** The results of node type [t]. *)
Definition of_type (t : string) (results : list NodeResult)
  : list NodeResult :=
  filter (λ r, r_nodeType r = t) results.

(** The statistics entry that counts [rs]. *)
Definition counted (rs : list NodeResult) : TypeStat :=
  {| ts_success := length (filter (λ r, r_status r = "success") rs);
     ts_error := length (filter (λ r, r_status r ≠ "success") rs);
     ts_total := length rs |}.

End Results.

(* ===================================================================== *)
(** * Sample data *)
(* ===================================================================== *)

Module Samples.
Import Graph.

(** Sets enumerated in the order of [elements]. *)
Definition by_elements (_ : string) (s : gset string) : list string :=
  elements s.

Definition mk_node (i : string) : Node :=
  {| n_id := i; n_type := "custom"; n_label := i; n_config := ∅ |}.

Definition mk_edge (s t : string) : Edge :=
  {| source := s; target := t; sourceHandle := None; targetHandle := None |}.

(** [a → b], [a → c], [b → d], [c → d], declared from the sink up. *)
Definition diamond : Workflow :=
  {| wf_id := "diamond";
     nodes := [mk_node "d"; mk_node "c"; mk_node "b"; mk_node "a"];
     edges := [mk_edge "a" "b"; mk_edge "a" "c";
               mk_edge "b" "d"; mk_edge "c" "d"];
     settings := ∅ |}.

Definition diamond_rank (x : string) : nat :=
  if decide (x = "a") then 0
  else if decide (x = "d") then 2
  else 1.

(** [a → b] and [b → a]. *)
Definition two_cycle : Workflow :=
  {| wf_id := "two_cycle";
     nodes := [mk_node "a"; mk_node "b"];
     edges := [mk_edge "a" "b"; mk_edge "b" "a"];
     settings := ∅ |}.

Definition mk_item (i : string) (deps : list string) : Flow.PlanItem :=
  {| Flow.order := 0; Flow.nodeId := i; Flow.nodeType := "worker";
     Flow.isManager := false; Flow.dependencies := deps;
     Flow.estimatedTime := 30 |}.

(** [D] and [E] independent, both feeding [F]. *)
Definition fan_in_plan : list Flow.PlanItem :=
  [mk_item "F" ["D"; "E"]; mk_item "D" []; mk_item "E" []].

(** [a] and [b] wait for each other; [c] is free. *)
Definition cyclic_plan : list Flow.PlanItem :=
  [mk_item "a" ["b"]; mk_item "b" ["a"]; mk_item "c" []].

(** Two independent nodes. *)
Definition pair_workflow : Workflow :=
  {| wf_id := "pair";
     nodes := [mk_node "a"; mk_node "b"];
     edges := [];
     settings := ∅ |}.

(** One node and an edge to a node that does not exist. *)
Definition dangling_workflow : Workflow :=
  {| wf_id := "dangling";
     nodes := [mk_node "a"];
     edges := [mk_edge "a" "ghost"];
     settings := ∅ |}.

(** The same with [continueOnError] switched on. *)
Definition tolerant_pair_workflow : Workflow :=
  {| wf_id := "pair";
     nodes := [mk_node "a"; mk_node "b"];
     edges := [];
     settings := {["continueOnError" := VBool true]} |}.

Definition clock : datetime := 0.

(** An executor on which every node succeeds, and one on which node [a]
    fails. *)
Definition all_succeed (_ : Node) (_ : gmap string value)
  : Engine.executor_result :=
  Engine.Returns ∅.

Definition a_fails (n : Node) (_ : gmap string value)
  : Engine.executor_result :=
  if decide (n_id n = "a") then Engine.Raises "division by zero"
  else Engine.Returns ∅.

Definition no_arrivals (_ : string) : list string := [].

(** [stop_execution("run-1")] is called while node [a] executes. *)
Definition stop_during_a (node_id : string) : list string :=
  if decide (node_id = "a") then ["run-1"] else [].

(** The engine right after [execute_workflow] has stored run [run-1]. *)
Definition started (wf : Workflow) : Engine.engine :=
  {| Engine.executions :=
       {["run-1" := Engine.new_execution clock "run-1" wf None "manual" ∅]};
     Engine.outbox := [] |}.

(** Scheduler input: a task with an id and a priority. *)
Definition mk_task_data (i : string) (p : Z) : Scheduler.task_data :=
  {| Scheduler.td_id := Some i; Scheduler.td_nodeId := Some "worker-1";
     Scheduler.td_taskName := None; Scheduler.td_estimatedTime := None;
     Scheduler.td_dependencies := None; Scheduler.td_priority := Some p |}.

Definition idle_scheduler : Scheduler.SchedulerNode :=
  {| Scheduler.task_queue := []; Scheduler.running_tasks := [];
     Scheduler.completed_tasks := [] |}.

(** The line feed. *)
Definition newline : string :=
  String (Ascii.ascii_of_nat 10) EmptyString.

(** A child that printed the marker and [noise] itself, before the
    runner's own marker and result [tail]. *)
Definition forged_stdout (tail : string) : string :=
  Executor.marker +:+ newline +:+ "noise" +:+ newline
  +:+ Executor.marker +:+ tail.

(** Stand-ins for the codecs: ASCII text decodes to itself, and the only
    JSON document understood is the empty object. *)
Definition ascii_decode (b : string) : option string := Some b.

Definition toy_json_loads (t : string) : option value :=
  if decide (t = "{}") then Some (VDict ∅) else None.

Definition toy_str_exn (e : Executor.parse_exn) : string :=
  match e with
  | Executor.UnicodeDecodeError => "invalid start byte"
  | Executor.JSONDecodeError => "Expecting value"
  | Executor.TypeError => "object does not support item assignment"
  | Executor.IndexError => "list index out of range"
  end.

(** One child, pid 7, still running; nothing registered. *)
Definition one_child : Executor.PythonExecutor :=
  {| Executor.processes :=
       {[7 := {| Executor.signals := []; Executor.exited := false |}]};
     Executor.running_processes := ∅ |}.

(** The same child, registered under [exec_1]. *)
Definition one_registered_child : Executor.PythonExecutor :=
  {| Executor.processes :=
       {[7 := {| Executor.signals := []; Executor.exited := false |}]};
     Executor.running_processes := {["exec_1" := 7]} |}.

(** A child that never ends by itself, and one that ignores [SIGTERM]. *)
Definition never_ends (_ : nat) (_ : Z) : option (string * string) := None.
Definition ignores_sigterm (_ : nat) : bool := false.

(** A plan item as it reaches [create_execution_plan]. *)
Definition mk_execution_item (i : string) : FlowRun.ExecutionItem :=
  {| FlowRun.ei_nodeId := i; FlowRun.ei_type := None;
     FlowRun.ei_dependencies := None; FlowRun.ei_estimatedTime := None |}.

(** A flow node that is running and has recorded nothing yet, node
    modules that always return, and no stop request. *)
Definition idle_flow : FlowRun.FlowNode :=
  {| FlowRun.is_running := true; FlowRun.execution_status := ∅ |}.

Definition every_node_returns (_ _ : string) (_ : gmap string value)
  : Engine.executor_result :=
  Engine.Returns ∅.

Definition never_stops (_ : string) : bool := false.

(** A queued task. *)
Definition mk_task (i : string) (deps : list string) (p : Z)
  : Scheduler.ScheduledTask :=
  {| Scheduler.id := i; Scheduler.node_id := "worker-1";
     Scheduler.task_name := i; Scheduler.estimated_time := 30;
     Scheduler.actual_time := None; Scheduler.start_time := None;
     Scheduler.end_time := None; Scheduler.dependencies := deps;
     Scheduler.priority := p; Scheduler.status := "scheduled" |}.

(** Task [B] waits for task [A]. *)
Definition waiting_scheduler : Scheduler.SchedulerNode :=
  {| Scheduler.task_queue := [mk_task "A" [] 50; mk_task "B" ["A"] 50];
     Scheduler.running_tasks := []; Scheduler.completed_tasks := [] |}.

(** A child that printed [hello] and no marker of its own. *)
Definition clean_stdout : string :=
  "hello" +:+ newline +:+ Executor.marker +:+ newline +:+ "{}" +:+ newline.

End Samples.

(* ===================================================================== *)
(** * Properties *)
(* ===================================================================== *)

(** ** Loops *)

Module PyFacts.

(** Loop rule: an invariant indexed by the elements already processed. *)
Lemma for_in_inv {A S} (I : list A → S → Prop) (body : A → S → outcome S)
    (l : list A) (s : S) :
  I [] s →
  (∀ pre x post s0, l = pre ++ x :: post → I pre s0 →
     ∃ s1, body x s0 = Ok s1 ∧ I (pre ++ [x]) s1) →
  ∃ s', for_in l body s = Ok s' ∧ I l s'.
Proof.
  revert I s. induction l as [|a l IH]; intros I s H0 Hstep.
  - exists s. by split.
  - destruct (Hstep [] a l s eq_refl H0) as (s1 & Hb & H1).
    destruct (IH (λ pre, I (a :: pre)) s1 H1) as (s' & Hl & Hs').
    + intros pre x post s0 -> Hpre.
      apply (Hstep (a :: pre) x post s0); [done|exact Hpre].
    + exists s'. split; [|exact Hs'].
      cbn. rewrite Hb. exact Hl.
Qed.

Lemma index_app_l x l1 l2 :
  x ∈ l1 → ∃ i, index x (l1 ++ l2) = Some i ∧ i < length l1.
Proof.
  induction l1 as [|y l1 IH]; intros Hin; [by apply elem_of_nil in Hin|].
  cbn. destruct (decide (x = y)) as [->|Hne].
  - exists 0. split; [done|lia].
  - apply elem_of_cons in Hin as [?|Hin]; [done|].
    destruct (IH Hin) as (i & -> & Hi). exists (S i). split; [done|lia].
Qed.

Lemma index_app_r x l1 l2 :
  x ∉ l1 → index x (l1 ++ x :: l2) = Some (length l1).
Proof.
  induction l1 as [|y l1 IH]; intros Hin; cbn.
  - by rewrite decide_True.
  - apply not_elem_of_cons in Hin as [Hne Hin].
    rewrite decide_False by done. by rewrite IH.
Qed.

End PyFacts.

(** ** The dependency walk *)

Module WalkFacts.
Import Engine Graph PyFacts.

Section Visit.

Variable set_iter : string → gset string → list string.
Hypothesis set_iter_ok : enumerates set_iter.

Variable dependencies : gmap string (gset string).

(** [rel d x]: [d] is a dependency of [x]. *)
Variable rel : relation string.
Hypothesis dependencies_rel : ∀ x deps d,
  dependencies !! x = Some deps → (d ∈ deps ↔ rel d x).
Hypothesis dependencies_closed : ∀ x deps,
  dependencies !! x = Some deps → deps ⊆ dom dependencies.

(** Nodes entered but not yet appended: the active part of the walk. *)
Definition active (st : walk) : gset string := st.1 ∖ list_to_set st.2.

Definition walk_ok (st : walk) : Prop :=
  st.1 ⊆ dom dependencies ∧ list_to_set st.2 ⊆ st.1 ∧ NoDup st.2.

Lemma set_iter_elem k s x : x ∈ set_iter k s ↔ x ∈ s.
Proof. rewrite (set_iter_ok k s). apply elem_of_elements. Qed.

Lemma topologically_ordered_snoc l n deps :
  topologically_ordered dependencies l →
  dependencies !! n = Some deps →
  (∀ d, d ∈ deps → d ∈ l) →
  topologically_ordered dependencies (l ++ [n]).
Proof.
  intros Hl Hn Hd l1 x l2 ds d Heq Hx Hin.
  destruct (decide (l2 = [])) as [->|Hne].
  - apply app_inj_tail in Heq as [-> ->].
    rewrite Hn in Hx. injection Hx as <-. by apply Hd.
  - destruct (exists_last Hne) as (l2' & y & ->).
    change (l1 ++ x :: l2' ++ [y]) with (l1 ++ (x :: l2') ++ [y]) in Heq.
    rewrite app_assoc in Heq. apply app_inj_tail in Heq as [-> ->].
    by eapply Hl.
Qed.

(** One call of [visit]: it returns, keeps the walk well formed, leaves
    the active set as it found it and only appends to [order].  When the
    dependency relation has no cycle and every active node depends on
    [node_id], the appended part is ordered and contains [node_id]. *)
Lemma visit_spec fuel node_id st :
  walk_ok st →
  node_id ∈ dom dependencies →
  size (dom dependencies ∖ st.1) < fuel →
  ∃ st', visit set_iter fuel dependencies node_id st = Ok st'
    ∧ walk_ok st'
    ∧ st.1 ⊆ st'.1
    ∧ node_id ∈ st'.1
    ∧ active st' = active st
    ∧ (∃ new, st'.2 = st.2 ++ new)
    ∧ ((∀ x, ¬ tc rel x x) →
       (∀ a, a ∈ active st → tc rel node_id a) →
       topologically_ordered dependencies st.2 →
       topologically_ordered dependencies st'.2 ∧ node_id ∈ st'.2).
Proof.
  revert node_id st.
  induction fuel as [|fuel IH]; intros n [V O] Hok Hn Hsz; [lia|].
  destruct Hok as (HV & HO & Hnd). cbn in HV, HO, Hnd, Hsz.
  cbn [visit]. destruct (decide (n ∈ V)) as [HnV|HnV].
  { exists (V, O). split_and!; try done.
    - by exists []; rewrite app_nil_r.
    - intros Hno Hrel Hto. split; [done|]. cbn.
      destruct (decide (n ∈ O)) as [|HnO]; [done|].
      exfalso. apply (Hno n), Hrel. unfold active; cbn.
      apply elem_of_difference. split; [done|]. by rewrite elem_of_list_to_set. }
  apply elem_of_dom in Hn as Hn'. destruct Hn' as [deps Hdeps].
  rewrite Hdeps.
  set (I := λ (pre : list string) (s : walk),
    walk_ok s ∧ V ∪ {[n]} ⊆ s.1
    ∧ active s = active (V, O) ∪ {[n]}
    ∧ (∃ new, s.2 = O ++ new)
    ∧ ((∀ x, ¬ tc rel x x) →
       (∀ a, a ∈ active (V, O) → tc rel n a) →
       topologically_ordered dependencies O →
       topologically_ordered dependencies s.2 ∧ ∀ d, d ∈ pre → d ∈ s.2)).
  destruct (for_in_inv I (visit set_iter fuel dependencies)
              (set_iter n deps) (V ∪ {[n]}, O)) as ([V' O'] & -> & HI).
  - (* the loop invariant holds on entry *)
    unfold I, walk_ok, active; cbn. split_and!.
    + set_solver.
    + set_solver.
    + done.
    + done.
    + apply set_eq. intros x. rewrite !elem_of_union, !elem_of_difference,
        elem_of_union, elem_of_singleton, elem_of_list_to_set.
      split; [tauto|]. intros [[? ?]| ->]; [tauto|].
      split; [tauto|]. intros HnO. apply HnV, HO. by apply elem_of_list_to_set.
    + by exists []; rewrite app_nil_r.
    + intros _ _ Hto. split; [done|].
      intros d Hd. by apply elem_of_nil in Hd.
  - (* one iteration *)
    intros pre d post s Hsplit (Hok & Hsub & Hact & [new Hnew] & Hacyc).
    assert (Hd : d ∈ deps).
    { apply (set_iter_elem n). rewrite Hsplit. set_solver. }
    destruct (IH d s Hok)
      as (s1 & Hv & Hok1 & Hmono & Hd1 & Hact1 & [new1 Hnew1] & Hacyc1).
    + by eapply dependencies_closed.
    + assert (size (dom dependencies ∖ s.1)
              ≤ size (dom dependencies ∖ (V ∪ {[n]})))%nat
        by (apply subseteq_size; set_solver).
      assert (size (dom dependencies ∖ (V ∪ {[n]}))
              < size (dom dependencies ∖ V)); [|lia].
      apply subset_size. split; [set_solver|].
      intros Hsub'. specialize (Hsub' n). set_solver.
    + exists s1. split; [done|]. unfold I. split_and!.
      * done.
      * set_solver.
      * by rewrite Hact1.
      * exists (new ++ new1). by rewrite Hnew1, Hnew, app_assoc.
      * intros Hno Hrel Hto. destruct (Hacyc Hno Hrel Hto) as [Hto_s Hpre].
        destruct Hacyc1 as [Hto1 Hd1']; [done| |done|].
        { intros a. rewrite Hact, elem_of_union, elem_of_singleton.
          intros [Ha| ->].
          - eapply tc_l; [|by apply Hrel]. by eapply dependencies_rel.
          - apply tc_once. by eapply dependencies_rel. }
        split; [done|]. intros d' Hd'.
        apply elem_of_app in Hd' as [Hd'|Hd'].
        -- rewrite Hnew1. apply elem_of_app. left. by apply Hpre.
        -- by apply list_elem_of_singleton in Hd' as ->.
  - (* after the loop: [order.append(node_id)] *)
    destruct HI as ((HV' & HO' & Hnd') & Hsub & Hact & [new Hnew] & Hacyc).
    cbn in HV', HO', Hnd', Hsub, Hnew.
    assert (HnO' : n ∉ O').
    { assert (Hna : n ∈ active (V', O')) by (rewrite Hact; set_solver).
      unfold active in Hna; cbn in Hna. set_solver. }
    exists (V', O' ++ [n]). cbn. split; [done|].
    unfold walk_ok; cbn. split_and!.
    + done.
    + rewrite list_to_set_app_L. set_solver.
    + apply NoDup_app. split_and!; [done| |apply NoDup_singleton].
      intros x Hx Hx'. by apply list_elem_of_singleton in Hx' as ->.
    + set_solver.
    + set_solver.
    + unfold active in *; cbn in *. rewrite list_to_set_app_L.
      clear Hacyc IH. set_solver.
    + exists (new ++ [n]). by rewrite Hnew, app_assoc.
    + intros Hno Hrel Hto. destruct (Hacyc Hno Hrel Hto) as [Hto' Hall].
      split; [|set_solver].
      eapply topologically_ordered_snoc; [done..|].
      intros d Hd. apply Hall. by apply set_iter_elem.
Qed.

End Visit.

Lemma empty_dependencies_from (ns : list Node) (d0 : gmap string (gset string)) :
  let d := foldl (λ d n, <[n_id n := ∅]> d) d0 ns in
  dom d = dom d0 ∪ list_to_set (n_id <$> ns)
  ∧ ∀ x s, d !! x = Some s → s = ∅ ∨ d0 !! x = Some s.
Proof.
  revert d0. induction ns as [|n ns IH]; intros d0; cbn.
  - split; [set_solver|]. by right.
  - destruct (IH (<[n_id n := ∅]> d0)) as [Hdom Hlook]. split.
    + rewrite Hdom, dom_insert_L. set_solver.
    + intros x s Hx. destruct (Hlook x s Hx) as [?|Hx']; [by left|].
      apply lookup_insert_Some in Hx' as [[_ <-]|[_ ?]]; [by left|by right].
Qed.

Lemma empty_dependencies_spec (ns : list Node) :
  dom (empty_dependencies ns) = list_to_set (n_id <$> ns)
  ∧ ∀ x s, empty_dependencies ns !! x = Some s → s = ∅.
Proof.
  destruct (empty_dependencies_from ns ∅) as [Hdom Hlook]. split.
  - unfold empty_dependencies. rewrite Hdom. set_solver.
  - intros x s Hx. destruct (Hlook x s Hx) as [?|Hx']; [done|].
    by rewrite lookup_empty in Hx'.
Qed.

(** The dependency table: one key per node, and under each key the
    sources of the edges that point at it. *)
Lemma build_dependencies_spec (wf : Workflow) :
  edges_closed wf →
  ∃ dependencies,
    build_dependencies wf = Ok dependencies
    ∧ dom dependencies = list_to_set (node_ids wf)
    ∧ ∀ x deps d, dependencies !! x = Some deps →
        (d ∈ deps ↔ depends_on wf d x).
Proof.
  intros Hclosed. unfold build_dependencies.
  destruct (empty_dependencies_spec (nodes wf)) as [Hdom0 Hempty].
  set (I := λ (pre : list Edge) (dm : gmap string (gset string)),
    dom dm = list_to_set (node_ids wf)
    ∧ ∀ x deps d, dm !! x = Some deps →
        (d ∈ deps ↔ ∃ e, e ∈ pre ∧ source e = d ∧ target e = x)).
  destruct (for_in_inv I add_dependency (edges wf)
              (empty_dependencies (nodes wf))) as (dm & Hdm & Hdom & Hrel).
  - split; [done|]. intros x deps d Hx. rewrite (Hempty x deps Hx).
    split; [set_solver|]. intros (e & He & _). by apply elem_of_nil in He.
  - intros pre e post dm Hsplit [Hdom Hrel]. unfold add_dependency.
    assert (He : e ∈ edges wf) by (rewrite Hsplit; set_solver).
    assert (Ht : target e ∈ dom dm).
    { rewrite Hdom, elem_of_list_to_set. by apply Hclosed. }
    apply elem_of_dom in Ht as [s Hs]. rewrite Hs.
    eexists. split; [done|]. split.
    + rewrite dom_insert_L, <- Hdom.
      apply elem_of_dom_2 in Hs. set_solver.
    + intros x deps d Hx.
      apply lookup_insert_Some in Hx as [[<- <-]|[Hne Hx]].
      * rewrite elem_of_union, elem_of_singleton, (Hrel _ _ d Hs). split.
        -- intros [(e' & He' & ? & ?)| ->].
           ++ exists e'. split; [set_solver|done].
           ++ exists e. split; [set_solver|done].
        -- intros (e' & He' & Hsrc & Htgt).
           apply elem_of_app in He' as [He'|He'].
           ++ left. by exists e'.
           ++ apply list_elem_of_singleton in He' as ->. by right.
      * rewrite (Hrel _ _ d Hx). split.
        -- intros (e' & He' & ? & ?). exists e'. split; [set_solver|done].
        -- intros (e' & He' & Hsrc & Htgt).
           apply elem_of_app in He' as [He'|He'].
           ++ by exists e'.
           ++ apply list_elem_of_singleton in He' as ->. done.
  - exists dm. split; [done|]. split; [done|].
    intros x deps d Hx. rewrite (Hrel x deps d Hx). unfold depends_on.
    done.
Qed.

Section Order.

Variable set_iter : string → gset string → list string.
Hypothesis set_iter_ok : enumerates set_iter.

(** The whole walk, on any graph whose edges join existing nodes: it
    returns, and the order lists every node id once.  On an acyclic graph
    the order is topological. *)
Lemma get_execution_order_spec (wf : Workflow) :
  edges_closed wf →
  ∃ dependencies order,
    build_dependencies wf = Ok dependencies
    ∧ _get_execution_order set_iter wf = Ok order
    ∧ NoDup order
    ∧ (∀ x, x ∈ order ↔ x ∈ node_ids wf)
    ∧ (acyclic wf → topologically_ordered dependencies order).
Proof.
  intros Hclosed.
  destruct (build_dependencies_spec wf Hclosed) as (dm & Hbuild & Hdom & Hrel).
  assert (Hcl : ∀ x deps, dm !! x = Some deps → deps ⊆ dom dm).
  { intros x deps Hx d Hd. apply (Hrel x deps d Hx) in Hd as (e & He & <- & _).
    rewrite Hdom, elem_of_list_to_set. by apply Hclosed. }
  unfold _get_execution_order. rewrite Hbuild. cbn -[visit].
  set (I := λ (pre : list Node) (s : walk),
    walk_ok dm s ∧ active s = ∅
    ∧ (∀ n, n ∈ pre → n_id n ∈ s.1)
    ∧ (acyclic wf → topologically_ordered dm s.2)).
  destruct (for_in_inv I
              (λ n, visit set_iter (S (size dm)) dm (n_id n))
              (nodes wf) (∅, [])) as ([V O] & -> & HI).
  - unfold I, walk_ok, active; cbn. split_and!.
    + apply empty_subseteq.
    + done.
    + apply NoDup_nil_2.
    + apply difference_diag_L.
    + intros n Hn. by apply elem_of_nil in Hn.
    + intros _ l1 x l2 deps d Heq. by destruct l1.
  - intros pre n post s Hsplit (Hok & Hact & Hpre & Hto).
    destruct (visit_spec set_iter set_iter_ok dm (depends_on wf) Hrel Hcl
                (S (size dm)) (n_id n) s Hok)
      as (s1 & Hv & Hok1 & Hmono & Hn1 & Hact1 & _ & Hacyc1).
    + rewrite Hdom, elem_of_list_to_set. unfold node_ids.
      apply list_elem_of_fmap. exists n. split; [done|].
      rewrite Hsplit. set_solver.
    + rewrite <- size_dom. apply Nat.lt_succ_r, subseteq_size. set_solver.
    + exists s1. split; [done|]. unfold I. split_and!.
      * done.
      * by rewrite Hact1.
      * intros m Hm. apply elem_of_app in Hm as [Hm|Hm].
        -- by apply Hmono, Hpre.
        -- by apply list_elem_of_singleton in Hm as ->.
      * intros Hacyc. apply Hacyc1; [done| |by apply Hto].
        intros a. rewrite Hact. set_solver.
  - destruct HI as ((HV & HO & Hnd) & Hact & Hall & Hto).
    unfold active in Hact. cbn in HV, HO, Hnd, Hact, Hall, Hto.
    exists dm, O. split_and!; try done.
    intros x. split.
    + intros Hx. apply (elem_of_list_to_set (C:=gset string)).
      rewrite <- Hdom. apply HV, HO. by apply elem_of_list_to_set.
    + intros Hx. unfold node_ids in Hx.
      apply list_elem_of_fmap in Hx as (n & -> & Hn).
      apply Hall in Hn. apply (elem_of_list_to_set (C:=gset string)).
      destruct (decide (n_id n ∈ (list_to_set O : gset string))) as [|Hno];
        [done|].
      assert (n_id n ∈ V ∖ list_to_set O) as Hin
        by (by apply elem_of_difference).
      rewrite Hact in Hin. by apply elem_of_empty in Hin.
Qed.

End Order.

(** A ranking that grows along every edge rules out cycles. *)
Lemma acyclic_of_rank (wf : Workflow) (rank : string → nat) :
  Forall (λ e, rank (source e) < rank (target e)) (edges wf) →
  acyclic wf.
Proof.
  rewrite Forall_forall. intros Hrank x Hx.
  assert (Hlt : ∀ a b, tc (depends_on wf) a b → rank a < rank b).
  { intros a b Hab. induction Hab as [a b (e & He & <- & <-)
                                     |a b c (e & He & <- & <-) _ IH].
    - by apply Hrank.
    - specialize (Hrank e He). lia. }
  specialize (Hlt x x Hx). lia.
Qed.

Lemma edges_closed_Forall (wf : Workflow) :
  Forall (λ e, source e ∈ node_ids wf ∧ target e ∈ node_ids wf) (edges wf) →
  edges_closed wf.
Proof. rewrite Forall_forall. intros H e He. by apply H. Qed.

Lemma enumerates_by_elements : enumerates Samples.by_elements.
Proof. intros k s. reflexivity. Qed.

Lemma topologically_ordered_before dependencies order s t deps :
  topologically_ordered dependencies order →
  NoDup order →
  t ∈ order →
  dependencies !! t = Some deps →
  s ∈ deps →
  before s t order.
Proof.
  intros Hto Hnd Ht Hdeps Hs.
  apply list_elem_of_split in Ht as (l1 & l2 & ->).
  assert (Hs1 : s ∈ l1) by (by eapply Hto).
  destruct (index_app_l s l1 (t :: l2) Hs1) as (i & Hi & Hlt).
  exists i, (length l1). split_and!; [done| |done].
  apply index_app_r. apply NoDup_app in Hnd as (_ & Hdisj & _).
  intros Ht1. apply (Hdisj t Ht1). set_solver.
Qed.



End WalkFacts.

(** ** Dependency groups *)

Module FlowFacts.
Import Flow Plan PyFacts.

Lemma size_list_to_set_le (l : list string) :
  size (list_to_set l : gset string) ≤ length l.
Proof.
  induction l as [|x l IH]; cbn.
  - by rewrite size_empty.
  - rewrite size_union_alt, size_singleton.
    assert (size ((list_to_set l : gset string) ∖ {[x]})
            ≤ size (list_to_set l : gset string))%nat
      by (apply subseteq_size; set_solver).
    lia.
Qed.

Lemma elem_of_concat {A} (x : A) (ls : list (list A)) :
  x ∈ concat ls ↔ ∃ l, x ∈ l ∧ l ∈ ls.
Proof.
  rewrite list_elem_of_In, in_concat. split.
  - intros (l & Hl & Hx). exists l. by rewrite !list_elem_of_In.
  - intros (l & Hx & Hl). exists l. by rewrite <- !list_elem_of_In.
Qed.

Lemma ids_before_snoc groups group i :
  i ≤ length groups →
  ids_before (groups ++ [group]) i = ids_before groups i.
Proof. intros Hi. unfold ids_before. by rewrite take_app_le. Qed.

Lemma ids_before_all groups :
  ids_before groups (length groups) = nodeId <$> concat groups.
Proof. unfold ids_before. by rewrite firstn_all. Qed.

Lemma well_grouped_snoc plan groups completed :
  well_grouped plan groups →
  completed = list_to_set (nodeId <$> concat groups) →
  well_grouped plan (groups ++ [frontier plan completed]).
Proof.
  intros Hwg -> i item (g & Hg & Hitem).
  apply lookup_app_Some in Hg as [Hg|[Hlen Hg]].
  - rewrite ids_before_snoc
      by (apply lookup_lt_Some in Hg; lia).
    apply Hwg. by exists g.
  - destruct (i - length groups) as [|k] eqn:Hk; [|by destruct k].
    injection Hg as <-.
    assert (i = length groups) as -> by lia.
    rewrite ids_before_snoc, ids_before_all by lia.
    apply list_elem_of_filter in Hitem as [[Hnew Hdeps] Hin].
    split_and!; [done| |].
    + by rewrite elem_of_list_to_set in Hnew.
    + intros dep Hdep. rewrite Forall_forall in Hdeps.
      specialize (Hdeps dep Hdep). by rewrite elem_of_list_to_set in Hdeps.
Qed.

Lemma well_grouped_ids_in_plan plan groups x :
  well_grouped plan groups →
  x ∈ (nodeId <$> concat groups) →
  x ∈ node_ids plan.
Proof.
  intros Hwg Hx. apply list_elem_of_fmap in Hx as (item & -> & Hitem).
  apply elem_of_concat in Hitem as (g & Hitem & Hg).
  apply list_elem_of_lookup in Hg as [i Hg].
  apply list_elem_of_fmap. exists item. split; [done|].
  apply (Hwg i item). by exists g.
Qed.

(** The [while] loop returns within its fuel; its result is well grouped
    and stuck, and no group is empty. *)
Lemma group_loop_spec plan fuel groups completed :
  well_grouped plan groups →
  Forall (λ g, g ≠ []) groups →
  completed = list_to_set (nodeId <$> concat groups) →
  size (list_to_set (node_ids plan) ∖ completed) < fuel →
  ∃ groups',
    group_loop fuel plan groups completed = Ok groups'
    ∧ well_grouped plan groups'
    ∧ Forall (λ g, g ≠ []) groups'
    ∧ stuck plan groups'.
Proof.
  revert groups completed.
  induction fuel as [|fuel IH]; intros groups completed Hwg Hne Hc Hsz; [lia|].
  assert (Hsub : completed ⊆ list_to_set (node_ids plan)).
  { intros x. rewrite Hc, !elem_of_list_to_set.
    by apply well_grouped_ids_in_plan. }
  cbn [group_loop]. destruct (decide (size completed < length plan)) as [Hlt|Hge].
  - destruct (frontier plan completed) as [|p g] eqn:Hfr.
    + exists groups. split_and!; [done..|].
      intros item Hitem.
      assert (Hnr : ¬ ready completed item).
      { intros Hr. eapply (filter_nil_not_elem_of _ _ item Hfr); done. }
      destruct (decide (nodeId item ∈ completed)) as [Hin|Hout].
      * left. by rewrite Hc, elem_of_list_to_set in Hin.
      * right. assert (Hnf : ¬ Forall (λ dep, dep ∈ completed)
                               (dependencies item)).
        { intros Hf. by apply Hnr. }
        apply not_Forall_Exists in Hnf; [|apply _].
        apply Exists_exists in Hnf as (dep & Hdep & Hnc).
        exists dep. split; [done|]. cbn in Hnc.
        by rewrite Hc, elem_of_list_to_set in Hnc.
    + rewrite <- Hfr.
      assert (Hp : p ∈ frontier plan completed) by (rewrite Hfr; set_solver).
      apply list_elem_of_filter in Hp as [[Hpnew _] Hpin].
      apply IH.
      * by apply well_grouped_snoc.
      * apply Forall_app. split; [done|]. apply Forall_singleton.
        by rewrite Hfr.
      * rewrite concat_app, fmap_app, list_to_set_app_L, <- Hc. cbn.
        by rewrite app_nil_r.
      * assert (size (list_to_set (node_ids plan)
                        ∖ (completed ∪ list_to_set
                             (nodeId <$> frontier plan completed)))
                < size (list_to_set (node_ids plan) ∖ completed)); [|lia].
        apply subset_size. split; [set_solver|].
        intros Hsub'. specialize (Hsub' (nodeId p)).
        rewrite !elem_of_difference, elem_of_union, !elem_of_list_to_set
          in Hsub'.
        destruct Hsub' as [_ Hno].
        -- split; [|done]. apply list_elem_of_fmap. by exists p.
        -- apply Hno. right. rewrite Hfr. set_solver.
  - exists groups. split_and!; [done..|].
    intros item Hitem. left.
    assert (Heq : completed = list_to_set (node_ids plan)).
    { apply set_subseteq_size_eq; [done|].
      pose proof (size_list_to_set_le (node_ids plan)) as Hle.
      unfold node_ids in Hle at 2. rewrite length_fmap in Hle. lia. }
    assert (Hin : nodeId item ∈ completed).
    { rewrite Heq, elem_of_list_to_set. apply list_elem_of_fmap. by exists item. }
    by rewrite Hc, elem_of_list_to_set in Hin.
Qed.

(** [group_by_dependencies] returns for every plan. *)
Lemma group_by_dependencies_spec plan :
  ∃ groups,
    group_by_dependencies plan = Ok groups
    ∧ well_grouped plan groups
    ∧ Forall (λ g, g ≠ []) groups
    ∧ stuck plan groups.
Proof.
  apply group_loop_spec.
  - intros i item (g & Hg & _). by rewrite lookup_nil in Hg.
  - constructor.
  - done.
  - rewrite difference_empty_L.
    pose proof (size_list_to_set_le (node_ids plan)) as Hle.
    unfold node_ids in Hle at 2. rewrite length_fmap in Hle. lia.
Qed.

Lemma elem_of_ids_before groups i x :
  x ∈ ids_before groups i
  ↔ ∃ j item, j < i ∧ in_group groups j item ∧ nodeId item = x.
Proof.
  unfold ids_before, in_group. rewrite list_elem_of_fmap. split.
  - intros (item & -> & Hitem).
    apply elem_of_concat in Hitem as (g & Hitem & Hg).
    apply elem_of_take in Hg as (j & Hg & Hj).
    exists j, item. split_and!; [done| |done]. by exists g.
  - intros (j & item & Hj & (g & Hg & Hitem) & <-).
    exists item. split; [done|]. apply elem_of_concat. exists g.
    split; [done|]. apply elem_of_take. by exists j.
Qed.

(** A node id is scheduled in one group at most. *)
Lemma well_grouped_once plan groups i j item item' :
  well_grouped plan groups →
  in_group groups i item → in_group groups j item' →
  nodeId item = nodeId item' → i = j.
Proof.
  intros Hwg Hi Hj Heq.
  destruct (Hwg i item Hi) as (_ & Hnew & _).
  destruct (Hwg j item' Hj) as (_ & Hnew' & _).
  destruct (Nat.lt_trichotomy i j) as [Hlt|[?|Hlt]]; [|done|]; exfalso.
  - apply Hnew'. apply elem_of_ids_before. by exists i, item.
  - apply Hnew. apply elem_of_ids_before. by exists j, item'.
Qed.

Lemma tc_subrel {A} (R R' : relation A) x y :
  (∀ a b, R' a b → tc R a b) → tc R' x y → tc R x y.
Proof.
  intros Hsub Hxy. induction Hxy as [x y Hxy|x y z Hxy _ IH].
  - by apply Hsub.
  - etrans; [by apply Hsub|done].
Qed.

(** In a finite non-empty set where everything has a predecessor inside
    the set, some element precedes itself. *)
Lemma cycle_of_no_minimal (U : gset string) :
  ∀ (R : relation string), (∀ d x, Decision (R d x)) →
    U ≠ ∅ →
    (∀ x, x ∈ U → ∃ d, d ∈ U ∧ R d x) →
    ∃ x, tc R x x.
Proof.
  induction U as [|a X Ha IH] using set_ind_L; intros R Hdec Hne Hpred;
    [done|].
  destruct (decide (R a a)) as [Haa|Haa]; [exists a; by apply tc_once|].
  destruct (decide (X = ∅)) as [->|HX].
  { destruct (Hpred a) as (d & Hd & Hda); [set_solver|].
    assert (d = a) as -> by set_solver. done. }
  destruct (IH (λ d x, R d x ∨ (R d a ∧ R a x))) as [y Hy].
  - intros d x. apply _.
  - done.
  - intros x Hx. destruct (Hpred x) as (d & Hd & Hdx); [set_solver|].
    apply elem_of_union in Hd as [Hd|Hd].
    + apply elem_of_singleton in Hd as ->.
      destruct (Hpred a) as (d' & Hd' & Hd'a); [set_solver|].
      apply elem_of_union in Hd' as [Hd'|Hd'].
      * apply elem_of_singleton in Hd' as ->. done.
      * exists d'. split; [done|]. by right.
    + exists d. split; [done|]. by left.
  - exists y. eapply tc_subrel; [|exact Hy].
    intros d x [Hdx|[Hda Hax]]; [by apply tc_once|].
    eapply tc_l; [done|]. by apply tc_once.
Qed.

(** With every dependency in the plan and no cycle, the loop cannot get
    stuck before every id is scheduled. *)
Lemma stuck_all_scheduled plan groups :
  closed plan → acyclic plan → stuck plan groups →
  ∀ item, item ∈ plan → nodeId item ∈ (nodeId <$> concat groups).
Proof.
  intros Hcl Hacyc Hstuck item Hitem.
  set (U := (list_to_set (node_ids plan) : gset string)
            ∖ list_to_set (nodeId <$> concat groups)).
  destruct (decide (nodeId item ∈ (nodeId <$> concat groups))) as [|Hno];
    [done|].
  exfalso. destruct (cycle_of_no_minimal U (depends_on plan)) as [x Hx].
  - apply _.
  - assert (nodeId item ∈ U); [|set_solver].
    apply elem_of_difference. rewrite !elem_of_list_to_set. split; [|done].
    apply list_elem_of_fmap. by exists item.
  - intros x Hx. apply elem_of_difference in Hx as [Hx Hns].
    rewrite elem_of_list_to_set in Hx, Hns.
    apply list_elem_of_fmap in Hx as (it & -> & Hit).
    destruct (Hstuck it Hit) as [?|(dep & Hdep & Hdns)]; [done|].
    exists dep. split.
    + apply elem_of_difference. rewrite !elem_of_list_to_set.
      split; [by eapply Hcl|done].
    + by exists it.
  - by apply (Hacyc x).
Qed.

Lemma NoDup_node_ids_inj plan item item' :
  NoDup (node_ids plan) → item ∈ plan → item' ∈ plan →
  nodeId item = nodeId item' → item = item'.
Proof.
  unfold node_ids. induction plan as [|p plan IH]; cbn; intros Hnd Hi Hi' Heq.
  - by apply elem_of_nil in Hi.
  - apply NoDup_cons in Hnd as [Hp Hnd].
    apply elem_of_cons in Hi as [->|Hi]; apply elem_of_cons in Hi' as [->|Hi'].
    + done.
    + exfalso. apply Hp. rewrite Heq. apply list_elem_of_fmap. by exists item'.
    + exfalso. apply Hp. rewrite <- Heq. apply list_elem_of_fmap. by exists item.
    + by apply IH.
Qed.

(** Whatever a grouped item depends on, directly or not, was scheduled
    in an earlier group. *)
Lemma well_grouped_tc plan groups d x :
  NoDup (node_ids plan) → well_grouped plan groups →
  tc (depends_on plan) d x →
  ∀ i item, in_group groups i item → nodeId item = x →
    d ∈ ids_before groups i.
Proof.
  intros Hnd Hwg Hdx.
  induction Hdx as [d x (it & Hit & Hid & Hdep)
                   |d y x (it & Hit & Hid & Hdep) _ IH];
    intros i item Hin Hx.
  - destruct (Hwg i item Hin) as (Hplan & _ & Hdeps).
    assert (it = item) as -> by (eapply NoDup_node_ids_inj; [done..|congruence]).
    by apply Hdeps.
  - specialize (IH i item Hin Hx).
    apply elem_of_ids_before in IH as (j & item' & Hj & Hin' & Hy).
    destruct (Hwg j item' Hin') as (Hplan & _ & Hdeps).
    assert (it = item') as -> by (eapply NoDup_node_ids_inj; [done..|congruence]).
    specialize (Hdeps d Hdep).
    apply elem_of_ids_before in Hdeps as (k & item'' & Hk & Hin'' & Hd).
    apply elem_of_ids_before. exists k, item''. split_and!; [lia|done..].
Qed.

(** With distinct ids, no grouped item lies on a dependency cycle. *)
Lemma grouped_not_on_cycle plan groups i item :
  NoDup (node_ids plan) → well_grouped plan groups →
  in_group groups i item →
  ¬ tc (depends_on plan) (nodeId item) (nodeId item).
Proof.
  intros Hnd Hwg Hin Hcyc.
  destruct (Hwg i item Hin) as (_ & Hnew & _). apply Hnew.
  by eapply well_grouped_tc.
Qed.

Lemma closed_Forall plan :
  Forall (λ item, Forall (λ dep, dep ∈ node_ids plan) (dependencies item))
         plan →
  closed plan.
Proof.
  rewrite Forall_forall. intros H item dep Hitem Hdep.
  specialize (H item Hitem). rewrite Forall_forall in H. by apply H.
Qed.

Lemma plan_acyclic_of_rank plan (rank : string → nat) :
  Forall (λ item, Forall (λ dep, rank dep < rank (nodeId item))
                         (dependencies item)) plan →
  acyclic plan.
Proof.
  rewrite Forall_forall. intros Hrank x Hx.
  assert (Hlt : ∀ a b, tc (depends_on plan) a b → rank a < rank b).
  { intros a b Hab.
    induction Hab as [a b (it & Hit & <- & Hdep)
                     |a b c (it & Hit & <- & Hdep) _ IH].
    - specialize (Hrank it Hit). rewrite Forall_forall in Hrank.
      by apply Hrank.
    - specialize (Hrank it Hit). rewrite Forall_forall in Hrank.
      specialize (Hrank a Hdep). lia. }
  specialize (Hlt x x Hx). lia.
Qed.

(** Claim C5, as the code has it.  For every execution plan
    [group_by_dependencies] returns groups of plan items in which a node
    id occurs in one group at most and every dependency of a grouped
    item was scheduled in a strictly earlier group.  When the ids of the
    plan are distinct, every dependency names an item of the plan and
    the dependencies have no cycle, every item is in a group (so in
    exactly one). *)
Theorem grouping_sound (plan : list PlanItem) :
  ∃ groups,
    group_by_dependencies plan = Ok groups
    ∧ (∀ i item, in_group groups i item → item ∈ plan)
    ∧ (∀ i j item item',
         in_group groups i item → in_group groups j item' →
         nodeId item = nodeId item' → i = j)
    ∧ (∀ i item dep,
         in_group groups i item → dep ∈ dependencies item →
         ∃ j item', j < i ∧ in_group groups j item' ∧ nodeId item' = dep)
    ∧ (NoDup (node_ids plan) → closed plan → acyclic plan →
       ∀ item, item ∈ plan → ∃ i, in_group groups i item).
Proof.
  destruct (group_by_dependencies_spec plan)
    as (groups & Hrun & Hwg & _ & Hstuck).
  exists groups. split_and!; [done| | | |].
  - intros i item Hin. by apply (Hwg i item).
  - intros i j item item'. by apply (well_grouped_once plan).
  - intros i item dep Hin Hdep.
    destruct (Hwg i item Hin) as (_ & _ & Hdeps).
    by apply elem_of_ids_before, Hdeps.
  - intros Hnd Hcl Hacyc item Hitem.
    pose proof (stuck_all_scheduled plan groups Hcl Hacyc Hstuck item Hitem)
      as Hsched.
    rewrite <- ids_before_all in Hsched.
    apply elem_of_ids_before in Hsched as (j & item' & _ & Hin & Hid).
    assert (item' = item) as ->; [|by exists j].
    eapply NoDup_node_ids_inj; [done| |done|done]. by apply (Hwg j item').
Qed.

Lemma grouping_sound_witness :
  NoDup (node_ids Samples.fan_in_plan)
  ∧ closed Samples.fan_in_plan
  ∧ acyclic Samples.fan_in_plan
  ∧ ∃ groups,
      group_by_dependencies Samples.fan_in_plan = Ok groups
      ∧ ∀ item, item ∈ Samples.fan_in_plan → ∃ i, in_group groups i item.
Proof.
  assert (H1 : NoDup (node_ids Samples.fan_in_plan)).
  { apply (bool_decide_unpack _). by vm_compute. }
  assert (H2 : closed Samples.fan_in_plan).
  { apply closed_Forall. apply (bool_decide_unpack _). by vm_compute. }
  assert (H3 : acyclic Samples.fan_in_plan).
  { apply (plan_acyclic_of_rank _ (λ x, if decide (x = "F") then 1 else 0)).
    apply (bool_decide_unpack _). by vm_compute. }
  split_and!; [done..|].
  destruct (grouping_sound Samples.fan_in_plan)
    as (groups & Hrun & _ & _ & _ & Hall).
  exists groups. split; [done|]. by apply Hall.
Defined.

(** Claim C5 as stated fails: on a plan with a dependency cycle the
    items on the cycle are assigned to no group. *)
Lemma grouping_leaves_nodes_out :
  group_by_dependencies Samples.cyclic_plan = Ok [[Samples.mk_item "c" []]]
  ∧ Samples.mk_item "a" ["b"] ∈ Samples.cyclic_plan
  ∧ ¬ ∃ i, in_group [[Samples.mk_item "c" []]] i (Samples.mk_item "a" ["b"]).
Proof.
  split_and!.
  - by vm_compute.
  - unfold Samples.cyclic_plan. set_solver.
  - intros (i & g & Hg & Hin). destruct i as [|i]; [|by destruct i].
    injection Hg as <-. apply list_elem_of_singleton in Hin. done.
Qed.

End FlowFacts.

(** ** Plan construction on cyclic graphs *)

Module CycleFacts.
Import Engine Graph Flow PyFacts WalkFacts FlowFacts.


Lemma two_cycle_has_cycle : has_cycle Samples.two_cycle.
Proof.
  exists "a". eapply tc_l; [|apply tc_once].
  - exists (Samples.mk_edge "a" "b"). split; [|done].
    unfold Samples.two_cycle; cbn. set_solver.
  - exists (Samples.mk_edge "b" "a"). split; [|done].
    unfold Samples.two_cycle; cbn. set_solver.
Qed.

Lemma cyclic_plan_has_cycle : ¬ Plan.acyclic Samples.cyclic_plan.
Proof.
  intros Hacyc. apply (Hacyc "a"). eapply tc_l; [|apply tc_once].
  - exists (Samples.mk_item "b" ["a"]). split_and!; [|done|set_solver].
    unfold Samples.cyclic_plan. set_solver.
  - exists (Samples.mk_item "a" ["b"]). split_and!; [|done|set_solver].
    unfold Samples.cyclic_plan. set_solver.
Qed.



End CycleFacts.

(** ** Input resolution *)

Module InputFacts.
Import Engine PyFacts.

(** What one edge can add to the input: only keys that the stored output
    of its source holds.  The subscript [source_output[sourceHandle]] is
    guarded by the membership test, so it never raises. *)
Lemma collect_edge_spec node node_outputs e input_data :
  ∃ input_data',
    collect_edge node node_outputs e input_data = Ok input_data'
    ∧ ∀ k v, input_data' !! k = Some v →
        input_data !! k = Some v
        ∨ (target e = n_id node
           ∧ ∃ output, node_outputs !! source e = Some output
             ∧ ((truthy_opt_str (sourceHandle e)
                 && truthy_opt_str (targetHandle e) = true
                 ∧ targetHandle e = Some k
                 ∧ ∃ sh, sourceHandle e = Some sh ∧ output !! sh = Some v)
                ∨ (truthy_opt_str (sourceHandle e)
                   && truthy_opt_str (targetHandle e) = false
                   ∧ output !! k = Some v))).
Proof.
  unfold collect_edge.
  destruct (decide (target e = n_id node)) as [Ht|Ht]; [|by eauto].
  assert (Hwhole : truthy_opt_str (sourceHandle e)
                   && truthy_opt_str (targetHandle e) = false →
    ∃ input_data',
      Ok (default ∅ (node_outputs !! source e) ∪ input_data) = Ok input_data'
      ∧ ∀ k v, input_data' !! k = Some v →
          input_data !! k = Some v
          ∨ (target e = n_id node
             ∧ ∃ output, node_outputs !! source e = Some output
               ∧ ((truthy_opt_str (sourceHandle e)
                   && truthy_opt_str (targetHandle e) = true
                   ∧ targetHandle e = Some k
                   ∧ ∃ sh, sourceHandle e = Some sh ∧ output !! sh = Some v)
                  ∨ (truthy_opt_str (sourceHandle e)
                     && truthy_opt_str (targetHandle e) = false
                     ∧ output !! k = Some v)))).
  { intros Hfalse. eexists. split; [done|]. intros k v Hk.
    apply lookup_union_Some_raw in Hk as [Hk|[_ Hk]]; [|by left].
    right. split; [done|].
    destruct (node_outputs !! source e) as [output|]; cbn in Hk;
      [|by rewrite lookup_empty in Hk].
    exists output. split; [done|]. right. by split. }
  destruct (sourceHandle e) as [sh|] eqn:Hsh; [|by apply Hwhole].
  destruct (targetHandle e) as [th|] eqn:Hth;
    [|apply Hwhole; cbn; by rewrite andb_false_r].
  destruct (truthy_opt_str (Some sh) && truthy_opt_str (Some th)) eqn:Hboth;
    [|by apply Hwhole].
  destruct (decide (sh ∈ dom (default ∅ (node_outputs !! source e))))
    as [Hin|Hin]; [|by eauto].
  apply elem_of_dom in Hin as [v Hv]. rewrite Hv.
  eexists. split; [done|]. intros k v' Hk.
  apply lookup_insert_Some in Hk as [[<- <-]|[_ Hk]]; [|by left].
  right. split; [done|].
  destruct (node_outputs !! source e) as [output|]; cbn in Hv;
    [|by rewrite lookup_empty in Hv].
  exists output. split; [done|]. left. split_and!; [done..|]. by exists sh.
Qed.


End InputFacts.

(** ** [stop_execution] *)

Module StopFacts.
Import Engine Frame.

Lemma same_but_status_refl e : same_but_status e e.
Proof. by repeat split. Qed.

Lemma same_but_status_set s e : same_but_status e (set_ex_status s e).
Proof. by repeat split. Qed.

Lemma same_but_status_trans e1 e2 e3 :
  same_but_status e1 e2 → same_but_status e2 e3 → same_but_status e1 e3.
Proof.
  unfold same_but_status. intros H12 H23.
  destruct_and!. split_and!; congruence.
Qed.

Lemma stop_execution_outbox execution_id st :
  outbox (stop_execution execution_id st) = outbox st.
Proof.
  unfold stop_execution.
  destruct (executions st !! execution_id) as [e|]; [|done].
  by destruct (decide (ex_status e = RUNNING)).
Qed.

(** Calls of [stop_execution] keep every execution up to its status and
    send nothing. *)
Lemma stop_execution_same execution_id st k e :
  executions st !! k = Some e →
  ∃ e', executions (stop_execution execution_id st) !! k = Some e'
        ∧ same_but_status e e'.
Proof.
  intros Hk. unfold stop_execution.
  destruct (executions st !! execution_id) as [e0|] eqn:He0;
    [|exists e; split; [done|apply same_but_status_refl]].
  destruct (decide (ex_status e0 = RUNNING));
    [|exists e; split; [done|apply same_but_status_refl]].
  cbn. destruct (decide (execution_id = k)) as [->|Hne].
  - rewrite lookup_insert_eq. rewrite Hk in He0. injection He0 as <-.
    eexists. split; [done|]. apply same_but_status_set.
  - rewrite lookup_insert_ne by done.
    exists e; split; [done|apply same_but_status_refl].
Qed.

Lemma stop_executions_same ids st k e :
  executions st !! k = Some e →
  ∃ e', executions (foldl (λ st id, stop_execution id st) st ids) !! k
        = Some e'
        ∧ same_but_status e e'.
Proof.
  revert st e. induction ids as [|id ids IH]; intros st e Hk; cbn.
  - exists e. split; [done|apply same_but_status_refl].
  - destruct (stop_execution_same id st k e Hk) as (e1 & H1 & Hs1).
    destruct (IH _ _ H1) as (e2 & H2 & Hs2).
    exists e2. split; [done|]. by eapply same_but_status_trans.
Qed.

Lemma stop_executions_outbox ids st :
  outbox (foldl (λ st id, stop_execution id st) st ids) = outbox st.
Proof.
  revert st. induction ids as [|id ids IH]; intros st; cbn; [done|].
  rewrite IH. apply stop_execution_outbox.
Qed.

(** Claim C10.  [stop_execution] sends nothing.  It changes the store
    only when the id names a stored execution whose status is [RUNNING]:
    then that execution gets status [CANCELLED] and keeps every other
    field, and every other execution is untouched.  For an unknown id or
    any other status the engine state is returned as it was. *)
Theorem stop_execution_frame (execution_id : string) (st : engine) :
  outbox (stop_execution execution_id st) = outbox st
  ∧ (∀ e, executions st !! execution_id = Some e →
          ex_status e = RUNNING →
          ∃ e', executions (stop_execution execution_id st) !! execution_id
                = Some e'
                ∧ ex_status e' = CANCELLED
                ∧ same_but_status e e')
  ∧ (∀ other, other ≠ execution_id →
          executions (stop_execution execution_id st) !! other
          = executions st !! other)
  ∧ (executions st !! execution_id = None → stop_execution execution_id st = st)
  ∧ (∀ e, executions st !! execution_id = Some e →
          ex_status e ≠ RUNNING →
          stop_execution execution_id st = st).
Proof.
  split_and!.
  - apply stop_execution_outbox.
  - intros e He Hrun. unfold stop_execution. rewrite He.
    rewrite decide_True by done. cbn. rewrite lookup_insert_eq.
    eexists. split_and!; [done..|]. apply same_but_status_set.
  - intros other Hne. unfold stop_execution.
    destruct (executions st !! execution_id) as [e|]; [|done].
    destruct (decide (ex_status e = RUNNING)); [|done].
    cbn. by rewrite lookup_insert_ne.
  - intros He. unfold stop_execution. by rewrite He.
  - intros e He Hnr. unfold stop_execution. rewrite He.
    by rewrite decide_False.
Qed.

Lemma stop_execution_frame_witness :
  ∃ e',
    executions (stop_execution "run-1"
                  (update_execution "run-1" (set_ex_status RUNNING)
                     (Samples.started Samples.pair_workflow))) !! "run-1"
    = Some e'
    ∧ ex_status e' = CANCELLED.
Proof.
  destruct (stop_execution_frame "run-1"
              (update_execution "run-1" (set_ex_status RUNNING)
                 (Samples.started Samples.pair_workflow)))
    as (_ & Hrun & _).
  destruct (Hrun (set_ex_status RUNNING
                    (new_execution Samples.clock "run-1"
                       Samples.pair_workflow None "manual" ∅)))
    as (e' & He' & Hst & _).
  - by vm_compute.
  - done.
  - by exists e'.
Defined.

End StopFacts.

(** ** The run loop *)

Module RunFacts.
Import Engine Frame StopFacts.

Section Run.

Variable execute_node : Node → gmap string value → executor_result.
Variable now : datetime.
Variable arrivals : string → list string.

Lemma update_execution_lookup execution_id f st :
  executions (update_execution execution_id f st) !! execution_id
  = f <$> executions st !! execution_id.
Proof. unfold update_execution; cbn. apply lookup_alter_eq. Qed.

Lemma notify_node_executions execution_id node_id st :
  executions (_notify_node_update execution_id node_id st) = executions st.
Proof.
  unfold _notify_node_update.
  destruct (executions st !! execution_id) as [e|]; [|done].
  by destruct (ex_node_executions e !! node_id).
Qed.

Lemma notify_node_outbox execution_id node_id st m :
  m ∈ outbox st → m ∈ outbox (_notify_node_update execution_id node_id st).
Proof.
  intros Hm. unfold _notify_node_update.
  destruct (executions st !! execution_id) as [e|]; [|done].
  destruct (ex_node_executions e !! node_id); [|done].
  cbn. set_solver.
Qed.

Lemma notify_execution_executions execution_id st :
  executions (_notify_execution_update execution_id st) = executions st.
Proof.
  unfold _notify_execution_update.
  by destruct (executions st !! execution_id).
Qed.

Lemma run_node_raises execution_id workflow node_id node_outputs st
    e i node ne input_data msg :
  executions st !! execution_id = Some e →
  list_find (λ n, n_id n = node_id) (nodes workflow) = Some (i, node) →
  ex_node_executions e !! node_id = Some ne →
  _collect_input_data node workflow node_outputs (ex_context e)
    = Ok input_data →
  execute_node node input_data = Raises msg →
  run_node execute_node now arrivals execution_id workflow node_id
    node_outputs st
  = (after_failure now arrivals execution_id workflow node node_id
       input_data msg st,
     if continueOnError workflow then inr node_outputs
     else inl (Exception msg)).
Proof.
  intros He Hfind Hne Hin Hexec.
  unfold run_node, after_failure, at_call.
  rewrite Hfind, He, Hne, Hin, Hexec.
  unfold node_failed. by destruct (continueOnError workflow).
Qed.

Lemma after_failure_spec execution_id workflow node node_id input_data msg
    st e ne :
  executions st !! execution_id = Some e →
  ex_node_executions e !! node_id = Some ne →
  ∃ e1 ne1 log,
    executions
      (after_failure now arrivals execution_id workflow node node_id
         input_data msg st)
      !! execution_id = Some e1
    ∧ ex_node_executions e1 !! node_id = Some ne1
    ∧ ne_status ne1 = NFAILED
    ∧ ne_error ne1 = Some msg
    ∧ ex_logs e1 = ex_logs e ++ [log]
    ∧ log_level log = "error"
    ∧ log_message log = "Node " +:+ n_label node +:+ " failed: " +:+ msg
    ∧ log_update execution_id log
      ∈ outbox
          (after_failure now arrivals execution_id workflow node node_id
             input_data msg st)
    ∧ ∀ other, other ≠ node_id →
        ex_node_executions e1 !! other = ex_node_executions e !! other.
Proof.
  intros He Hne.
  set (st_a := update_execution execution_id
                 (alter_node_execution node_id (ne_start input_data now)) st).
  assert (Ha : executions (_notify_node_update execution_id node_id st_a)
               !! execution_id
               = Some (alter_node_execution node_id
                         (ne_start input_data now) e)).
  { rewrite notify_node_executions. unfold st_a.
    by rewrite update_execution_lookup, He. }
  destruct (stop_executions_same (arrivals node_id) _ _ _ Ha)
    as (e_c & Hc & Hsame).
  fold st_a in Hc. change (foldl _ _ _) with
    (at_call now arrivals execution_id node_id input_data st) in Hc.
  unfold after_failure, node_failed.
  set (st_c := at_call now arrivals execution_id node_id input_data st)
    in *.
  set (log := {| log_timestamp := now; log_level := "error";
                 log_node_id := None;
                 log_message := "Node " +:+ n_label node +:+ " failed: "
                                +:+ str (Exception msg);
                 log_data := Some {["node_id" := VStr node_id]} |}).
  set (e1 := append_ex_log log
               (alter_node_execution node_id
                  (ne_fail (str (Exception msg)) now) e_c)).
  assert (H1 : ∀ b : bool,
    executions
      (if b then
         (_notify_node_update execution_id node_id
            (_add_log now execution_id "error" (log_message log)
               (Some {["node_id" := VStr node_id]})
               (update_execution execution_id
                  (alter_node_execution node_id
                     (ne_fail (str (Exception msg)) now)) st_c)), None)
       else
         (_notify_node_update execution_id node_id
            (_add_log now execution_id "error" (log_message log)
               (Some {["node_id" := VStr node_id]})
               (update_execution execution_id
                  (alter_node_execution node_id
                     (ne_fail (str (Exception msg)) now)) st_c)),
          Some (Exception msg))).1 !! execution_id = Some e1).
  { intros b. destruct b; cbn [fst];
      rewrite notify_node_executions; unfold _add_log; cbn [executions send];
      rewrite !update_execution_lookup, Hc; done. }
  destruct Hsame as (_ & _ & _ & _ & _ & _ & Hnodes & Hlogs & _ & _).
  exists e1, (ne_fail msg now (ne_start input_data now ne)), log.
  split_and!.
  - apply H1.
  - unfold e1; cbn. rewrite Hnodes; cbn.
    by rewrite !lookup_alter_eq, Hne.
  - done.
  - done.
  - unfold e1; cbn. by rewrite Hlogs.
  - done.
  - done.
  - destruct (continueOnError workflow); cbn [fst];
      apply notify_node_outbox; unfold _add_log, send; cbn; set_solver.
  - intros other Hother. unfold e1; cbn. rewrite Hnodes; cbn.
    by rewrite !lookup_alter_ne.
Qed.

Lemma run_failed_spec execution_id msg st e :
  executions st !! execution_id = Some e →
  ∃ e2,
    executions (run_failed now execution_id (Exception msg) st) !! execution_id
    = Some e2
    ∧ ex_status e2 = FAILED
    ∧ ex_error e2 = Some msg
    ∧ ex_node_executions e2 = ex_node_executions e.
Proof.
  intros He. unfold run_failed.
  rewrite notify_execution_executions. unfold _add_log; cbn [executions send].
  rewrite !update_execution_lookup, He. cbn.
  eexists. split; [done|]. by cbn.
Qed.

(** Claim C3.  When the executor raises on a node, the plan entry ends
    with the node [FAILED], the message of the exception on its record,
    one [error] log entry appended to the execution's log and sent, and
    no other node record changed.  Without [continueOnError] the loop
    stops there: the remaining entries are not run, so their records
    stay as they were (a [WAITING] node stays [WAITING]), and the
    execution ends [FAILED] with that message.  With [continueOnError]
    the loop goes on with the remaining entries. *)
Theorem node_failure_handled (execution_id : string) (workflow : Workflow)
    (node_id : string) (rest : list string)
    (node_outputs : gmap string (gmap string value)) (st : engine)
    (e : WorkflowExecution) (i : nat) (node : Node) (ne : NodeExecution)
    (input_data : gmap string value) (msg : string) :
  executions st !! execution_id = Some e →
  list_find (λ n, n_id n = node_id) (nodes workflow) = Some (i, node) →
  ex_node_executions e !! node_id = Some ne →
  _collect_input_data node workflow node_outputs (ex_context e)
    = Ok input_data →
  execute_node node input_data = Raises msg →
  ∃ st1 e1 ne1 log,
    executions st1 !! execution_id = Some e1
    ∧ ex_node_executions e1 !! node_id = Some ne1
    ∧ ne_status ne1 = NFAILED
    ∧ ne_error ne1 = Some msg
    ∧ ex_logs e1 = ex_logs e ++ [log]
    ∧ log_level log = "error"
    ∧ log_message log = "Node " +:+ n_label node +:+ " failed: " +:+ msg
    ∧ log_update execution_id log ∈ outbox st1
    ∧ (∀ other, other ≠ node_id →
         ex_node_executions e1 !! other = ex_node_executions e !! other)
    ∧ (continueOnError workflow = false →
         run_nodes execute_node now arrivals execution_id workflow
           (node_id :: rest) node_outputs st
         = (st1, Some (Exception msg))
         ∧ ∃ e2,
             executions (run_failed now execution_id (Exception msg) st1)
               !! execution_id = Some e2
             ∧ ex_status e2 = FAILED
             ∧ ex_error e2 = Some msg
             ∧ ex_node_executions e2 = ex_node_executions e1)
    ∧ (continueOnError workflow = true →
         run_nodes execute_node now arrivals execution_id workflow
           (node_id :: rest) node_outputs st
         = run_nodes execute_node now arrivals execution_id workflow
             rest node_outputs st1).
Proof.
  intros He Hfind Hne Hin Hexec.
  pose proof (run_node_raises execution_id workflow node_id node_outputs st
                e i node ne input_data msg He Hfind Hne Hin Hexec) as Hrun.
  destruct (after_failure_spec execution_id workflow node node_id input_data
              msg st e ne He Hne)
    as (e1 & ne1 & log & H1 & Hne1 & Hst & Herr & Hlogs & Hlvl & Hmsg
        & Hsent & Hother).
  exists (after_failure now arrivals execution_id workflow node node_id
            input_data msg st), e1, ne1, log.
  split_and!; [done..| |].
  - intros Hpol. split.
    + cbn [run_nodes]. by rewrite Hrun, Hpol.
    + by apply run_failed_spec.
  - intros Hpol. cbn [run_nodes]. by rewrite Hrun, Hpol.
Qed.

End Run.

Lemma node_failure_handled_witness :
  continueOnError Samples.pair_workflow = false
  ∧ ∃ st1 e1 ne1,
      run_nodes Samples.a_fails Samples.clock Samples.no_arrivals "run-1"
        Samples.pair_workflow ["a"; "b"] ∅
        (Samples.started Samples.pair_workflow)
      = (st1, Some (Exception "division by zero"))
      ∧ executions st1 !! "run-1" = Some e1
      ∧ ex_node_executions e1 !! "a" = Some ne1
      ∧ ne_status ne1 = NFAILED
      ∧ ne_error ne1 = Some "division by zero"
      ∧ ex_node_executions e1 !! "b"
        = ex_node_executions
            (new_execution Samples.clock "run-1" Samples.pair_workflow
               None "manual" ∅) !! "b".
Proof.
  split; [by vm_compute|].
  destruct (node_failure_handled Samples.a_fails Samples.clock
              Samples.no_arrivals "run-1" Samples.pair_workflow "a" ["b"] ∅
              (Samples.started Samples.pair_workflow)
              (new_execution Samples.clock "run-1" Samples.pair_workflow
                 None "manual" ∅)
              0 (Samples.mk_node "a")
              {| ne_node_id := "a"; ne_status := NWAITING;
                 ne_started_at := None; ne_completed_at := None;
                 ne_input_data := ∅; ne_output_data := None;
                 ne_error := None; ne_logs := [] |}
              {["_context" := VDict ∅]} "division by zero")
    as (st1 & e1 & ne1 & log & H1 & Hne1 & Hst & Herr & _ & _ & _ & _
        & Hother & Habort & _).
  - by vm_compute.
  - by vm_compute.
  - by vm_compute.
  - by vm_compute.
  - by vm_compute.
  - exists st1, e1, ne1. split_and!; [|done..|].
    + apply Habort. by vm_compute.
    + by apply Hother.
Defined.

(** Claim C2 on the code: cancelling does not stop the run.  In a run of
    two independent nodes, [stop_execution] is called while [a]
    executes.  When [a] returns the execution is [CANCELLED]; the loop
    nevertheless starts [b], which ends [SUCCESS], and the run ends by
    overwriting the status with [SUCCESS]. *)
Theorem cancel_does_not_stop_run :
  ∃ st1 node_outputs e1 st2 e2 nb,
    run_node Samples.all_succeed Samples.clock Samples.stop_during_a
      "run-1" Samples.pair_workflow "a" ∅
      (mark_running "run-1" (Samples.started Samples.pair_workflow))
    = (st1, inr node_outputs)
    ∧ executions st1 !! "run-1" = Some e1
    ∧ ex_status e1 = CANCELLED
    ∧ _run_workflow Samples.by_elements Samples.all_succeed Samples.clock
        Samples.stop_during_a "run-1" Samples.pair_workflow
        (Samples.started Samples.pair_workflow)
      = Ok st2
    ∧ executions st2 !! "run-1" = Some e2
    ∧ ex_status e2 = SUCCESS
    ∧ ex_node_executions e2 !! "b" = Some nb
    ∧ ne_status nb = NSUCCESS
    ∧ ne_started_at nb = Some Samples.clock.
Proof.
  do 6 eexists. split_and!.
  - by vm_compute.
  - by vm_compute.
  - done.
  - by vm_compute.
  - by vm_compute.
  - done.
  - by vm_compute.
  - done.
  - done.
Qed.

End RunFacts.

(** ** The schedule *)

Module SchedulerFacts.
Import Scheduler.

Lemma insert_task_sorted t l :
  Sorted (λ a b, (priority b ≤ priority a)%Z) l →
  Sorted (λ a b, (priority b ≤ priority a)%Z) (insert_task t l).
Proof.
  induction 1 as [|x l Hl IH Hx]; cbn.
  - by repeat constructor.
  - destruct (priority t <? priority x)%Z eqn:Hlt.
    + apply Z.ltb_lt in Hlt. constructor; [done|].
      destruct Hx as [|y l' Hy]; cbn in *.
      * constructor. lia.
      * destruct (priority t <? priority y)%Z eqn:Hlt'; constructor; lia.
    + apply Z.ltb_ge in Hlt. constructor; [by constructor|].
      constructor. lia.
Qed.

(** The last step of [optimize_schedule] leaves the schedule in
    descending priority order. *)
Lemma sort_by_priority_sorted l :
  Sorted (λ a b, (priority b ≤ priority a)%Z) (sort_by_priority l).
Proof.
  induction l as [|t l IH]; cbn; [constructor|].
  by apply insert_task_sorted.
Qed.

Lemma optimize_schedule_sorted self schedule :
  optimize_schedule self = Ok schedule →
  Sorted (λ a b, (priority b ≤ priority a)%Z) schedule.
Proof.
  unfold optimize_schedule.
  destruct (topological_sort (build_dependency_graph self)); cbn; [|done..].
  intros [= <-]. apply sort_by_priority_sorted.
Qed.

(** *** Fuel *)

(** More fuel than [pos] does not change [_siftdown_loop]. *)
Lemma _siftdown_loop_fuel fuel fuel' heap newitem startpos pos :
  pos ≤ fuel → pos ≤ fuel' →
  _siftdown_loop fuel heap newitem startpos pos
  = _siftdown_loop fuel' heap newitem startpos pos.
Proof.
  revert fuel' heap pos.
  induction fuel as [|fuel IH]; intros fuel' heap pos Hf Hf'.
  - assert (pos = 0) as -> by lia. destruct fuel' as [|fuel']; [done|].
    cbn [_siftdown_loop]. by rewrite decide_False by lia.
  - destruct fuel' as [|fuel'].
    + assert (pos = 0) as -> by lia. cbn [_siftdown_loop].
      by rewrite decide_False by lia.
    + cbn [_siftdown_loop].
      destruct (decide (startpos < pos)) as [Hlt|]; [|done].
      destruct (heap !! Nat.shiftr (pos - 1) 1) as [parent|]; [|done].
      destruct (lt newitem parent); [|done].
      assert (Nat.shiftr (pos - 1) 1 ≤ pos - 1).
      { rewrite Nat.shiftr_div_pow2.
        apply Nat.Div0.div_le_upper_bound. cbn. lia. }
      apply IH; lia.
Qed.

Lemma positive_entries_alter_le k in_degree :
  positive_entries (odict_alter (λ n, (n - 1)%Z) k in_degree)
  ≤ positive_entries in_degree.
Proof.
  unfold positive_entries, odict_alter.
  induction in_degree as [|[k' n] d IH]; [done|].
  rewrite fmap_cons, !filter_cons. cbn [fst snd].
  destruct (decide (k' = k)); cbn [fst snd];
    destruct (decide (0 < n)%Z); try destruct (decide (0 < n - 1)%Z);
    cbn [length]; lia.
Qed.

Lemma positive_entries_alter_lt k in_degree :
  odict_get k (odict_alter (λ n, (n - 1)%Z) k in_degree) = Some 0%Z →
  positive_entries (odict_alter (λ n, (n - 1)%Z) k in_degree)
  < positive_entries in_degree.
Proof.
  unfold positive_entries.
  induction in_degree as [|[k' n] d IH]; [done|].
  unfold odict_alter in *. rewrite fmap_cons, !filter_cons.
  cbn [fst snd odict_get].
  destruct (decide (k' = k)) as [->|Hne]; cbn [fst snd odict_get].
  - rewrite decide_True by done. intros [= Hn].
    pose proof (positive_entries_alter_le k d) as Hle.
    unfold positive_entries, odict_alter in Hle.
    rewrite (decide_False (P:=(0 < n - 1)%Z)) by lia.
    rewrite (decide_True (P:=(0 < n)%Z)) by lia.
    cbn [length]. lia.
  - rewrite decide_False by done. intros Hget.
    specialize (IH Hget).
    destruct (decide (0 < n)%Z); cbn [length]; lia.
Qed.

Lemma relax_measure node in_degree queue entry :
  length (relax node (in_degree, queue) entry).2
  + positive_entries (relax node (in_degree, queue) entry).1
  ≤ length queue + positive_entries in_degree.
Proof.
  unfold relax. destruct entry as [next_node deps].
  destruct (decide (node ∈ deps)); [|done].
  destruct (decide (odict_get next_node
                      (odict_alter (λ n, (n - 1)%Z) next_node in_degree)
                    = Some 0%Z)) as [Hz|Hz]; cbn [fst snd].
  - rewrite length_app. cbn.
    pose proof (positive_entries_alter_lt next_node in_degree Hz). lia.
  - pose proof (positive_entries_alter_le next_node in_degree). lia.
Qed.

Lemma relax_all_measure node graph st :
  length (foldl (relax node) st graph).2
  + positive_entries (foldl (relax node) st graph).1
  ≤ length st.2 + positive_entries st.1.
Proof.
  revert st. induction graph as [|entry graph IH]; intros st; cbn; [done|].
  etrans; [apply IH|]. destruct st as [d q]. apply relax_measure.
Qed.

(** The loop of [topological_sort] ends: whatever enters the queue has
    left the positive entries of [in_degree]. *)
Lemma topological_loop_total fuel graph in_degree queue result :
  length queue + positive_entries in_degree < fuel →
  ∃ order, topological_loop fuel graph in_degree queue result = Ok order.
Proof.
  revert in_degree queue result.
  induction fuel as [|fuel IH]; intros in_degree queue result Hm; [lia|].
  cbn. destruct queue as [|node queue]; [by eexists|].
  pose proof (relax_all_measure node graph (in_degree, queue)) as Hle.
  destruct (foldl (relax node) (in_degree, queue) graph) as [d' q'].
  cbn [fst snd length] in Hle, Hm. apply IH. lia.
Qed.

Lemma zero_and_positive_le (d : list (string * Z)) :
  length (filter (λ kv, kv.2 = 0%Z) d).*1 + positive_entries d ≤ length d.
Proof.
  unfold positive_entries. rewrite length_fmap.
  induction d as [|[k n] d IH]; [done|].
  rewrite !filter_cons. cbn [snd].
  destruct (decide (n = 0%Z)); destruct (decide (0 < n)%Z);
    cbn [length]; lia.
Qed.

Lemma raise_degrees_length (deps : list string) (d : list (string * Z)) :
  length (foldl (λ in_degree dep,
                   if decide (is_Some (odict_get dep in_degree))
                   then odict_alter (λ n, (n + 1)%Z) dep in_degree
                   else in_degree) d deps) = length d.
Proof.
  revert d. induction deps as [|dep deps IH]; intros d; cbn; [done|].
  rewrite IH. case_decide; [|done]. unfold odict_alter. by rewrite length_fmap.
Qed.

(** [topological_sort] returns on every graph. *)
Lemma topological_sort_total graph :
  ∃ order, topological_sort graph = Ok order.
Proof.
  unfold topological_sort. apply topological_loop_total.
  match goal with
  | |- length (filter _ ?d).*1 + _ < _ =>
      pose proof (zero_and_positive_le d) as Hle;
      assert (Hlen : length d = length graph)
  end.
  { clear Hle.
    assert (Hgen : ∀ (g : list (string * list string)) d,
      length (foldl (λ in_degree kv,
                 foldl (λ in_degree dep,
                          if decide (is_Some (odict_get dep in_degree))
                          then odict_alter (λ n, (n + 1)%Z) dep in_degree
                          else in_degree) in_degree kv.2) d g) = length d).
    { induction g as [|kv g IH]; intros d; cbn; [done|].
      rewrite IH. apply raise_degrees_length. }
    rewrite Hgen. by rewrite length_fmap. }
  lia.
Qed.

(** So does [optimize_schedule]. *)
Lemma optimize_schedule_total self :
  ∃ schedule, optimize_schedule self = Ok schedule.
Proof.
  unfold optimize_schedule.
  destruct (topological_sort_total (build_dependency_graph self))
    as [order ->].
  by eexists.
Qed.

(** Claim C8 on the code: ties are not kept in insertion order.  Tasks
    [A] and [B] of priority 50 and then [C] of priority 60 are pushed
    onto an empty queue.  Pushing [C] swaps it with [A] at the root of
    the heap, which leaves [B] in front of [A]; the schedule lists
    [C], [B], [A]. *)
Theorem equal_priorities_out_of_insertion_order :
  ∃ self schedule,
    execute "task_0" Samples.idle_scheduler
      [Samples.mk_task_data "A" 50; Samples.mk_task_data "B" 50;
       Samples.mk_task_data "C" 60]
    = Ok (self, schedule)
    ∧ id <$> task_queue self = ["C"; "B"; "A"]
    ∧ id <$> schedule = ["C"; "B"; "A"]
    ∧ priority <$> schedule = [60; 50; 50]%Z.
Proof.
  do 2 eexists. split_and!.
  - by vm_compute.
  - done.
  - done.
  - done.
Qed.

End SchedulerFacts.

(** ** The isolated runner *)

Module ExecutorFacts.
Import Executor.

Section Parse.

Variable decode : string → option string.
Variable decode_replace : string → string.
Variable json_loads : string → option value.
Variable str_exn : parse_exn → string.

(** Without the marker the result is an error that carries both
    streams. *)
Lemma parse_without_marker stdout stderr output err :
  decode stdout = Some output →
  contains marker output = false →
  decode stderr = Some err →
  parse_isolated_result decode decode_replace json_loads str_exn stdout stderr
  = <["stderr" := VStr err]>
    (<["stdout" := VStr output]>
     (<["error" := VStr "No execution result found"]>
      {["status" := VStr "error"]})).
Proof.
  intros Hout Hno Herr. unfold parse_isolated_result, parse_body.
  by rewrite Hout, Hno, Herr.
Qed.

(** Claim C7 on the code: program output can corrupt the parse.  The
    child printed the marker and the word [noise] before the runner
    printed its own marker and result.  The parser reads [noise] as the
    result, fails, and returns an error; whatever follows the second
    marker is never looked at. *)
Theorem marker_in_output_corrupts_parse (tail stderr : string) :
  decode (Samples.forged_stdout tail) = Some (Samples.forged_stdout tail) →
  json_loads "noise" = None →
  parse_isolated_result decode decode_replace json_loads str_exn
    (Samples.forged_stdout tail) stderr
  = <["stderr" := VStr (decode_replace stderr)]>
    (<["stdout" := VStr (decode_replace (Samples.forged_stdout tail))]>
     (<["error" := VStr ("Failed to parse result: "
                          +:+ str_exn JSONDecodeError)]>
      {["status" := VStr "error"]})).
Proof.
  intros Hdec Hjson. unfold parse_isolated_result, parse_body.
  rewrite Hdec.
  assert (Hc : contains marker (Samples.forged_stdout tail) = true)
    by reflexivity.
  rewrite Hc.
  assert (Hp : split marker (Samples.forged_stdout tail) !! 1
               = Some (Samples.newline +:+ "noise" +:+ Samples.newline))
    by reflexivity.
  rewrite Hp.
  assert (Hs : strip (Samples.newline +:+ "noise" +:+ Samples.newline)
               = "noise") by reflexivity.
  rewrite Hs, Hjson. done.
Qed.

End Parse.

Lemma marker_in_output_corrupts_parse_witness :
  Samples.ascii_decode
    (Samples.forged_stdout (Samples.newline +:+ "{}" +:+ Samples.newline))
  = Some (Samples.forged_stdout
            (Samples.newline +:+ "{}" +:+ Samples.newline))
  ∧ Samples.toy_json_loads "noise" = None
  ∧ parse_isolated_result Samples.ascii_decode (λ b, b)
      Samples.toy_json_loads Samples.toy_str_exn
      (Samples.forged_stdout (Samples.newline +:+ "{}" +:+ Samples.newline))
      EmptyString
    !! "status" = Some (VStr "error").
Proof.
  split_and!; [done..|].
  rewrite (marker_in_output_corrupts_parse Samples.ascii_decode (λ b, b)
             Samples.toy_json_loads Samples.toy_str_exn
             (Samples.newline +:+ "{}" +:+ Samples.newline) EmptyString);
    [|done|done].
  by vm_compute.
Defined.

Section Sandbox.

Variable communicate : nat → Z → option (string * string).
Variable exits_on_sigterm : nat → bool.
Variable decode : string → option string.
Variable decode_replace : string → string.
Variable json_loads : string → option value.
Variable str_exn : parse_exn → string.

Lemma send_signal_running sig pid self p :
  processes self !! pid = Some p →
  exited p = false →
  send_signal sig pid self
  = Some (alter_process pid
            (λ p, {| signals := signals p ++ [sig]; exited := exited p |})
            self).
Proof. intros Hp Hex. unfold send_signal. by rewrite Hp, Hex. Qed.

(** Claim C6, as the code has it.  When the child does not end within
    the time limit, [execute_isolated] sends it [SIGKILL] and nothing
    else, waits for it to exit, drops it from the table of running
    processes and returns status [timeout] with an empty output.  The
    graceful path is [stop_execution]'s: a registered running child gets
    [SIGTERM], and [SIGKILL] after it only if it has not exited within
    the grace period; it has exited and is unregistered when the call
    returns [True]. *)
Theorem timeout_kills_stop_terminates (execution_id : string) (pid : nat)
    (limits : gmap string Z) (self : PythonExecutor) (p : process) :
  processes self !! pid = Some p →
  exited p = false →
  (communicate pid (timeout_of limits) = None →
   ∃ self' result,
     execute_isolated communicate decode decode_replace json_loads str_exn
       execution_id pid limits self
     = (self', Ok result)
     ∧ result !! "status" = Some (VStr "timeout")
     ∧ result !! "output" = Some (VDict ∅)
     ∧ processes self' !! pid
       = Some {| signals := signals p ++ [SIGKILL]; exited := true |}
     ∧ running_processes self' !! execution_id = None)
  ∧ (running_processes self !! execution_id = Some pid →
     ∃ self',
       stop_execution exits_on_sigterm execution_id self = (self', true)
       ∧ processes self' !! pid
         = Some {| signals :=
                     signals p ++ (if exits_on_sigterm pid then [SIGTERM]
                                   else [SIGTERM; SIGKILL]);
                   exited := true |}
       ∧ running_processes self' !! execution_id = None).
Proof.
  intros Hp Hex. split.
  - intros Hto. unfold execute_isolated. rewrite Hto.
    erewrite send_signal_running; [|exact Hp|exact Hex].
    eexists _, _. split; [done|]. split_and!.
    + done.
    + done.
    + cbn. by rewrite !lookup_alter_eq, Hp.
    + cbn. by rewrite lookup_delete_eq.
  - intros Hreg. unfold stop_execution. rewrite Hreg.
    erewrite send_signal_running; [|exact Hp|exact Hex].
    destruct (exits_on_sigterm pid).
    + eexists. split; [done|]. split.
      * cbn. by rewrite !lookup_alter_eq, Hp.
      * cbn. by rewrite lookup_delete_eq.
    + erewrite send_signal_running;
        [|cbn; by rewrite lookup_alter_eq, Hp|done].
      eexists. split; [done|]. split.
      * cbn. rewrite !lookup_alter_eq, Hp. cbn.
        by rewrite <- app_assoc.
      * cbn. by rewrite lookup_delete_eq.
Qed.

End Sandbox.

Lemma timeout_kills_stop_terminates_witness :
  (∃ self' result,
     execute_isolated Samples.never_ends Samples.ascii_decode (λ b, b)
       Samples.toy_json_loads Samples.toy_str_exn
       "exec_1" 7 ∅ Samples.one_child
     = (self', Ok result)
     ∧ result !! "status" = Some (VStr "timeout")
     ∧ processes self' !! 7
       = Some {| signals := [SIGKILL]; exited := true |})
  ∧ (∃ self',
       stop_execution Samples.ignores_sigterm "exec_1"
         Samples.one_registered_child
       = (self', true)
       ∧ processes self' !! 7
         = Some {| signals := [SIGTERM; SIGKILL]; exited := true |}).
Proof.
  split.
  - destruct (timeout_kills_stop_terminates Samples.never_ends
                Samples.ignores_sigterm Samples.ascii_decode (λ b, b)
                Samples.toy_json_loads Samples.toy_str_exn
                "exec_1" 7 ∅ Samples.one_child
                {| signals := []; exited := false |})
      as [Htimeout _]; [by vm_compute|done|].
    destruct Htimeout as (self' & result & Hrun & Hst & _ & Hproc & _);
      [done|].
    by exists self', result.
  - destruct (timeout_kills_stop_terminates Samples.never_ends
                Samples.ignores_sigterm Samples.ascii_decode (λ b, b)
                Samples.toy_json_loads Samples.toy_str_exn
                "exec_1" 7 ∅ Samples.one_registered_child
                {| signals := []; exited := false |})
      as [_ Hstop]; [by vm_compute|done|].
    destruct Hstop as (self' & Hrun & Hproc & _); [by vm_compute|].
    by exists self'.
Defined.

(** Claim C6 as stated fails: a child that runs past the time limit is
    sent [SIGKILL] at once; no graceful signal reaches it. *)
Lemma timeout_sends_no_graceful_signal :
  ∃ self' result p,
    execute_isolated Samples.never_ends Samples.ascii_decode (λ b, b)
      Samples.toy_json_loads Samples.toy_str_exn
      "exec_1" 7 ∅ Samples.one_child
    = (self', Ok result)
    ∧ result !! "status" = Some (VStr "timeout")
    ∧ processes self' !! 7 = Some p
    ∧ signals p = [SIGKILL]
    ∧ SIGTERM ∉ signals p.
Proof.
  do 3 eexists. split_and!.
  - by vm_compute.
  - by vm_compute.
  - by vm_compute.
  - done.
  - cbn. intros Hin. apply list_elem_of_singleton in Hin. done.
Qed.

End ExecutorFacts.

(** ** Starting, subscribing, shutting down *)

Module LifecycleFacts.
Import Engine Frame Lifecycle StopFacts.

(** A subscribed client is a recipient for that workflow; the
    subscription touches no other client and no other workflow. *)
Theorem subscribe_client_recipients (client_id workflow_id : string)
    (subscriptions : gmap string (gset string))
    (execution : WorkflowExecution) (other : string) :
  (ex_workflow_id execution = workflow_id →
   client_id ∈ recipients (subscribe_client client_id workflow_id
                             subscriptions) execution)
  ∧ (other ≠ client_id →
     other ∈ recipients (subscribe_client client_id workflow_id
                           subscriptions) execution
     ↔ other ∈ recipients subscriptions execution)
  ∧ (ex_workflow_id execution ≠ workflow_id →
     recipients (subscribe_client client_id workflow_id subscriptions)
       execution
     = recipients subscriptions execution).
Proof.
  unfold recipients, subscribe_client. split_and!.
  - intros ->. destruct (decide (workflow_id ∈ dom subscriptions)) as [Hin|Hin].
    + apply elem_of_dom in Hin as [clients Hc].
      rewrite lookup_alter_eq, Hc. cbn. set_solver.
    + rewrite lookup_alter_eq, lookup_insert_eq. cbn. set_solver.
  - intros Hne.
    destruct (decide (ex_workflow_id execution = workflow_id)) as [->|Hwf].
    + destruct (decide (workflow_id ∈ dom subscriptions)) as [Hin|Hin].
      * apply elem_of_dom in Hin as [clients Hc].
        rewrite lookup_alter_eq, Hc. cbn. set_solver.
      * rewrite lookup_alter_eq, lookup_insert_eq. cbn.
        apply not_elem_of_dom in Hin. rewrite Hin. cbn. set_solver.
    + destruct (decide (workflow_id ∈ dom subscriptions)).
      * by rewrite lookup_alter_ne.
      * by rewrite lookup_alter_ne, lookup_insert_ne.
  - intros Hwf. destruct (decide (workflow_id ∈ dom subscriptions)).
    + by rewrite lookup_alter_ne.
    + by rewrite lookup_alter_ne, lookup_insert_ne.
Qed.

Lemma subscribe_client_recipients_witness :
  "c1" ∈ recipients (subscribe_client "c1" "wf" ∅)
           (create_execution 0 "run-1" "wf" Samples.pair_workflow None
              "manual" ∅).
Proof.
  by apply (subscribe_client_recipients "c1" "wf" ∅ _ "c2").
Defined.

(** After [unsubscribe_all] the client receives nothing, whatever the
    workflow; every other client receives what it received before. *)
Theorem unsubscribe_all_recipients (client_id : string)
    (subscriptions : gmap string (gset string))
    (execution : WorkflowExecution) (other : string) :
  (client_id ∉ recipients (unsubscribe_all client_id subscriptions) execution)
  ∧ (other ≠ client_id →
     other ∈ recipients (unsubscribe_all client_id subscriptions) execution
     ↔ other ∈ recipients subscriptions execution).
Proof.
  unfold recipients, unsubscribe_all. rewrite lookup_fmap.
  destruct (subscriptions !! ex_workflow_id execution) as [clients|]; cbn;
    set_solver.
Qed.

Lemma unsubscribe_all_recipients_witness :
  "c2" ∈ recipients
           (unsubscribe_all "c1"
              (subscribe_client "c2" "wf" (subscribe_client "c1" "wf" ∅)))
           (create_execution 0 "run-1" "wf" Samples.pair_workflow None
              "manual" ∅).
Proof.
  apply (unsubscribe_all_recipients "c1" _ _ "c2"); [done|].
  apply (bool_decide_unpack _). by vm_compute.
Defined.

(** Unsubscribing from one workflow undoes a subscription to it and
    leaves the other clients of that workflow in place. *)
Theorem unsubscribe_client_recipients (client_id workflow_id : string)
    (subscriptions : gmap string (gset string))
    (execution : WorkflowExecution) (other : string) :
  (ex_workflow_id execution = workflow_id →
   client_id ∉ recipients (unsubscribe_client client_id workflow_id
                             subscriptions) execution)
  ∧ (other ≠ client_id →
     other ∈ recipients (unsubscribe_client client_id workflow_id
                           subscriptions) execution
     ↔ other ∈ recipients subscriptions execution).
Proof.
  unfold recipients, unsubscribe_client. split.
  - intros ->. destruct (decide (workflow_id ∈ dom subscriptions)) as [Hin|Hin].
    + apply elem_of_dom in Hin as [clients Hc].
      rewrite lookup_alter_eq, Hc. cbn. set_solver.
    + apply not_elem_of_dom in Hin. rewrite Hin. cbn. set_solver.
  - intros Hne. destruct (decide (workflow_id ∈ dom subscriptions)) as [Hin|Hin];
      [|done].
    destruct (decide (ex_workflow_id execution = workflow_id)) as [->|Hwf].
    + apply elem_of_dom in Hin as [clients Hc].
      rewrite lookup_alter_eq, Hc. cbn. set_solver.
    + by rewrite lookup_alter_ne.
Qed.

Lemma unsubscribe_client_recipients_witness :
  "c2" ∈ recipients
           (unsubscribe_client "c1" "wf"
              (subscribe_client "c2" "wf" (subscribe_client "c1" "wf" ∅)))
           (create_execution 0 "run-1" "wf" Samples.pair_workflow None
              "manual" ∅).
Proof.
  apply (unsubscribe_client_recipients "c1" "wf" _ _ "c2"); [done|].
  apply (bool_decide_unpack _). by vm_compute.
Defined.

Lemma waiting_records_from (ns : list Node) (m0 : gmap string NodeExecution) :
  let m := foldl (λ m n, <[n_id n :=
                {| ne_node_id := n_id n; ne_status := NWAITING;
                   ne_started_at := None; ne_completed_at := None;
                   ne_input_data := ∅; ne_output_data := None;
                   ne_error := None; ne_logs := [] |}]> m) m0 ns in
  ∀ k, (k ∈ (n_id <$> ns) →
        m !! k = Some {| ne_node_id := k; ne_status := NWAITING;
                         ne_started_at := None; ne_completed_at := None;
                         ne_input_data := ∅; ne_output_data := None;
                         ne_error := None; ne_logs := [] |})
       ∧ (k ∉ (n_id <$> ns) → m !! k = m0 !! k).
Proof.
  revert m0. induction ns as [|n ns IH]; intros m0 m k; subst m; cbn.
  - split; [|done]. intros Hk. by apply elem_of_nil in Hk.
  - destruct (IH (<[n_id n := {| ne_node_id := n_id n; ne_status := NWAITING;
                                 ne_started_at := None; ne_completed_at := None;
                                 ne_input_data := ∅; ne_output_data := None;
                                 ne_error := None; ne_logs := [] |}]> m0) k)
      as [Hin Hout].
    split.
    + intros Hk. destruct (decide (k ∈ (n_id <$> ns))) as [Hk'|Hk'];
        [by apply Hin|].
      apply elem_of_cons in Hk as [->|Hk]; [|done].
      by rewrite Hout, lookup_insert_eq.
    + intros Hk. apply not_elem_of_cons in Hk as [Hne Hk].
      by rewrite Hout, lookup_insert_ne.
Qed.

(** [execute_workflow] on an unknown workflow raises and stores nothing;
    on a known one it stores, under the new id, a [PENDING] execution
    that has a [WAITING] record for every node of the workflow and for
    nothing else, announces it, and leaves the other executions alone. *)
Theorem execute_workflow_spec (workflows : gmap string Workflow)
    (now : datetime) (execution_id workflow_id : string)
    (client_id : option string) (mode : string)
    (context : option (gmap string value)) (st : engine) :
  (workflows !! workflow_id = None →
   execute_workflow workflows now execution_id workflow_id client_id mode
     context st
   = Raise (Exception ("Workflow " +:+ workflow_id +:+ " not found")))
  ∧ (∀ workflow, workflows !! workflow_id = Some workflow →
     ∃ st' e,
       execute_workflow workflows now execution_id workflow_id client_id
         mode context st = Ok st'
       ∧ executions st' !! execution_id = Some e
       ∧ ex_status e = PENDING
       ∧ ex_workflow_id e = workflow_id
       ∧ ex_context e = default ∅ context
       ∧ (∀ k, k ∈ (n_id <$> nodes workflow) →
            ∃ ne, ex_node_executions e !! k = Some ne
                  ∧ ne_status ne = NWAITING
                  ∧ ne_output_data ne = None ∧ ne_error ne = None)
       ∧ (∀ k, k ∉ (n_id <$> nodes workflow) →
            ex_node_executions e !! k = None)
       ∧ (∀ other, other ≠ execution_id →
            executions st' !! other = executions st !! other)
       ∧ outbox st' = outbox st ++ [execution_update e]).
Proof.
  unfold execute_workflow. split.
  - by intros ->.
  - intros workflow ->.
    set (e := create_execution now execution_id workflow_id workflow
                client_id mode (default ∅ context)).
    unfold _notify_execution_update. cbn [executions].
    rewrite lookup_insert_eq.
    eexists _, e. split; [done|]. cbn [executions outbox send].
    rewrite lookup_insert_eq. split_and!; try done.
    + intros k Hk.
      destruct (waiting_records_from (nodes workflow) ∅ k) as [Hin _].
      eexists. split; [by apply Hin|done].
    + intros k Hk. unfold e; cbn.
      pose proof (waiting_records_from (nodes workflow) ∅ k) as [_ Hout].
      by rewrite Hout.
    + intros other Hne. by rewrite lookup_insert_ne.
Qed.

Lemma execute_workflow_spec_witness :
  ∃ st' e,
    execute_workflow {["pair" := Samples.pair_workflow]} 0 "run-1" "pair"
      None "manual" None {| executions := ∅; outbox := [] |} = Ok st'
    ∧ executions st' !! "run-1" = Some e
    ∧ ex_status e = PENDING.
Proof.
  destruct (execute_workflow_spec {["pair" := Samples.pair_workflow]} 0
              "run-1" "pair" None "manual" None
              {| executions := ∅; outbox := [] |}) as [_ Hknown].
  destruct (Hknown Samples.pair_workflow) as (st' & e & Hrun & He & Hst & _);
    [done|].
  by exists st', e.
Defined.

Lemma shutdown_step_lookup key st :
  well_keyed (executions st) →
  outbox (shutdown_step key st) = outbox st
  ∧ ∀ j, executions (shutdown_step key st) !! j
         = (λ e, if decide (j = key ∧ ex_status e = RUNNING)
                 then set_ex_status CANCELLED e else e)
           <$> executions st !! j.
Proof.
  intros Hwk. unfold shutdown_step.
  destruct (executions st !! key) as [e|] eqn:He.
  - destruct (decide (ex_status e = RUNNING)) as [Hrun|Hrun].
    + rewrite (Hwk key e He). unfold stop_execution.
      rewrite He, decide_True by done. cbn. split; [done|]. intros j.
      destruct (decide (key = j)) as [<-|Hne].
      * rewrite lookup_insert_eq, He. cbn. by rewrite decide_True.
      * rewrite lookup_insert_ne by done.
        destruct (executions st !! j); cbn; [|done].
        rewrite decide_False; [done|]. intros [? _]. done.
    + split; [done|]. intros j.
      destruct (executions st !! j) as [e'|] eqn:He'; cbn; [|done].
      rewrite decide_False; [done|]. intros [-> ?]. congruence.
  - split; [done|]. intros j.
    destruct (executions st !! j) as [e'|] eqn:He'; cbn; [|done].
    rewrite decide_False; [done|]. intros [-> ?]. congruence.
Qed.

Lemma shutdown_step_well_keyed key st :
  well_keyed (executions st) → well_keyed (executions (shutdown_step key st)).
Proof.
  intros Hwk k e'. destruct (shutdown_step_lookup key st Hwk) as [_ Hl].
  rewrite Hl. destruct (executions st !! k) as [e|] eqn:He; cbn; [|done].
  intros [= <-]. destruct (decide _); cbn; by apply Hwk.
Qed.

Lemma shutdown_lookup keys st :
  well_keyed (executions st) →
  outbox (shutdown keys st) = outbox st
  ∧ ∀ j, executions (shutdown keys st) !! j
         = (λ e, if decide (j ∈ keys ∧ ex_status e = RUNNING)
                 then set_ex_status CANCELLED e else e)
           <$> executions st !! j.
Proof.
  revert st. induction keys as [|key keys IH]; intros st Hwk.
  - split; [done|]. intros j. cbn.
    destruct (executions st !! j); cbn; [|done].
    rewrite decide_False; [done|]. intros [Hj _]. by apply elem_of_nil in Hj.
  - change (shutdown (key :: keys) st)
      with (shutdown keys (shutdown_step key st)).
    destruct (shutdown_step_lookup key st Hwk) as [Hout Hl].
    destruct (IH (shutdown_step key st) (shutdown_step_well_keyed key st Hwk))
      as [Hout' Hl'].
    split; [by rewrite Hout', Hout|]. intros j. rewrite Hl', Hl.
    destruct (executions st !! j) as [e|]; cbn; [|done]. f_equal.
    destruct (decide (j = key ∧ ex_status e = RUNNING)) as [[-> Hrun]|Hn].
    + rewrite decide_False by (cbn; intros [_ ?]; done).
      rewrite decide_True; [done|]. split; [set_solver|done].
    + destruct (decide (j ∈ keys ∧ ex_status e = RUNNING)) as [[Hj Hrun]|Hn'].
      * rewrite decide_True; [done|]. split; [set_solver|done].
      * rewrite decide_False; [done|]. intros [Hj Hrun].
        apply elem_of_cons in Hj as [->|Hj]; [by apply Hn|by apply Hn'].
Qed.

(** After [shutdown] has gone through all the keys of a store in which
    every execution sits under its own id, no stored execution is
    [RUNNING]: the ones that were are [CANCELLED] and keep every other
    field, all others are as they were, nothing is sent, and
    [get_status] reports no active execution. *)
Theorem shutdown_spec (keys : list string) (st : engine) :
  well_keyed (executions st) →
  (∀ k, k ∈ dom (executions st) → k ∈ keys) →
  outbox (shutdown keys st) = outbox st
  ∧ (∀ k e, executions st !! k = Some e →
       ∃ e', executions (shutdown keys st) !! k = Some e'
             ∧ same_but_status e e'
             ∧ (ex_status e = RUNNING → ex_status e' = CANCELLED)
             ∧ (ex_status e ≠ RUNNING → e' = e))
  ∧ (∀ k, executions st !! k = None →
          executions (shutdown keys st) !! k = None)
  ∧ active_executions (shutdown keys st) = 0
  ∧ total_executions (shutdown keys st) = total_executions st.
Proof.
  intros Hwk Hkeys. destruct (shutdown_lookup keys st Hwk) as [Hout Hl].
  split_and!.
  - done.
  - intros k e He. rewrite Hl, He. cbn. eexists. split; [done|].
    destruct (decide (k ∈ keys ∧ ex_status e = RUNNING)) as [[_ Hrun]|Hn].
    + split_and!; [apply same_but_status_set|done|done].
    + split_and!; [apply same_but_status_refl| |done].
      intros Hrun. exfalso. apply Hn. split; [|done].
      apply Hkeys. by apply elem_of_dom.
  - intros k Hk. by rewrite Hl, Hk.
  - unfold active_executions. apply map_size_empty_iff.
    apply map_empty. intros k. apply map_lookup_filter_None. right.
    intros e' He'. cbn.
    rewrite Hl in He'. destruct (executions st !! k) as [e|] eqn:He; [|done].
    cbn in He'. injection He' as <-.
    destruct (decide (k ∈ keys ∧ ex_status e = RUNNING)) as [[_ Hrun]|Hn];
      [done|].
    intros Hrun. apply Hn. split; [|done]. apply Hkeys. by apply elem_of_dom.
  - unfold total_executions.
    assert (Heq : executions (shutdown keys st)
                  = map_imap (λ j e, Some (if decide (j ∈ keys
                                                     ∧ ex_status e = RUNNING)
                                           then set_ex_status CANCELLED e
                                           else e)) (executions st)).
    { apply map_eq. intros j. rewrite Hl, map_lookup_imap.
      by destruct (executions st !! j). }
    rewrite Heq. rewrite <- !size_dom.
    f_equal. apply set_eq. intros j. rewrite !elem_of_dom, map_lookup_imap.
    destruct (executions st !! j); cbn; [|done]. split; by eauto.
Qed.

Lemma started_running_lookup :
  executions (mark_running "run-1" (Samples.started Samples.pair_workflow))
  = {["run-1" := set_ex_status RUNNING
        (new_execution Samples.clock "run-1" Samples.pair_workflow None
           "manual" ∅)]}.
Proof.
  apply map_eq. intros k.
  unfold mark_running. rewrite RunFacts.notify_execution_executions.
  unfold update_execution, Samples.started. cbn [executions].
  destruct (decide (k = "run-1")) as [->|Hk].
  - by rewrite lookup_alter_eq, !lookup_singleton_eq.
  - by rewrite lookup_alter_ne, !lookup_singleton_ne.
Qed.

Lemma shutdown_spec_witness :
  active_executions
    (shutdown ["run-1"]
       (mark_running "run-1" (Samples.started Samples.pair_workflow))) = 0.
Proof.
  refine (proj1 (proj2 (proj2 (proj2
    (shutdown_spec ["run-1"]
       (mark_running "run-1" (Samples.started Samples.pair_workflow))
       _ _))))).
  - intros k e. rewrite started_running_lookup.
    intros [-> <-]%lookup_singleton_Some. done.
  - intros k. rewrite started_running_lookup, dom_singleton_L.
    intros ->%elem_of_singleton. apply list_elem_of_here.
Defined.

End LifecycleFacts.

(** ** The walk on arbitrary graphs *)

Module WalkErrors.
Import Engine Graph PyFacts WalkFacts.

(** Loop rule for bodies that may raise: the invariant holds at a normal
    exit, and a raised exception is one the body raised. *)
Lemma for_in_ok_or_raise {A S} (I : S → Prop) (E : exn → Prop)
    (body : A → S → outcome S) (l : list A) (s : S) :
  I s →
  (∀ x s0, x ∈ l → I s0 →
     (∃ s1, body x s0 = Ok s1 ∧ I s1) ∨ (∃ e, body x s0 = Raise e ∧ E e)) →
  (∃ s', for_in l body s = Ok s' ∧ I s')
  ∨ (∃ e, for_in l body s = Raise e ∧ E e).
Proof.
  revert s. induction l as [|a l IH]; intros s Hs Hbody; cbn.
  - left. by exists s.
  - destruct (Hbody a s) as [(s1 & -> & H1)|(e & -> & He)]; [set_solver|done| |].
    + cbn. apply IH; [done|]. intros x s0 Hx. apply Hbody. set_solver.
    + right. by exists e.
Qed.

Section Visit.

Variable set_iter : string → gset string → list string.
Variable dependencies : gmap string (gset string).

(** On any dependency table [visit] returns, having only added to
    [visited], or raises [KeyError] for an id that is not a key. *)
Lemma visit_ok_or_raise fuel node_id st :
  size (dom dependencies ∖ st.1) < fuel →
  (∃ st', visit set_iter fuel dependencies node_id st = Ok st'
          ∧ st.1 ⊆ st'.1)
  ∨ (∃ k, visit set_iter fuel dependencies node_id st = Raise (KeyError k)
          ∧ k ∉ dom dependencies).
Proof.
  revert node_id st.
  induction fuel as [|fuel IH]; intros n [V O] Hsz; [lia|].
  cbn [visit]. cbn in Hsz. destruct (decide (n ∈ V)) as [HnV|HnV].
  { left. by exists (V, O). }
  destruct (dependencies !! n) as [deps|] eqn:Hdeps.
  - destruct (for_in_ok_or_raise
                (λ s : walk, V ∪ {[n]} ⊆ s.1)
                (λ e, ∃ k, e = KeyError k ∧ k ∉ dom dependencies)
                (visit set_iter fuel dependencies)
                (set_iter n deps) (V ∪ {[n]}, O))
      as [([V' O'] & -> & Hsub)|(e & -> & k & -> & Hk)].
    + done.
    + intros d s _ Hsub.
      destruct (IH d s) as [(s1 & Hrun & Hmono)|(k & Hrun & Hk)].
      * assert (size (dom dependencies ∖ s.1)
                ≤ size (dom dependencies ∖ (V ∪ {[n]})))
          by (apply subseteq_size; set_solver).
        assert (size (dom dependencies ∖ (V ∪ {[n]}))
                < size (dom dependencies ∖ V)); [|lia].
        apply subset_size. split; [set_solver|].
        intros Hsub'. specialize (Hsub' n).
        apply elem_of_dom_2 in Hdeps. set_solver.
      * left. exists s1. split; [done|]. set_solver.
      * right. exists (KeyError k). split; [done|]. by exists k.
    + left. eexists. split; [done|]. cbn in *. set_solver.
    + right. by exists k.
  - right. exists n. split; [done|]. by apply not_elem_of_dom.
Qed.

End Visit.

Lemma add_dependency_dom e d d' :
  add_dependency e d = Ok d' → dom d' = dom d.
Proof.
  unfold add_dependency. destruct (d !! target e) as [s|] eqn:Hs; [|done].
  intros [= <-]. rewrite dom_insert_L. apply elem_of_dom_2 in Hs. set_solver.
Qed.

(** The table is built, with the node ids as keys, or the first edge
    whose target is not a node raises [KeyError]. *)
Lemma build_dependencies_ok_or_raise wf :
  (∃ dependencies,
     build_dependencies wf = Ok dependencies
     ∧ dom dependencies = list_to_set (node_ids wf))
  ∨ (∃ k, build_dependencies wf = Raise (KeyError k) ∧ k ∉ node_ids wf).
Proof.
  unfold build_dependencies.
  destruct (empty_dependencies_spec (nodes wf)) as [Hdom0 _].
  destruct (for_in_ok_or_raise
              (λ d : gmap string (gset string),
                 dom d = list_to_set (node_ids wf))
              (λ e, ∃ k, e = KeyError k ∧ k ∉ node_ids wf)
              add_dependency (edges wf) (empty_dependencies (nodes wf)))
    as [(d & Hrun & Hdom)|(e & Hrun & k & -> & Hk)].
  - done.
  - intros e d _ Hdom. unfold add_dependency.
    destruct (d !! target e) as [s|] eqn:Hs.
    + left. eexists. split; [done|]. rewrite dom_insert_L, <- Hdom.
      apply elem_of_dom_2 in Hs. set_solver.
    + right. eexists. split; [done|]. exists (target e). split; [done|].
      apply not_elem_of_dom in Hs. rewrite Hdom in Hs.
      by rewrite elem_of_list_to_set in Hs.
  - left. by exists d.
  - right. by exists k.
Qed.

(* The two ways the walk can end. *)
Lemma get_execution_order_cases
    (set_iter : string → gset string → list string) (wf : Workflow) :
  (∃ order, _get_execution_order set_iter wf = Ok order)
  ∨ (∃ k, _get_execution_order set_iter wf = Raise (KeyError k)
          ∧ k ∉ node_ids wf).
Proof.
  unfold _get_execution_order.
  destruct (build_dependencies_ok_or_raise wf)
    as [(dm & -> & Hdom)|(k & -> & Hk)]; [|right; by exists k].
  cbn -[visit].
  destruct (for_in_ok_or_raise
              (λ _ : walk, True)
              (λ e, ∃ k, e = KeyError k ∧ k ∉ node_ids wf)
              (λ n, visit set_iter (S (size dm)) dm (n_id n))
              (nodes wf) (∅, []))
    as [([V O] & -> & _)|(e & -> & k & -> & Hk)].
  - done.
  - intros n s _ _.
    destruct (visit_ok_or_raise set_iter dm (S (size dm)) (n_id n) s)
      as [(s1 & Hrun & _)|(k & Hrun & Hk)].
    + rewrite <- size_dom. apply Nat.lt_succ_r, subseteq_size. set_solver.
    + left. by exists s1.
    + right. eexists. split; [done|]. exists k. split; [done|].
      rewrite Hdom in Hk. by rewrite elem_of_list_to_set in Hk.
  - left. by exists O.
  - right. by exists k.
Qed.


(* An edge that points at an unknown node makes the walk raise
   [KeyError] before any node is visited. *)
Lemma get_execution_order_unknown_target
    (set_iter : string → gset string → list string) (wf : Workflow)
    (pre post : list Edge) (e : Edge) :
  edges wf = pre ++ e :: post →
  (∀ e', e' ∈ pre → target e' ∈ node_ids wf) →
  target e ∉ node_ids wf →
  _get_execution_order set_iter wf = Raise (KeyError (target e)).
Proof.
  intros Hedges Hpre He. unfold _get_execution_order, build_dependencies.
  rewrite Hedges.
  destruct (empty_dependencies_spec (nodes wf)) as [Hdom0 _].
  assert (Hgen : ∀ d, dom d = list_to_set (node_ids wf) →
    for_in (pre ++ e :: post) add_dependency d = Raise (KeyError (target e))).
  { clear Hedges.
    induction pre as [|e' pre IH]; intros d Hdom; cbn -[add_dependency].
    - assert (Hraise : add_dependency e d = Raise (KeyError (target e))).
      { unfold add_dependency.
        destruct (d !! target e) as [s|] eqn:Hs; [|done].
        apply elem_of_dom_2 in Hs.
        rewrite Hdom, elem_of_list_to_set in Hs. done. }
      by rewrite Hraise.
    - destruct (d !! target e') as [s|] eqn:Hs.
      + assert (Hok : add_dependency e' d
                      = Ok (<[target e' := s ∪ {[source e']}]> d))
          by (unfold add_dependency; by rewrite Hs).
        rewrite Hok. cbn -[add_dependency].
        apply IH; [intros e0 He0; apply Hpre; by right|].
        rewrite dom_insert_L, <- Hdom. apply elem_of_dom_2 in Hs.
        apply set_eq. intros x. rewrite elem_of_union, elem_of_singleton.
        split; [intros [->|Hx]; done|by right].
      + exfalso. apply not_elem_of_dom in Hs.
        rewrite Hdom, elem_of_list_to_set in Hs. apply Hs, Hpre. by left. }
  by rewrite Hgen.
Qed.

End WalkErrors.

(** ** Whole runs *)

Module WholeRunFacts.
Import Engine Frame Graph PyFacts StopFacts RunFacts WalkFacts WalkErrors
  InputFacts.

Section Run.

Variable set_iter : string → gset string → list string.
Variable execute_node : Node → gmap string value → executor_result.
Variable now : datetime.
Variable arrivals : string → list string.

Lemma collect_input_data_returns node workflow node_outputs context :
  ∃ input_data,
    _collect_input_data node workflow node_outputs context = Ok input_data.
Proof.
  unfold _collect_input_data.
  destruct (for_in_inv (λ _ _, True) (collect_edge node node_outputs)
              (edges workflow) ∅) as (d & -> & _).
  - done.
  - intros pre e post d0 _ _.
    destruct (collect_edge_spec node node_outputs e d0) as (d1 & Hrun & _).
    by exists d1.
  - by eexists.
Qed.

Lemma add_log_lookup execution_id level message data st :
  executions (_add_log now execution_id level message data st) !! execution_id
  = append_ex_log
      {| log_timestamp := now; log_level := level; log_node_id := None;
         log_message := message; log_data := data |}
    <$> executions st !! execution_id.
Proof. unfold _add_log. cbn. apply lookup_alter_eq. Qed.

Lemma notify_execution_outbox execution_id st e :
  executions st !! execution_id = Some e →
  outbox (_notify_execution_update execution_id st)
  = outbox st ++ [execution_update e].
Proof. intros He. unfold _notify_execution_update. by rewrite He. Qed.

Lemma mark_running_lookup execution_id st :
  executions (mark_running execution_id st) !! execution_id
  = set_ex_status RUNNING <$> executions st !! execution_id.
Proof.
  unfold mark_running. rewrite notify_execution_executions.
  apply update_execution_lookup.
Qed.

Lemma carried_refl execution_id e st :
  executions st !! execution_id = Some e → carried execution_id e st.
Proof. intros He. by exists e. Qed.

Lemma carried_update execution_id e st f :
  carried execution_id e st →
  (∀ x k, is_Some (ex_node_executions x !! k)
          → is_Some (ex_node_executions (f x) !! k)) →
  carried execution_id e (update_execution execution_id f st).
Proof.
  intros (e' & He' & Hk) Hf. exists (f e').
  rewrite update_execution_lookup, He'. split; [done|].
  intros k Hs. by apply Hf, Hk.
Qed.

Lemma alter_node_execution_is_Some node_id f x k :
  is_Some (ex_node_executions x !! k) →
  is_Some (ex_node_executions (alter_node_execution node_id f x) !! k).
Proof.
  intros [ne Hne]. cbn. destruct (decide (node_id = k)) as [->|Hn].
  - rewrite lookup_alter_eq, Hne. by eexists.
  - rewrite lookup_alter_ne, Hne by done. by eexists.
Qed.

Lemma carried_notify_node execution_id e st node_id :
  carried execution_id e st →
  carried execution_id e (_notify_node_update execution_id node_id st).
Proof.
  intros (e' & He' & Hk). exists e'. by rewrite notify_node_executions.
Qed.

Lemma carried_stops execution_id e st ids :
  carried execution_id e st →
  carried execution_id e (foldl (λ st id, stop_execution id st) st ids).
Proof.
  intros (e' & He' & Hk).
  destruct (stop_executions_same ids st execution_id e' He')
    as (e'' & He'' & Hsame).
  exists e''. split; [done|]. intros k Hs.
  destruct Hsame as (_ & _ & _ & _ & _ & _ & -> & _). by apply Hk.
Qed.

Lemma carried_add_log execution_id e st level message data :
  carried execution_id e st →
  carried execution_id e (_add_log now execution_id level message data st).
Proof.
  intros (e' & He' & Hk). eexists.
  rewrite add_log_lookup, He'. split; [done|]. cbn. done.
Qed.

Lemma carried_node_failed execution_id e st workflow node node_id x :
  carried execution_id e st →
  carried execution_id e
    (node_failed now execution_id workflow node node_id x st).1.
Proof.
  intros Hc. unfold node_failed.
  assert (carried execution_id e
            (_notify_node_update execution_id node_id
               (_add_log now execution_id "error"
                  ("Node " +:+ n_label node +:+ " failed: " +:+ str x)
                  (Some {["node_id" := VStr node_id]})
                  (update_execution execution_id
                     (alter_node_execution node_id (ne_fail (str x) now))
                     st)))) as Hres.
  { apply carried_notify_node, carried_add_log, carried_update; [done|].
    intros. by apply alter_node_execution_is_Some. }
  by destruct (continueOnError workflow).
Qed.

Lemma carried_run_node execution_id e st workflow node_id node_outputs :
  carried execution_id e st →
  carried execution_id e
    (run_node execute_node now arrivals execution_id workflow node_id
       node_outputs st).1.
Proof.
  intros Hc. unfold run_node.
  destruct (list_find _ _) as [[i node]|]; [|done].
  destruct (executions st !! execution_id) as [e0|]; [|done].
  destruct (ex_node_executions e0 !! node_id); [|done].
  destruct (_collect_input_data node workflow node_outputs (ex_context e0))
    as [input_data|x|]; [| |done].
  - assert (Hcall : carried execution_id e
              (foldl (λ st id, stop_execution id st)
                 (_notify_node_update execution_id node_id
                    (update_execution execution_id
                       (alter_node_execution node_id
                          (ne_start input_data now)) st))
                 (arrivals node_id))).
    { apply carried_stops, carried_notify_node, carried_update; [done|].
      intros. by apply alter_node_execution_is_Some. }
    destruct (execute_node node input_data) as [output_data|msg].
    + cbn. apply carried_notify_node, carried_update; [done|].
      intros. by apply alter_node_execution_is_Some.
    + pose proof (carried_node_failed execution_id e _ workflow node node_id
                    (Exception msg) Hcall) as Hf.
      by destruct (node_failed _ _ _ _ _ _ _) as [st' [x|]].
  - pose proof (carried_node_failed execution_id e _ workflow node node_id
                  x Hc) as Hf.
    by destruct (node_failed _ _ _ _ _ _ _) as [st' [y|]].
Qed.

Lemma carried_trans execution_id e e1 st1 st2 :
  executions st1 !! execution_id = Some e1 →
  (∀ k, is_Some (ex_node_executions e !! k)
        → is_Some (ex_node_executions e1 !! k)) →
  carried execution_id e1 st2 →
  carried execution_id e st2.
Proof.
  intros _ H1 (e2 & He2 & H2). exists e2. split; [done|]. eauto.
Qed.

Lemma carried_run_nodes execution_id e workflow execution_order :
  ∀ node_outputs st,
    carried execution_id e st →
    carried execution_id e
      (run_nodes execute_node now arrivals execution_id workflow
         execution_order node_outputs st).1.
Proof.
  induction execution_order as [|node_id rest IH]; intros node_outputs st Hc;
    [done|].
  cbn [run_nodes].
  pose proof (carried_run_node execution_id e st workflow node_id
                node_outputs Hc) as Hstep.
  destruct (run_node _ _ _ _ _ _ _ _) as [st1 [x|node_outputs1]]; [done|].
  by apply IH.
Qed.

Lemma run_failed_terminal execution_id x st e0 :
  executions st !! execution_id = Some e0 →
  ∃ e',
    executions (run_failed now execution_id x st) !! execution_id = Some e'
    ∧ ex_status e' = FAILED
    ∧ ex_error e' = Some (str x)
    ∧ ex_completed_at e' = Some now
    ∧ ex_node_executions e' = ex_node_executions e0
    ∧ last (outbox (run_failed now execution_id x st))
      = Some (execution_update e').
Proof.
  intros He0. unfold run_failed.
  set (st1 := _add_log _ _ _ _ _ _).
  assert (H1 : executions st1 !! execution_id
               = Some (append_ex_log
                         {| log_timestamp := now; log_level := "error";
                            log_node_id := None;
                            log_message := "Execution failed: " +:+ str x;
                            log_data := None |}
                         (set_ex_completed_at now
                            (set_ex_error (str x)
                               (set_ex_status FAILED e0))))).
  { unfold st1. by rewrite add_log_lookup, update_execution_lookup, He0. }
  eexists. rewrite notify_execution_executions. split; [exact H1|].
  split_and!; [done..|].
  rewrite (notify_execution_outbox _ _ _ H1). apply last_snoc.
Qed.


(** One plan entry whose executor call returns: the node's record is
    that of a success, the other records are as before. *)
Lemma run_node_returns execution_id workflow node_id node_outputs st e0 :
  (∀ node input_data, ∃ output_data,
     execute_node node input_data = Returns output_data) →
  node_id ∈ node_ids workflow →
  executions st !! execution_id = Some e0 →
  is_Some (ex_node_executions e0 !! node_id) →
  ∃ st' e1 node_outputs',
    run_node execute_node now arrivals execution_id workflow node_id
      node_outputs st = (st', inr node_outputs')
    ∧ executions st' !! execution_id = Some e1
    ∧ succeeded now e1 node_id
    ∧ ex_error e1 = ex_error e0
    ∧ ∀ k, k ≠ node_id →
           ex_node_executions e1 !! k = ex_node_executions e0 !! k.
Proof.
  intros Hexec Hin He0 [ne0 Hne0]. unfold run_node.
  apply list_elem_of_fmap in Hin as (n & Hn & Hn_in).
  destruct (list_find_elem_of (λ n, n_id n = node_id) (nodes workflow) n)
    as [[i node] Hfind]; [done..|].
  rewrite Hfind, He0, Hne0.
  destruct (collect_input_data_returns node workflow node_outputs
              (ex_context e0)) as [input_data ->].
  destruct (Hexec node input_data) as [output_data ->].
  set (st1 := _notify_node_update execution_id node_id
                (update_execution execution_id
                   (alter_node_execution node_id (ne_start input_data now))
                   st)).
  assert (H1 : executions st1 !! execution_id
               = Some (alter_node_execution node_id
                         (ne_start input_data now) e0)).
  { unfold st1.
    by rewrite notify_node_executions, update_execution_lookup, He0. }
  destruct (stop_executions_same (arrivals node_id) st1 execution_id _ H1)
    as (e2 & H2 & Hsame).
  destruct Hsame as (_ & _ & _ & _ & _ & _ & Hnodes & _ & _ & Herr).
  eexists _, _, _. split; [done|].
  rewrite notify_node_executions, update_execution_lookup, H2. cbn.
  split; [done|]. split_and!.
  - unfold succeeded. cbn. rewrite Hnodes. cbn.
    rewrite !lookup_alter_eq, Hne0. cbn. eexists. split; [done|].
    cbn. split_and!; [done| |done]. by eexists.
  - cbn. by rewrite Herr.
  - intros k Hk. cbn. rewrite Hnodes. cbn.
    by rewrite !lookup_alter_ne.
Qed.

Lemma run_nodes_succeed execution_id workflow :
  (∀ node input_data, ∃ output_data,
     execute_node node input_data = Returns output_data) →
  ∀ execution_order node_outputs st e0,
    (∀ k, k ∈ execution_order → k ∈ node_ids workflow) →
    executions st !! execution_id = Some e0 →
    (∀ k, k ∈ execution_order → is_Some (ex_node_executions e0 !! k)) →
    ∃ st' e1,
      run_nodes execute_node now arrivals execution_id workflow
        execution_order node_outputs st = (st', None)
      ∧ executions st' !! execution_id = Some e1
      ∧ (∀ k, k ∈ execution_order → succeeded now e1 k)
      ∧ ex_error e1 = ex_error e0
      ∧ (∀ k, k ∉ execution_order →
              ex_node_executions e1 !! k = ex_node_executions e0 !! k).
Proof.
  intros Hexec.
  induction execution_order as [|node_id rest IH];
    intros node_outputs st e0 Hids He0 Hrec.
  - exists st, e0. split_and!; [done..| |done|done].
    intros k Hk. by apply elem_of_nil in Hk.
  - cbn [run_nodes].
    destruct (run_node_returns execution_id workflow node_id node_outputs
                st e0 Hexec)
      as (st1 & e1 & outs1 & -> & He1 & Hsucc & Herr1 & Hother).
    { apply Hids. by left. }
    { done. }
    { apply Hrec. by left. }
    destruct (IH outs1 st1 e1) as (st2 & e2 & -> & He2 & Hdone & Herr2 & Hrest).
    { intros k Hk. apply Hids. by right. }
    { done. }
    { intros k Hk. destruct (decide (k = node_id)) as [->|Hne].
      - destruct Hsucc as (ne & -> & _). by eexists.
      - rewrite Hother by done. apply Hrec. by right. }
    exists st2, e2. split_and!; [done..| | |].
    + intros k Hk. destruct (decide (k ∈ rest)) as [Hin|Hout].
      * by apply Hdone.
      * apply elem_of_cons in Hk as [->|Hk]; [|done].
        destruct Hsucc as (ne & Hne & Hrest'). exists ne.
        by rewrite Hrest.
    + by rewrite Herr2.
    + intros k Hk. apply not_elem_of_cons in Hk as [Hne Hout].
      rewrite Hrest by done. by apply Hother.
Qed.



End Run.


Lemma started_lookup (wf : Workflow) :
  executions (Samples.started wf) !! "run-1"
  = Some (new_execution Samples.clock "run-1" wf None "manual" ∅).
Proof. apply lookup_singleton_eq. Qed.



End WholeRunFacts.

(** ** Insertion-ordered dictionaries *)

Module OdictFacts.
Import Scheduler.

Lemma odict_get_set_eq {V} k (v : V) d : odict_get k (odict_set k v d) = Some v.
Proof.
  induction d as [|[k' v'] d IH]; cbn.
  - by rewrite decide_True.
  - destruct (decide (k' = k)) as [->|Hne]; cbn.
    + by rewrite decide_True.
    + by rewrite decide_False.
Qed.

Lemma odict_get_set_ne {V} k k' (v : V) d :
  k ≠ k' → odict_get k (odict_set k' v d) = odict_get k d.
Proof.
  intros Hne. induction d as [|[k0 v0] d IH]; cbn.
  - by rewrite decide_False.
  - destruct (decide (k0 = k')) as [->|Hne']; cbn.
    + by rewrite !decide_False.
    + destruct (decide (k0 = k)); [done|]. exact IH.
Qed.

Lemma odict_get_alter_eq {V} (f : V → V) k d :
  odict_get k (odict_alter f k d) = f <$> odict_get k d.
Proof.
  induction d as [|[k0 v0] d IH]; cbn; [done|].
  destruct (decide (k0 = k)) as [->|Hne]; cbn.
  - by rewrite decide_True.
  - by rewrite decide_False.
Qed.

Lemma odict_get_alter_ne {V} (f : V → V) k k' d :
  k ≠ k' → odict_get k (odict_alter f k' d) = odict_get k d.
Proof.
  intros Hne. induction d as [|[k0 v0] d IH]; cbn; [done|].
  destruct (decide (k0 = k')) as [->|Hne']; cbn.
  - by rewrite !decide_False.
  - destruct (decide (k0 = k)); [done|]. exact IH.
Qed.

Lemma odict_alter_keys {V} (f : V → V) k d : (odict_alter f k d).*1 = d.*1.
Proof.
  unfold odict_alter. rewrite <- list_fmap_compose. apply list_fmap_ext.
  intros i [k0 v0] _. cbn. by destruct (decide (k0 = k)).
Qed.

Lemma odict_get_is_Some {V} k (d : list (string * V)) :
  is_Some (odict_get k d) ↔ k ∈ d.*1.
Proof.
  induction d as [|[k0 v0] d IH]; cbn.
  - split; [by intros [? ?]|]. intros Hk. by apply elem_of_nil in Hk.
  - destruct (decide (k0 = k)) as [->|Hne].
    + split; [intros _; by left|by eexists].
    + rewrite IH. split; [by right|].
      intros Hk. apply elem_of_cons in Hk as [->|Hk]; done.
Qed.

Lemma odict_get_None {V} k (d : list (string * V)) :
  odict_get k d = None ↔ k ∉ d.*1.
Proof.
  rewrite <- odict_get_is_Some. rewrite eq_None_not_Some. done.
Qed.

(** The value found under a key belongs to an entry with that key. *)
Lemma odict_get_Some_elem {V} k (v : V) d :
  odict_get k d = Some v → (k, v) ∈ d.
Proof.
  induction d as [|[k0 v0] d IH]; cbn; [done|].
  destruct (decide (k0 = k)) as [->|Hne].
  - intros [= ->]. by left.
  - intros Hk. right. by apply IH.
Qed.

Lemma odict_set_keys_fresh {V} k (v : V) d :
  k ∉ d.*1 → odict_set k v d = d ++ [(k, v)].
Proof.
  induction d as [|[k0 v0] d IH]; cbn; [done|].
  intros Hk. apply not_elem_of_cons in Hk as [Hne Hk].
  rewrite decide_False by done. by rewrite IH.
Qed.

End OdictFacts.

(** ** Plans: validation *)

Module ValidateFacts.
Import Flow FlowRun Plan Validated PyFacts.

Lemma node_index_snoc plan x :
  node_index (plan ++ [x]) = <[nodeId x := length plan]> (node_index plan).
Proof.
  unfold node_index. rewrite imap_app, foldl_app. cbn.
  by rewrite Nat.add_0_r.
Qed.

(** [node_index] maps exactly the ids of the plan, each to the position
    of an item with that id. *)
Lemma node_index_spec plan :
  (∀ k i, node_index plan !! k = Some i →
          ∃ item, plan !! i = Some item ∧ nodeId item = k)
  ∧ (∀ k, k ∈ node_ids plan → is_Some (node_index plan !! k)).
Proof.
  induction plan as [|x plan IH] using rev_ind.
  - split.
    + intros k i Hk. unfold node_index in Hk. cbn in Hk.
      by rewrite lookup_empty in Hk.
    + intros k Hk. by apply elem_of_nil in Hk.
  - destruct IH as [IH1 IH2]. rewrite node_index_snoc. split.
    + intros k i. destruct (decide (nodeId x = k)) as [<-|Hne].
      * rewrite lookup_insert_eq. intros [= <-]. exists x.
        split; [|done]. by apply list_lookup_middle.
      * rewrite lookup_insert_ne by done. intros Hi.
        destruct (IH1 k i Hi) as (item & Hitem & Hid).
        exists item. split; [|done]. by apply lookup_app_l_Some.
    + intros k. unfold node_ids. rewrite fmap_app, elem_of_app. cbn.
      intros [Hk|Hk].
      * destruct (decide (nodeId x = k)) as [<-|Hne].
        -- rewrite lookup_insert_eq. by eexists.
        -- rewrite lookup_insert_ne by done. by apply IH2.
      * apply list_elem_of_singleton in Hk as ->.
        rewrite lookup_insert_eq. by eexists.
Qed.

Section Visit.

Variable plan : list PlanItem.

Let ids : gset string := list_to_set (node_ids plan).

(** Items entered but not yet appended. *)
Definition entered (st : list PlanItem * gset string) : gset string :=
  st.2 ∖ list_to_set (node_ids st.1).

Definition visit_ok (st : list PlanItem * gset string) : Prop :=
  st.2 ⊆ ids
  ∧ list_to_set (node_ids st.1) ⊆ st.2
  ∧ NoDup (node_ids st.1)
  ∧ ∀ item, item ∈ st.1 → item ∈ plan.

Lemma dependencies_first_snoc l item :
  dependencies_first plan l →
  (∀ dep, dep ∈ dependencies item → dep ∈ node_ids plan →
          dep ∈ node_ids l) →
  dependencies_first plan (l ++ [item]).
Proof.
  intros Hl Hitem i x dep Hx Hdep Hin.
  apply lookup_app_Some in Hx as [Hx|[Hlen Hx]].
  - destruct (Hl i x dep Hx Hdep Hin) as (j & y & Hj & Hy & Hid).
    exists j, y. split_and!; [done| |done]. by apply lookup_app_l_Some.
  - apply list_lookup_singleton_Some in Hx as [Hi <-].
    apply Hitem in Hdep; [|done].
    apply list_elem_of_fmap in Hdep as (y & -> & Hy).
    apply list_elem_of_lookup in Hy as [j Hj].
    exists j, y. split_and!; [|by apply lookup_app_l_Some|done].
    apply lookup_lt_Some in Hj. lia.
Qed.

(** One call of [visit] on an item of the plan: it returns, keeps the
    state well formed, leaves the entered set as it found it and only
    appends to [validated].  When the dependencies have no cycle and
    every entered item depends on this one, the appended part has its
    dependencies first and contains the item's id. *)
Lemma flow_visit_spec fuel item st :
  visit_ok st →
  item ∈ plan →
  size (ids ∖ st.2) < fuel →
  ∃ st', visit fuel plan (node_index plan) item st = Ok st'
    ∧ visit_ok st'
    ∧ st.2 ⊆ st'.2
    ∧ nodeId item ∈ st'.2
    ∧ entered st' = entered st
    ∧ (∃ new, st'.1 = st.1 ++ new)
    ∧ (acyclic plan →
       (∀ a, a ∈ entered st → tc (depends_on plan) (nodeId item) a) →
       dependencies_first plan st.1 →
       dependencies_first plan st'.1 ∧ nodeId item ∈ node_ids st'.1).
Proof.
  revert item st.
  induction fuel as [|fuel IH]; intros item [O V] Hok Hitem Hsz; [lia|].
  destruct Hok as (HV & HO & Hnd & Hpl). cbn in HV, HO, Hnd, Hpl, Hsz.
  cbn [visit]. destruct (decide (nodeId item ∈ V)) as [HnV|HnV].
  { exists (O, V). split_and!; try done.
    - by exists []; rewrite app_nil_r.
    - intros Hno Hrel Hto. split; [done|]. cbn.
      destruct (decide (nodeId item ∈ node_ids O)) as [|HnO]; [done|].
      exfalso. apply (Hno (nodeId item)), Hrel. unfold entered; cbn.
      apply elem_of_difference. split; [done|].
      by rewrite elem_of_list_to_set. }
  assert (Hid : nodeId item ∈ ids).
  { unfold ids. rewrite elem_of_list_to_set. unfold node_ids.
    apply list_elem_of_fmap. by exists item. }
  set (I := λ (pre : list string) (s : list PlanItem * gset string),
    visit_ok s ∧ V ∪ {[nodeId item]} ⊆ s.2
    ∧ entered s = entered (O, V) ∪ {[nodeId item]}
    ∧ (∃ new, s.1 = O ++ new)
    ∧ (acyclic plan →
       (∀ a, a ∈ entered (O, V) → tc (depends_on plan) (nodeId item) a) →
       dependencies_first plan O →
       dependencies_first plan s.1
       ∧ ∀ d, d ∈ pre → d ∈ node_ids plan → d ∈ node_ids s.1)).
  match goal with
  | |- context [for_in ?l ?f ?s] =>
      destruct (for_in_inv I f l s) as ([O' V'] & Hrun & HI)
  end.
  - (* the loop invariant holds on entry *)
    unfold I, visit_ok, entered; cbn. split_and!.
    + intros x. rewrite elem_of_union, elem_of_singleton.
      intros [Hx| ->]; [by apply HV|done].
    + intros x Hx. apply elem_of_union. left. by apply HO.
    + done.
    + done.
    + done.
    + apply set_eq. intros x. rewrite !elem_of_union, !elem_of_difference,
        elem_of_union, elem_of_singleton, elem_of_list_to_set.
      split; [tauto|]. intros [[? ?]| ->]; [tauto|].
      split; [tauto|]. intros HnO. apply HnV, HO.
      by apply elem_of_list_to_set.
    + by exists []; rewrite app_nil_r.
    + intros _ _ Hto. split; [done|].
      intros d Hd. by apply elem_of_nil in Hd.
  - (* one iteration *)
    intros pre d post s Hsplit (Hok & Hsub & Hact & [new Hnew] & Hacyc).
    assert (Hd : d ∈ dependencies item) by (rewrite Hsplit; set_solver).
    assert (Hrel_d : depends_on plan d (nodeId item)) by (by exists item).
    destruct (node_index plan !! d) as [i|] eqn:Hidx.
    2:{ (* not a node of the plan: skipped *)
      exists s. split; [done|]. unfold I. split_and!; [done..| |].
      - by exists new.
      - intros Hno Hrel Hto. destruct (Hacyc Hno Hrel Hto) as [Hto_s Hpre].
        split; [done|]. intros d' Hd' Hin.
        apply elem_of_app in Hd' as [Hd'|Hd']; [by apply Hpre|].
        apply list_elem_of_singleton in Hd' as ->.
        destruct (proj2 (node_index_spec plan) d Hin) as [j Hj].
        by rewrite Hidx in Hj. }
    destruct (proj1 (node_index_spec plan) d i Hidx) as (item' & Hitem' & Hid').
    destruct (decide (d ∈ s.2)) as [Hds|Hds].
    { (* already visited: skipped *)
      exists s. split; [done|]. unfold I. split_and!; [done..| |].
      - by exists new.
      - intros Hno Hrel Hto. destruct (Hacyc Hno Hrel Hto) as [Hto_s Hpre].
        split; [done|]. intros d' Hd' Hin.
        apply elem_of_app in Hd' as [Hd'|Hd']; [by apply Hpre|].
        apply list_elem_of_singleton in Hd' as ->.
        destruct (decide (d ∈ node_ids s.1)) as [|Hout]; [done|].
        exfalso.
        assert (Hda : d ∈ entered s).
        { unfold entered. apply elem_of_difference. split; [done|].
          by rewrite elem_of_list_to_set. }
        rewrite Hact, elem_of_union, elem_of_singleton in Hda.
        destruct Hda as [Hda| ->].
        + apply (Hno d). eapply tc_l; [exact Hrel_d|]. by apply Hrel.
        + apply (Hno (nodeId item)). by apply tc_once. }
    rewrite Hitem'.
    destruct (IH item' s Hok)
      as (s1 & Hv & Hok1 & Hmono & Hd1 & Hact1 & [new1 Hnew1] & Hacyc1).
    + by eapply list_elem_of_lookup_2.
    + destruct Hok as (Hs_ids & _).
      assert (size (ids ∖ s.2) ≤ size (ids ∖ (V ∪ {[nodeId item]})))%nat.
      { apply subseteq_size. intros x. rewrite !elem_of_difference.
        intros [? Hx]. split; [done|]. intros Hx'. by apply Hx, Hsub. }
      assert (size (ids ∖ (V ∪ {[nodeId item]})) < size (ids ∖ V)); [|lia].
      apply subset_size. split.
      * intros x. rewrite !elem_of_difference, elem_of_union.
        intros [? Hx]. split; [done|]. intros Hx'. apply Hx. by left.
      * intros Hsub'. specialize (Hsub' (nodeId item)).
        rewrite !elem_of_difference, elem_of_union, elem_of_singleton in Hsub'.
        destruct Hsub' as [_ Hcon]; [by split|]. apply Hcon. by right.
    + exists s1. split; [done|]. unfold I. split_and!.
      * done.
      * intros x Hx. by apply Hmono, Hsub.
      * by rewrite Hact1.
      * exists (new ++ new1). by rewrite Hnew1, Hnew, app_assoc.
      * intros Hno Hrel Hto. destruct (Hacyc Hno Hrel Hto) as [Hto_s Hpre].
        destruct Hacyc1 as [Hto1 Hd1']; [done| |done|].
        { intros a. rewrite Hact, elem_of_union, elem_of_singleton, Hid'.
          intros [Ha| ->].
          - eapply tc_l; [exact Hrel_d|]. by apply Hrel.
          - by apply tc_once. }
        split; [done|]. intros d' Hd' Hin.
        apply elem_of_app in Hd' as [Hd'|Hd'].
        -- unfold node_ids. rewrite Hnew1, fmap_app. apply elem_of_app. left.
           by apply Hpre.
        -- apply list_elem_of_singleton in Hd' as ->. by rewrite <- Hid'.
  - (* after the loop: [validated.append(item)] *)
    rewrite Hrun. cbn.
    destruct HI as ((HV' & HO' & Hnd' & Hpl') & Hsub & Hact & [new Hnew] & Hacyc).
    cbn in HV', HO', Hnd', Hpl', Hsub, Hnew.
    assert (HnO' : nodeId item ∉ node_ids O').
    { assert (Hna : nodeId item ∈ entered (O', V')).
      { rewrite Hact. apply elem_of_union. right. by apply elem_of_singleton. }
      unfold entered in Hna; cbn in Hna.
      apply elem_of_difference in Hna as [_ Hna].
      by rewrite elem_of_list_to_set in Hna. }
    assert (HnV' : nodeId item ∈ V').
    { apply Hsub, elem_of_union. right. by apply elem_of_singleton. }
    exists (O' ++ [item], V'). split; [done|].
    unfold visit_ok; cbn. unfold node_ids in *. rewrite !fmap_app. cbn.
    split_and!.
    + done.
    + rewrite list_to_set_app_L. intros x.
      rewrite elem_of_union. intros [Hx|Hx]; [by apply HO'|].
      cbn in Hx. rewrite elem_of_union, elem_of_singleton in Hx.
      destruct Hx as [->|Hx]; [done|]. by apply elem_of_empty in Hx.
    + apply NoDup_app. split_and!; [done| |apply NoDup_singleton].
      intros x Hx Hx'. by apply list_elem_of_singleton in Hx' as ->.
    + intros x Hx. apply elem_of_app in Hx as [Hx|Hx]; [by apply Hpl'|].
      by apply list_elem_of_singleton in Hx as ->.
    + intros x Hx. apply Hsub, elem_of_union. by left.
    + done.
    + apply set_eq. intros x.
      assert (Hx := proj1 (set_eq _ _) Hact x). clear Hacyc IH.
      unfold entered in *; cbn in *. unfold node_ids in *.
      rewrite fmap_app, list_to_set_app_L. cbn.
      rewrite elem_of_union, elem_of_singleton in Hx.
      rewrite !elem_of_difference in Hx.
      rewrite !elem_of_difference, !elem_of_union, elem_of_singleton.
      split.
      * intros [HxV Hxn].
        assert (Hin : x ∈ V' ∧ x ∉ (list_to_set (nodeId <$> O') : gset string)).
        { split; [done|]. intros Hc. apply Hxn. by left. }
        destruct (proj1 Hx Hin) as [Hl| ->]; [done|].
        exfalso. apply Hxn. right. by left.
      * intros HxO. destruct (proj2 Hx (or_introl HxO)) as [HxV Hxn].
        split; [done|]. intros [Hc|[Hc|Hc]];
          [done| |by apply elem_of_empty in Hc].
        subst x. by destruct HxO.
    + exists (new ++ [item]). by rewrite Hnew, app_assoc.
    + intros Hno Hrel Hto. destruct (Hacyc Hno Hrel Hto) as [Hto' Hall].
      split.
      * apply dependencies_first_snoc; [done|].
        intros dep Hdep Hin. by apply Hall.
      * apply elem_of_app. right. by apply list_elem_of_singleton.
Qed.

End Visit.

Lemma node_ids_imap_set_order (l : list PlanItem) :
  node_ids (imap set_order l) = node_ids l.
Proof.
  unfold node_ids. apply list_eq. intros i.
  rewrite !list_lookup_fmap, list_lookup_imap.
  by destruct (l !! i).
Qed.

(** The loop of [validate_dependencies] over the whole plan. *)
Lemma validate_loop_spec (plan : list PlanItem) :
  ∃ validated visited,
    for_in plan (visit (S (length plan)) plan (node_index plan)) ([], ∅)
    = Ok (validated, visited)
    ∧ NoDup (node_ids validated)
    ∧ (∀ k, k ∈ node_ids validated ↔ k ∈ node_ids plan)
    ∧ (∀ item, item ∈ validated → item ∈ plan)
    ∧ (acyclic plan → dependencies_first plan validated).
Proof.
  set (I := λ (pre : list PlanItem) (s : list PlanItem * gset string),
    visit_ok plan s ∧ entered s = ∅
    ∧ (∀ item, item ∈ pre → nodeId item ∈ s.2)
    ∧ (acyclic plan → dependencies_first plan s.1)).
  destruct (for_in_inv I (visit (S (length plan)) plan (node_index plan))
              plan ([], ∅)) as ([validated visited] & Hrun & HI).
  - unfold I, visit_ok, entered; cbn. split_and!.
    + apply empty_subseteq.
    + done.
    + apply NoDup_nil_2.
    + intros item Hitem. by apply elem_of_nil in Hitem.
    + apply difference_diag_L.
    + intros item Hitem. by apply elem_of_nil in Hitem.
    + intros _ i item dep Hi. by rewrite lookup_nil in Hi.
  - intros pre x post s0 Hsplit (Hok & Hent & Hpre & Hfirst).
    destruct (flow_visit_spec plan (S (length plan)) x s0 Hok)
      as (s1 & Hv & Hok1 & Hmono & Hx1 & Hent1 & _ & Hacyc).
    + rewrite Hsplit. apply elem_of_app. right. by left.
    + assert (size (list_to_set (node_ids plan) ∖ s0.2 : gset string)
              ≤ size (list_to_set (node_ids plan) : gset string))%nat
        by (apply subseteq_size, subseteq_difference_l; done).
      pose proof (FlowFacts.size_list_to_set_le (node_ids plan)) as Hle.
      unfold node_ids in Hle at 2. rewrite length_fmap in Hle. lia.
    + exists s1. split; [done|]. unfold I. split_and!.
      * done.
      * by rewrite Hent1.
      * intros item Hitem. apply elem_of_app in Hitem as [Hitem|Hitem].
        -- by apply Hmono, Hpre.
        -- by apply list_elem_of_singleton in Hitem as ->.
      * intros Hno. apply Hacyc; [done| |by apply Hfirst].
        intros a Ha. rewrite Hent in Ha. by apply elem_of_empty in Ha.
  - exists validated, visited. split; [done|].
    destruct HI as ((HV & HO & Hnd & Hpl) & Hent & Hall & Hfirst).
    cbn in HV, HO, Hnd, Hpl, Hent, Hall, Hfirst.
    split_and!; [done| |done|done].
    intros k. split.
    + intros Hk. apply list_elem_of_fmap in Hk as (item & -> & Hitem).
      apply list_elem_of_fmap. exists item. split; [done|]. by apply Hpl.
    + intros Hk. apply list_elem_of_fmap in Hk as (item & -> & Hitem).
      apply Hall in Hitem.
      destruct (decide (nodeId item ∈ node_ids validated)) as [|Hout];
        [done|].
      exfalso. apply (not_elem_of_empty (C:=gset string) (nodeId item)).
      rewrite <- Hent. unfold entered; cbn.
      apply elem_of_difference. split; [done|].
      by rewrite elem_of_list_to_set.
Qed.




End ValidateFacts.

(** ** Plans: construction *)

Module PlanFacts.
Import Flow FlowRun Plan Validated PyFacts.

Lemma managers_appended (manager_nodes : list string) :
  ∀ plan,
    node_ids (foldl (λ plan manager_id,
                       plan ++ [manager_entry plan manager_id])
                plan manager_nodes)
    = node_ids plan ++ manager_nodes.
Proof.
  induction manager_nodes as [|m ms IH]; intros plan; cbn.
  - by rewrite app_nil_r.
  - rewrite IH. unfold node_ids. rewrite fmap_app. cbn.
    by rewrite <- app_assoc.
Qed.

(** One iteration with a non-zero interval appends the item's entry,
    followed by the manager entries or by nothing. *)
Lemma plan_step_ids manager_nodes interval p plan :
  interval ≠ 0%Z →
  ∃ plan' tail,
    plan_step manager_nodes interval p plan = Ok plan'
    ∧ node_ids plan' = node_ids plan ++ ei_nodeId p.2 :: tail
    ∧ ∀ k, k ∈ tail → k ∈ manager_nodes.
Proof.
  intros Hne. unfold plan_step. rewrite decide_False by done.
  case_decide.
  - eexists _, manager_nodes. split; [done|].
    rewrite managers_appended. unfold node_ids. rewrite fmap_app. cbn.
    by rewrite <- app_assoc.
  - eexists _, []. split; [done|]. unfold node_ids. rewrite fmap_app. cbn.
    split; [done|]. intros k Hk. by apply elem_of_nil in Hk.
Qed.

Lemma build_plan_spec execution_list manager_nodes interval :
  interval ≠ 0%Z →
  ∃ plan,
    for_in (imap pair execution_list) (plan_step manager_nodes interval) []
    = Ok plan
    ∧ (∀ k, k ∈ node_ids plan →
            k ∈ (ei_nodeId <$> execution_list) ∨ k ∈ manager_nodes)
    ∧ (∀ k, k ∈ (ei_nodeId <$> execution_list) → k ∈ node_ids plan).
Proof.
  intros Hne.
  set (I := λ (pre : list (nat * ExecutionItem)) (plan : list PlanItem),
    (∀ k, k ∈ node_ids plan →
          k ∈ ((λ p, ei_nodeId p.2) <$> pre) ∨ k ∈ manager_nodes)
    ∧ (∀ k, k ∈ ((λ p, ei_nodeId p.2) <$> pre) → k ∈ node_ids plan)).
  destruct (for_in_inv I (plan_step manager_nodes interval)
              (imap pair execution_list) []) as (plan & Hrun & Hall & Hin).
  - split; intros k Hk; by apply elem_of_nil in Hk.
  - intros pre p post plan0 _ [Hall Hin].
    destruct (plan_step_ids manager_nodes interval p plan0 Hne)
      as (plan1 & tail & -> & Hids & Htail).
    exists plan1. split; [done|]. unfold I. rewrite Hids, fmap_app. cbn.
    split; intros k; rewrite !elem_of_app, ?elem_of_cons.
    + intros [Hk|[->|Hk]].
      * destruct (Hall k Hk) as [?|?]; [left; by left|by right].
      * left. right. by left.
      * right. by apply Htail.
    + intros [Hk|Hk].
      * left. by apply Hin.
      * destruct Hk as [->|Hk]; [|by apply elem_of_nil in Hk].
        right. by left.
  - exists plan. split; [done|].
    assert (Heq : (λ p : nat * ExecutionItem, ei_nodeId p.2)
                  <$> imap pair execution_list
                  = ei_nodeId <$> execution_list).
    { apply list_eq. intros i.
      rewrite !list_lookup_fmap, list_lookup_imap.
      by destruct (execution_list !! i). }
    rewrite Heq in Hall, Hin. by split.
Qed.



End PlanFacts.

(** ** Plans: sequential execution and its summary *)

Module SequentialFacts.
Import Flow FlowRun Results Scheduler OdictFacts.

Section Run.

Variable execute_single_node :
  string → string → gmap string value → Engine.executor_result.
Variable now : datetime.
Variable stops : string → bool.

(** What the loop appends to [results]: one result per item of an
    initial part of the plan. *)
Lemma sequential_loop_spec flow_node_id data :
  ∀ execution_plan previous_output results self,
    ∃ new n,
      (sequential_loop execute_single_node now stops flow_node_id
         execution_plan data previous_output results self).2
      = results ++ new
      ∧ Forall2 result_of new (take n execution_plan)
      ∧ (stop_on_error data = true →
         ∀ i r, new !! i = Some r → r_status r = "error" →
                S i = length new).
Proof.
  induction execution_plan as [|item rest IH];
    intros previous_output results self.
  - exists [], 0. cbn. rewrite app_nil_r. split_and!; [done|constructor|].
    intros _ i r Hi. by rewrite lookup_nil in Hi.
  - cbn [sequential_loop].
    destruct (is_running self); cbn [negb].
    2:{ exists [], 0. cbn. rewrite app_nil_r.
        split_and!; [done|constructor|].
        intros _ i r Hi. by rewrite lookup_nil in Hi. }
    destruct (execute_single_node (nodeId item) (nodeType item) _)
      as [result|msg].
    + match goal with
      | |- context [sequential_loop _ _ _ _ rest data ?p ?rs ?s] =>
          destruct (IH p rs s) as (new & n & Hrun & Hres & Hlast)
      end.
      exists (success_result item result :: new), (S n).
      rewrite Hrun, <- app_assoc. split_and!; [done| |].
      * cbn. constructor; [|done]. unfold result_of. cbn. by eauto.
      * intros Hstop [|i] r Hi Herr; cbn in Hi.
        -- injection Hi as <-. discriminate Herr.
        -- cbn. f_equal. by eapply Hlast.
    + destruct (stop_on_error data) eqn:Hpolicy.
      * exists [error_result item msg], 1. cbn. split_and!; [done| |].
        -- rewrite take_0. constructor; [|constructor].
           unfold result_of. cbn. by eauto.
        -- intros _ [|i] r Hi _; [done|]. by destruct i.
      * match goal with
        | |- context [sequential_loop _ _ _ _ rest data ?p ?rs ?s] =>
            destruct (IH p rs s) as (new & n & Hrun & Hres & Hlast)
        end.
        exists (error_result item msg :: new), (S n).
        rewrite Hrun, <- app_assoc. split_and!; [done| |done].
        cbn. constructor; [|done]. unfold result_of. cbn. by eauto.
Qed.

(** The results of [execute_sequential] follow the plan: result [i]
    belongs to plan item [i], for an initial part of the plan, and its
    status is [success] or [error].  Under the [stop] policy a result
    with status [error] can only be the last one. *)
Theorem execute_sequential_follows_plan (flow_node_id : string)
    (execution_plan : list PlanItem) (data : gmap string value)
    (self : FlowNode) :
  ∃ n,
    Forall2 result_of
      (execute_sequential execute_single_node now stops flow_node_id
         execution_plan data self).2
      (take n execution_plan)
    ∧ (stop_on_error data = true →
       ∀ i r,
         (execute_sequential execute_single_node now stops flow_node_id
            execution_plan data self).2 !! i = Some r →
         r_status r = "error" →
         S i = length (execute_sequential execute_single_node now stops
                         flow_node_id execution_plan data self).2).
Proof.
  unfold execute_sequential.
  destruct (sequential_loop_spec flow_node_id data execution_plan (VDict ∅)
              [] self) as (new & n & -> & Hres & Hlast).
  exists n. by split.
Qed.

(** Without a stop request, and unless the policy is [stop], every item
    of the plan is run, whether earlier ones failed or not. *)
Lemma sequential_loop_all flow_node_id data :
  (∀ node_id, stops node_id = false) →
  stop_on_error data = false →
  ∀ execution_plan previous_output results self,
    is_running self = true →
    length (sequential_loop execute_single_node now stops flow_node_id
              execution_plan data previous_output results self).2
    = length results + length execution_plan.
Proof.
  intros Hstops Hpolicy.
  induction execution_plan as [|item rest IH];
    intros previous_output results self Hrun.
  - cbn. lia.
  - cbn [sequential_loop]. rewrite Hrun, Hstops, Hpolicy. cbn [negb].
    destruct (execute_single_node (nodeId item) (nodeType item) _)
      as [result|msg].
    + rewrite IH by done. rewrite length_app. cbn. lia.
    + rewrite IH by done. rewrite length_app. cbn. lia.
Qed.

(** Without a stop request and unless the policy is [stop], the whole
    plan is run: there is one result for every item, in plan order,
    whether earlier items failed or not. *)
Theorem execute_sequential_continues (flow_node_id : string)
    (execution_plan : list PlanItem) (data : gmap string value)
    (self : FlowNode) :
  is_running self = true →
  (∀ node_id, stops node_id = false) →
  stop_on_error data = false →
  Forall2 result_of
    (execute_sequential execute_single_node now stops flow_node_id
       execution_plan data self).2
    execution_plan.
Proof.
  intros Hrun Hstops Hpolicy. unfold execute_sequential.
  pose proof (sequential_loop_all flow_node_id data Hstops Hpolicy
                execution_plan (VDict ∅) [] self Hrun) as Hlen.
  destruct (sequential_loop_spec flow_node_id data execution_plan (VDict ∅)
              [] self) as (new & n & Heq & Hres & _).
  rewrite Heq in Hlen |- *. cbn in Hlen |- *.
  apply Forall2_length in Hres as Hlen'.
  rewrite length_take in Hlen'.
  rewrite take_ge in Hres by lia. done.
Qed.

(** The entry of [typeStatistics] for a node type counts the results of
    that type; a type without results has no entry. *)
Lemma count_type_spec (results : list NodeResult) (t : string) :
  odict_get t (foldl count_type [] results)
  = if decide (of_type t results = []) then None
    else Some (counted (of_type t results)).
Proof.
  induction results as [|x results IH] using rev_ind; [done|].
  rewrite foldl_app. cbn [foldl]. unfold of_type in *. rewrite filter_app.
  set (stats := foldl count_type [] results) in *.
  set (rs := filter (λ r, r_nodeType r = t) results) in *.
  unfold count_type.
  destruct (decide (r_nodeType x = t)) as [Ht|Ht].
  - rewrite (filter_cons_True _ x []) by done. rewrite filter_nil.
    rewrite Ht, odict_get_alter_eq.
    destruct (decide (rs ++ [x] = [])) as [Hc|_];
      [by apply app_nil in Hc as [_ ?]|].
    assert (Hbefore :
      odict_get t (if decide (is_Some (odict_get t stats)) then stats
                   else odict_set t {| ts_success := 0; ts_error := 0;
                                       ts_total := 0 |} stats)
      = Some (counted rs)).
    { rewrite IH. destruct (decide (rs = [])) as [->|Hrs].
      - rewrite decide_False by (by intros [? ?]).
        by rewrite odict_get_set_eq.
      - rewrite decide_True by (by eexists). rewrite IH.
        by rewrite ?decide_False. }
    rewrite Hbefore. cbn. f_equal. unfold counted.
    rewrite !filter_app, !length_app.
    destruct (decide (r_status x = "success")) as [Hs|Hs].
    + rewrite (filter_cons_True _ x []) by done.
      rewrite (filter_cons_False _ x []) by (by intros ?).
      cbn. f_equal; lia.
    + rewrite (filter_cons_False _ x []) by done.
      rewrite (filter_cons_True _ x []) by done.
      cbn. f_equal; lia.
  - rewrite (filter_cons_False _ x []) by done. rewrite filter_nil, app_nil_r.
    rewrite odict_get_alter_ne by done.
    destruct (decide (is_Some (odict_get (r_nodeType x) stats))); [done|].
    by rewrite odict_get_set_ne.
Qed.

Lemma status_counts (results : list NodeResult) :
  Forall (λ r, r_status r = "success" ∨ r_status r = "error") results →
  length (filter (λ r, r_status r = "success") results)
  + length (filter (λ r, r_status r = "error") results)
  = length results.
Proof.
  induction 1 as [|r results Hr _ IH]; [done|].
  destruct Hr as [Hr|Hr].
  - rewrite filter_cons_True by done.
    rewrite (filter_cons_False (λ r, r_status r = "error"))
      by (by rewrite Hr).
    cbn. lia.
  - rewrite (filter_cons_False (λ r, r_status r = "success"))
      by (by rewrite Hr).
    rewrite filter_cons_True by done. cbn. lia.
Qed.

(** The summary of a sequential run adds up: every result is counted as
    successful or as failed, there is one [errors] entry per failed
    result, no more results than plan items, and the statistics entry
    of each node type counts the results of that type. *)
Theorem analyze_results_of_run (flow_node_id : string)
    (execution_plan : list PlanItem) (data : gmap string value)
    (self : FlowNode) :
  let results :=
    (execute_sequential execute_single_node now stops flow_node_id
       execution_plan data self).2 in
  let summary := analyze_results results in
  successful summary + failed summary = total summary
  ∧ total summary ≤ length execution_plan
  ∧ length (errors summary) = failed summary
  ∧ ∀ t, odict_get t (typeStatistics summary)
         = if decide (of_type t results = []) then None
           else Some (counted (of_type t results)).
Proof.
  intros results summary. unfold summary, analyze_results. cbn.
  destruct (sequential_loop_spec flow_node_id data execution_plan (VDict ∅)
              [] self) as (new & n & Heq & Hres & _).
  fold (execute_sequential execute_single_node now stops flow_node_id
          execution_plan data self) in Heq.
  fold results in Heq. cbn in Heq. split_and!.
  - apply status_counts. rewrite Heq. clear -Hres.
    induction Hres as [|r item new' l' Hr _ IH]; constructor; [|done].
    by destruct Hr as (_ & _ & ?).
  - rewrite Heq. apply Forall2_length in Hres. rewrite Hres, length_take. lia.
  - by rewrite length_fmap.
  - intros t. apply count_type_spec.
Qed.

End Run.

(** ** [stop_execution] *)

(** [stop_execution] clears the running flag and writes only entries
    [execution_status[n][n]]: in every status table, the flow node's own
    included, the entry of every node other than the table's key is as
    it was, so a node recorded as running is still recorded as
    running. *)
Theorem stop_execution_writes_diagonal (now : datetime) (node_id : string)
    (self : FlowNode) :
  is_running (stop_execution now node_id self) = false
  ∧ ∀ table key, key ≠ table →
      odict_get key
        (default [] (execution_status (stop_execution now node_id self)
                     !! table))
      = odict_get key (default [] (execution_status self !! table)).
Proof.
  unfold stop_execution. cbn.
  set (step := λ (self : FlowNode) (kv : string * (string * datetime)),
         if decide (kv.2.1 = "running")
         then update_execution_status now kv.1 kv.1 "stopped" self
         else self).
  assert (Hfold : ∀ statuses self0,
    is_running (foldl step self0 statuses) = is_running self0
    ∧ ∀ table key, key ≠ table →
        odict_get key (default [] (execution_status (foldl step self0 statuses)
                                   !! table))
        = odict_get key (default [] (execution_status self0 !! table))).
  { induction statuses as [|kv statuses IH]; intros self0; [done|].
    cbn [foldl]. destruct (IH (step self0 kv)) as [Hrun Htab].
    split.
    - rewrite Hrun. unfold step. by case_decide.
    - intros table key Hne. rewrite Htab by done.
      unfold step. case_decide; [|done].
      unfold update_execution_status. cbn.
      destruct (decide (kv.1 = table)) as [<-|Htable].
      + rewrite lookup_insert_eq. cbn. by rewrite odict_get_set_ne.
      + by rewrite lookup_insert_ne. }
  destruct (execution_status self !! node_id) as [statuses|]; [|done].
  destruct (Hfold statuses {| is_running := false;
                              execution_status := execution_status self |})
    as [Hrun Htab].
  split; [by rewrite Hrun|]. intros table key Hne. by rewrite Htab.
Qed.

Lemma execute_sequential_follows_plan_witness :
  ∃ n,
    Forall2 result_of
      (execute_sequential Samples.every_node_returns 0 Samples.never_stops
         "flow" Samples.fan_in_plan ∅ Samples.idle_flow).2
      (take n Samples.fan_in_plan).
Proof.
  destruct (execute_sequential_follows_plan Samples.every_node_returns 0
              Samples.never_stops "flow" Samples.fan_in_plan ∅
              Samples.idle_flow) as (n & Hres & _).
  by exists n.
Defined.

Lemma execute_sequential_continues_witness :
  Forall2 result_of
    (execute_sequential Samples.every_node_returns 0 Samples.never_stops
       "flow" Samples.fan_in_plan ∅ Samples.idle_flow).2
    Samples.fan_in_plan.
Proof. by apply execute_sequential_continues. Defined.

Lemma stop_execution_writes_diagonal_witness :
  is_running (stop_execution 0 "flow" Samples.idle_flow) = false.
Proof. apply stop_execution_writes_diagonal. Defined.

End SequentialFacts.

(** ** The schedule *)

Module ScheduleFacts.
Import Scheduler SchedulerTasks OdictFacts SchedulerFacts.

Lemma insert_task_perm t l : insert_task t l ≡ₚ t :: l.
Proof.
  induction l as [|x l IH]; cbn; [done|].
  destruct (priority t <? priority x)%Z; [|done].
  rewrite IH. apply Permutation_swap.
Qed.

Lemma sort_by_priority_perm l : sort_by_priority l ≡ₚ l.
Proof.
  induction l as [|t l IH]; cbn; [done|].
  by rewrite insert_task_perm, IH.
Qed.

Lemma find_task_by_id_elem self task_id task :
  find_task_by_id self task_id = Some task →
  (task ∈ task_queue self ∧ id task = task_id)
  ∨ (task_id, task) ∈ running_tasks self.
Proof.
  unfold find_task_by_id.
  destruct (list_find _ _) as [[i t]|] eqn:Hfind.
  - intros [= <-]. apply list_find_Some in Hfind as (Hi & Hid & _).
    left. split; [|done]. by eapply list_elem_of_lookup_2.
  - intros Hget. right. by apply odict_get_Some_elem.
Qed.

(** [optimize_schedule] returns on every state of the scheduler.  The
    schedule is in descending priority order and consists of tasks of
    the queue or of the running table whose status is [scheduled]. *)
Theorem optimize_schedule_spec (self : SchedulerNode) :
  ∃ schedule,
    optimize_schedule self = Ok schedule
    ∧ Sorted (λ a b, (priority b ≤ priority a)%Z) schedule
    ∧ ∀ task, task ∈ schedule →
        status task = "scheduled"
        ∧ (task ∈ task_queue self ∨ task ∈ (running_tasks self).*2).
Proof.
  unfold optimize_schedule.
  destruct (topological_sort_total (build_dependency_graph self))
    as [execution_order ->].
  cbn. eexists. split; [done|]. split; [apply sort_by_priority_sorted|].
  intros task Htask. rewrite sort_by_priority_perm in Htask.
  apply list_elem_of_omap in Htask as (task_id & _ & Hfound).
  destruct (find_task_by_id self task_id) as [t|] eqn:Hfind; [|done].
  destruct (decide (status t = "scheduled")) as [Hst|]; [|done].
  injection Hfound as <-. split; [done|].
  apply find_task_by_id_elem in Hfind as [[Hq _]|Hr]; [by left|].
  right. apply list_elem_of_fmap. by exists (task_id, t).
Qed.

(** *** Tasks that others wait for *)

Section Degrees.

(** The two loops that count, for each task, the tasks that list it. *)
Definition raise (in_degree : list (string * Z)) (dep : string)
  : list (string * Z) :=
  if decide (is_Some (odict_get dep in_degree))
  then odict_alter (λ n, (n + 1)%Z) dep in_degree
  else in_degree.

Lemma raise_get in_degree dep k c :
  odict_get k in_degree = Some c →
  ∃ c', odict_get k (raise in_degree dep) = Some c'
        ∧ (c ≤ c')%Z ∧ (k = dep → (c < c')%Z).
Proof.
  intros Hk. unfold raise. case_decide as Hdep.
  - destruct (decide (k = dep)) as [->|Hne].
    + rewrite odict_get_alter_eq, Hk. cbn. eexists. split; [done|]. lia.
    + rewrite odict_get_alter_ne, Hk by done. exists c. split; [done|].
      split; [lia|done].
  - exists c. split; [done|]. split; [lia|]. intros ->.
    exfalso. apply Hdep. by rewrite Hk.
Qed.

Lemma raise_all_get deps : ∀ in_degree k c,
  odict_get k in_degree = Some c →
  ∃ c', odict_get k (foldl raise in_degree deps) = Some c'
        ∧ (c ≤ c')%Z ∧ (k ∈ deps → (c < c')%Z).
Proof.
  induction deps as [|dep deps IH]; intros in_degree k c Hk; cbn.
  - exists c. split; [done|]. split; [lia|].
    intros Hin. by apply elem_of_nil in Hin.
  - destruct (raise_get in_degree dep k c Hk) as (c1 & H1 & Hle1 & Hlt1).
    destruct (IH _ k c1 H1) as (c2 & H2 & Hle2 & Hlt2).
    exists c2. split; [done|]. split; [lia|].
    intros Hin. apply elem_of_cons in Hin as [->|Hin].
    + specialize (Hlt1 eq_refl). lia.
    + specialize (Hlt2 Hin). lia.
Qed.

Lemma raise_graph_get (graph : list (string * list string)) :
  ∀ in_degree k c,
    odict_get k in_degree = Some c →
    ∃ c', odict_get k (foldl (λ d kv, foldl raise d kv.2) in_degree graph)
          = Some c'
          ∧ (c ≤ c')%Z
          ∧ ((∃ kv, kv ∈ graph ∧ k ∈ kv.2) → (c < c')%Z).
Proof.
  induction graph as [|kv graph IH]; intros in_degree k c Hk; cbn.
  - exists c. split; [done|]. split; [lia|].
    intros (kv & Hin & _). by apply elem_of_nil in Hin.
  - destruct (raise_all_get kv.2 in_degree k c Hk) as (c1 & H1 & Hle1 & Hlt1).
    destruct (IH _ k c1 H1) as (c2 & H2 & Hle2 & Hlt2).
    exists c2. split; [done|]. split; [lia|].
    intros (kv' & Hin & Hdep). apply elem_of_cons in Hin as [->|Hin].
    + specialize (Hlt1 Hdep). lia.
    + assert ((c1 < c2)%Z) by (apply Hlt2; by exists kv'). lia.
Qed.

Lemma zero_degrees_get (graph : list (string * list string)) k :
  k ∈ graph.*1 →
  odict_get k ((λ kv : string * list string, (kv.1, 0%Z)) <$> graph)
  = Some 0%Z.
Proof.
  induction graph as [|[k0 deps] graph IH]; cbn.
  - intros Hk. by apply elem_of_nil in Hk.
  - intros Hk. destruct (decide (k0 = k)) as [|Hne]; [done|].
    apply elem_of_cons in Hk as [->|Hk]; [done|]. by apply IH.
Qed.

Lemma raise_all_keys deps : ∀ in_degree,
  (foldl raise in_degree deps).*1 = in_degree.*1.
Proof.
  induction deps as [|dep deps IH]; intros in_degree; cbn; [done|].
  rewrite IH. unfold raise. case_decide; [|done]. apply odict_alter_keys.
Qed.

Lemma raise_graph_keys (graph : list (string * list string)) :
  ∀ in_degree,
    (foldl (λ d kv, foldl raise d kv.2) in_degree graph).*1 = in_degree.*1.
Proof.
  induction graph as [|kv graph IH]; intros in_degree; cbn; [done|].
  rewrite IH. apply raise_all_keys.
Qed.

Lemma zero_degrees_keys (graph : list (string * list string)) :
  ((λ kv : string * list string, (kv.1, 0%Z)) <$> graph).*1 = graph.*1.
Proof. rewrite <- list_fmap_compose. by apply list_fmap_ext. Qed.

(** With distinct keys, an entry is what [odict_get] finds. *)
Lemma odict_get_elem {V} k (v : V) (dict : list (string * V)) :
  NoDup dict.*1 → (k, v) ∈ dict → odict_get k dict = Some v.
Proof.
  induction dict as [|[k0 v0] dict IH]; cbn; intros Hnd Hin.
  - by apply elem_of_nil in Hin.
  - apply NoDup_cons in Hnd as [Hk0 Hnd].
    apply elem_of_cons in Hin as [[= -> ->]|Hin].
    + by rewrite decide_True.
    + rewrite decide_False; [by apply IH|].
      intros ->. apply Hk0. apply list_elem_of_fmap. by exists (k, v).
Qed.

Variable graph : list (string * list string).
Hypothesis graph_keys : NoDup graph.*1.

(** [d] is a task of the graph that some task lists as a dependency,
    and none of its own dependencies is a task of the graph. *)
Variable d : string.
Hypothesis d_waits_for_nothing :
  ∀ deps x, (d, deps) ∈ graph → x ∈ deps → x ∉ graph.*1.

Definition waiting (in_degree : list (string * Z)) (queue : list string)
  : Prop :=
  (∃ c, odict_get d in_degree = Some c ∧ (0 < c)%Z)
  ∧ d ∉ queue
  ∧ ∀ x, x ∈ queue → x ∈ graph.*1.

Lemma relax_waiting node entries : ∀ in_degree queue,
  node ∈ graph.*1 →
  (∀ entry, entry ∈ entries → entry ∈ graph) →
  waiting in_degree queue →
  waiting (foldl (relax node) (in_degree, queue) entries).1
          (foldl (relax node) (in_degree, queue) entries).2.
Proof.
  induction entries as [|[next deps] entries IH];
    intros in_degree queue Hnode Hsub Hw; [done|].
  cbn [foldl]. 
  assert (Hentry : (next, deps) ∈ graph) by (apply Hsub; by left).
  assert (Hrest : ∀ entry, entry ∈ entries → entry ∈ graph)
    by (intros entry Hin; apply Hsub; by right).
  unfold relax at 2. cbn.
  destruct (decide (node ∈ deps)) as [Hin|Hout]; [|by apply IH].
  assert (Hnext : next ≠ d).
  { intros ->. by apply (d_waits_for_nothing deps node). }
  destruct Hw as ((c & Hc & Hpos) & Hq & Hkeys).
  assert (Hd' : ∃ c, odict_get d (odict_alter (λ n, (n - 1)%Z) next in_degree)
                     = Some c ∧ (0 < c)%Z).
  { exists c. by rewrite odict_get_alter_ne. }
  case_decide.
  - apply IH; [done|done|]. split_and!; [done| |].
    + intros Hd. apply elem_of_app in Hd as [?|Hd]; [done|].
      by apply list_elem_of_singleton in Hd.
    + intros x Hx. apply elem_of_app in Hx as [?|Hx]; [by apply Hkeys|].
      apply list_elem_of_singleton in Hx as ->.
      apply list_elem_of_fmap. by exists (next, deps).
  - apply IH; [done|done|]. by split_and!.
Qed.

Lemma topological_loop_waiting fuel : ∀ in_degree queue result order,
  topological_loop fuel graph in_degree queue result = Ok order →
  waiting in_degree queue →
  d ∉ result →
  d ∉ order.
Proof.
  induction fuel as [|fuel IH]; intros in_degree queue result order;
    [done|].
  cbn [topological_loop]. destruct queue as [|node queue].
  - by intros [= <-].
  - intros Hrun Hw Hres.
    destruct Hw as (Hc & Hq & Hkeys).
    apply not_elem_of_cons in Hq as [Hne Hq].
    pose proof (relax_waiting node graph in_degree queue) as Hstep.
    destruct (foldl (relax node) (in_degree, queue) graph)
      as [in_degree' queue'] eqn:Hfold.
    apply (IH _ _ _ _ Hrun).
    + apply Hstep.
      * apply Hkeys. by left.
      * done.
      * split_and!; [done|done|]. intros x Hx. apply Hkeys. by right.
    + intros Hin. apply elem_of_app in Hin as [?|Hin]; [done|].
      by apply list_elem_of_singleton in Hin.
Qed.

(** Such a task is not in the order [topological_sort] returns. *)
Lemma topological_sort_drops (t : string) (deps_t : list string) :
  d ∈ graph.*1 →
  (t, deps_t) ∈ graph → d ∈ deps_t →
  ∃ order, topological_sort graph = Ok order ∧ d ∉ order.
Proof.
  intros Hd Ht Hdep.
  destruct (topological_sort_total graph) as [order Hrun].
  exists order. split; [done|].
  unfold topological_sort in Hrun.
  eapply topological_loop_waiting; [exact Hrun| |].
  - destruct (raise_graph_get graph _ d 0%Z (zero_degrees_get graph d Hd))
      as (c & Hc & _ & Hlt).
    assert (Hpos : (0 < c)%Z) by (apply Hlt; by exists (t, deps_t)).
    split_and!.
    + by exists c.
    + intros Hin. apply list_elem_of_fmap in Hin as ([k v] & -> & Hin).
      apply list_elem_of_filter in Hin as [Hz Hin]. cbn in Hz. subst v.
      apply odict_get_elem in Hin.
      * pose proof (eq_trans (eq_sym Hin) Hc) as Heq.
        injection Heq as <-. lia.
      * by rewrite raise_graph_keys, zero_degrees_keys.
    + intros x Hx. apply list_elem_of_fmap in Hx as ([k v] & -> & Hin).
      apply list_elem_of_filter in Hin as [_ Hin].
      rewrite <- (zero_degrees_keys graph), <- (raise_graph_keys graph).
      apply list_elem_of_fmap. by exists (k, v).
  - intros Hin. by apply elem_of_nil in Hin.
Qed.

End Degrees.

Lemma odict_set_keys_NoDup {V} k (v : V) (dict : list (string * V)) :
  NoDup dict.*1 → NoDup (odict_set k v dict).*1.
Proof.
  destruct (decide (k ∈ dict.*1)) as [Hin|Hout].
  - assert (Hkeys : (odict_set k v dict).*1 = dict.*1); [|by rewrite Hkeys].
    induction dict as [|[k0 v0] dict IH]; cbn; [by apply elem_of_nil in Hin|].
    destruct (decide (k0 = k)) as [->|Hne]; [done|].
    cbn. f_equal. apply IH. apply elem_of_cons in Hin as [?|?]; done.
  - rewrite odict_set_keys_fresh by done. rewrite fmap_app. cbn.
    intros Hnd. apply NoDup_app. split_and!; [done| |apply NoDup_singleton].
    intros x Hx Hx'. by apply list_elem_of_singleton in Hx' as ->.
Qed.

(** With distinct task ids the graph has one entry per task, in queue
    order. *)
Lemma build_graph_fresh (tasks : list ScheduledTask) :
  ∀ graph : list (string * list string),
    NoDup (graph.*1 ++ (id <$> tasks)) →
    foldl (λ graph task, odict_set (id task) (dependencies task) graph)
          graph tasks
    = graph ++ ((λ task, (id task, dependencies task)) <$> tasks).
Proof.
  induction tasks as [|task tasks IH]; intros graph Hnd; cbn.
  - by rewrite app_nil_r.
  - apply NoDup_app in Hnd as Hnd'. destruct Hnd' as (_ & Hdisj & _).
    rewrite odict_set_keys_fresh.
    2:{ intros Hin. apply (Hdisj _ Hin). by left. }
    rewrite IH.
    + by rewrite <- app_assoc.
    + rewrite fmap_app. cbn. rewrite <- app_assoc. done.
Qed.

(** A queued task that another queued task lists as a dependency, and
    that itself lists no queued task, is left out of the schedule. *)
Theorem prerequisite_is_dropped (self : SchedulerNode)
    (prerequisite task : ScheduledTask) :
  running_tasks self = [] →
  NoDup (id <$> task_queue self) →
  prerequisite ∈ task_queue self →
  (∀ x, x ∈ dependencies prerequisite → x ∉ (id <$> task_queue self)) →
  task ∈ task_queue self →
  id prerequisite ∈ dependencies task →
  ∃ schedule,
    optimize_schedule self = Ok schedule ∧ prerequisite ∉ schedule.
Proof.
  intros Hrunning Hnd Hp Hfree Ht Hdep.
  assert (Hgraph : build_dependency_graph self
                   = (λ task, (id task, dependencies task))
                     <$> task_queue self).
  { unfold build_dependency_graph. rewrite Hrunning. cbn.
    rewrite app_nil_r. by rewrite build_graph_fresh. }
  assert (Hkeys : (build_dependency_graph self).*1 = id <$> task_queue self).
  { rewrite Hgraph, <- list_fmap_compose. by apply list_fmap_ext. }
  destruct (topological_sort_drops (build_dependency_graph self)
              ltac:(by rewrite Hkeys) (id prerequisite)) with
    (t := id task) (deps_t := dependencies task)
    as (order & Hsort & Hout).
  - intros deps x Hin Hx. rewrite Hkeys. apply Hfree.
    rewrite Hgraph in Hin.
    apply list_elem_of_fmap in Hin as (other & [= Hid ->] & Hother).
    assert (other = prerequisite) as ->; [|done].
    apply list_elem_of_lookup in Hother as [i Hi].
    apply list_elem_of_lookup in Hp as [j Hj].
    assert (i = j) as ->.
    { eapply NoDup_lookup; [exact Hnd| |].
      - by rewrite list_lookup_fmap, Hi.
      - rewrite list_lookup_fmap, Hj. cbn. congruence. }
    congruence.
  - rewrite Hkeys. apply list_elem_of_fmap. by exists prerequisite.
  - rewrite Hgraph. apply list_elem_of_fmap. by exists task.
  - done.
  - unfold optimize_schedule. rewrite Hsort. cbn. eexists. split; [done|].
    intros Hin. rewrite sort_by_priority_perm in Hin.
    apply list_elem_of_omap in Hin as (task_id & Horder & Hfound).
    destruct (find_task_by_id self task_id) as [found|] eqn:Hfind; [|done].
    destruct (decide (status found = "scheduled")); [|done].
    injection Hfound as ->.
    apply find_task_by_id_elem in Hfind as [[_ Hid]|Hr].
    + apply Hout. by rewrite Hid.
    + rewrite Hrunning in Hr. by apply elem_of_nil in Hr.
Qed.

Lemma prerequisite_is_dropped_witness :
  ∃ schedule,
    optimize_schedule Samples.waiting_scheduler = Ok schedule
    ∧ Samples.mk_task "A" [] 50 ∉ schedule.
Proof.
  apply (prerequisite_is_dropped Samples.waiting_scheduler
           (Samples.mk_task "A" [] 50) (Samples.mk_task "B" ["A"] 50)).
  - done.
  - apply (bool_decide_unpack _). by vm_compute.
  - by left.
  - intros x Hx. by apply elem_of_nil in Hx.
  - right. by left.
  - by left.
Defined.

End ScheduleFacts.

(** ** The task queue *)

Module QueueFacts.
Import Scheduler SchedulerTasks OdictFacts SchedulerFacts PyFacts.

Lemma insert_at_length {A} (l1 l2 : list A) (x y : A) :
  <[length l1 := x]> (l1 ++ y :: l2) = l1 ++ x :: l2.
Proof. induction l1 as [|z l1 IH]; cbn; [done|]. f_equal. exact IH. Qed.

(** Writing [b] over a copy of the element at [i] is a permutation of
    writing it at the copy's place. *)
Lemma insert_copy_perm {A} (l : list A) (i j : nat) (a b : A) :
  i < j → j < length l → l !! i = Some a →
  <[i := b]> (<[j := a]> l) ≡ₚ <[j := b]> l.
Proof.
  intros Hij Hj Hi.
  destruct (list_elem_of_split_length l i a Hi) as (l1 & l2 & -> & ->).
  destruct (lookup_lt_is_Some_2 (l1 ++ a :: l2) j Hj) as [c Hc].
  rewrite lookup_app_r in Hc by lia.
  replace (j - length l1) with (S (j - S (length l1))) in Hc by lia.
  cbn in Hc.
  destruct (list_elem_of_split_length l2 _ c Hc) as (l3 & l4 & -> & Hlen).
  replace j with (length l1 + S (length l3)) by lia.
  rewrite !insert_app_r. cbn.
  rewrite (insert_at_length l1), !(insert_at_length l3).
  apply Permutation_app_head.
  rewrite <- !Permutation_middle. apply Permutation_swap.
Qed.

Lemma siftdown_loop_perm fuel : ∀ heap newitem startpos pos,
  pos < length heap →
  _siftdown_loop fuel heap newitem startpos pos ≡ₚ <[pos := newitem]> heap.
Proof.
  induction fuel as [|fuel IH]; intros heap newitem startpos pos Hpos;
    cbn [_siftdown_loop]; [done|].
  case_decide as Hstart; [|done].
  assert (Hparent : Nat.shiftr (pos - 1) 1 ≤ pos - 1).
  { rewrite Nat.shiftr_div_pow2.
    apply Nat.Div0.div_le_upper_bound. cbn. lia. }
  destruct (heap !! Nat.shiftr (pos - 1) 1) as [parent|] eqn:Hp; [|done].
  destruct (lt newitem parent); [|done].
  rewrite IH by (rewrite length_insert; lia).
  apply insert_copy_perm; [lia|done|done].
Qed.

(** [heappush] keeps every task of the heap and adds the new one. *)
Lemma heappush_perm heap item : heappush heap item ≡ₚ item :: heap.
Proof.
  unfold heappush, _siftdown.
  assert (Hlast : (heap ++ [item]) !! (length (heap ++ [item]) - 1)
                  = Some item).
  { rewrite length_app. cbn.
    replace (length heap + 1 - 1) with (length heap) by lia.
    by apply list_lookup_middle. }
  rewrite Hlast, siftdown_loop_perm by (rewrite length_app; cbn; lia).
  rewrite list_insert_id by done.
  by rewrite Permutation_app_comm.
Qed.

(** [execute] raises [KeyError] for [nodeId] when a new task lacks that
    key.  Otherwise it returns: the running and completed tasks are as
    before and the queue holds its old tasks and one task for each
    element of [newTasks], none lost and none twice. *)
Theorem execute_spec (fresh : string) (self : SchedulerNode)
    (newTasks : list task_data) :
  (∀ pre td post, newTasks = pre ++ td :: post →
     Forall (λ td, is_Some (td_nodeId td)) pre → td_nodeId td = None →
     execute fresh self newTasks = Raise (KeyError "nodeId"))
  ∧ (Forall (λ td, is_Some (td_nodeId td)) newTasks →
     ∃ self' schedule created,
       execute fresh self newTasks = Ok (self', schedule)
       ∧ Forall2 (λ td task, create_scheduled_task fresh td = Ok task)
           newTasks created
       ∧ task_queue self' ≡ₚ task_queue self ++ created
       ∧ running_tasks self' = running_tasks self
       ∧ completed_tasks self' = completed_tasks self).
Proof.
  set (push := λ (td : task_data) (self : SchedulerNode),
         create_scheduled_task fresh td ≫= λ task,
           Ok {| task_queue := heappush (task_queue self) task;
                 running_tasks := running_tasks self;
                 completed_tasks := completed_tasks self |}).
  assert (Hloop : ∀ tds self0,
    Forall (λ td, is_Some (td_nodeId td)) tds →
    ∃ self' created,
      for_in tds push self0 = Ok self'
      ∧ Forall2 (λ td task, create_scheduled_task fresh td = Ok task)
          tds created
      ∧ task_queue self' ≡ₚ task_queue self0 ++ created
      ∧ running_tasks self' = running_tasks self0
      ∧ completed_tasks self' = completed_tasks self0).
  { induction tds as [|td tds IH]; intros self0 Hall.
    - exists self0, []. cbn. rewrite app_nil_r. by split_and!.
    - apply Forall_cons in Hall as [[nid Hnid] Hall].
      destruct (create_scheduled_task fresh td) as [task| |] eqn:Hcreate;
        unfold create_scheduled_task in Hcreate; rewrite Hnid in Hcreate;
        [|discriminate..].
      assert (Hcreate' : create_scheduled_task fresh td = Ok task)
        by (unfold create_scheduled_task; by rewrite Hnid).
      assert (Hpush : push td self0
                      = Ok {| task_queue := heappush (task_queue self0) task;
                              running_tasks := running_tasks self0;
                              completed_tasks := completed_tasks self0 |})
        by (unfold push; by rewrite Hcreate').
      destruct (IH {| task_queue := heappush (task_queue self0) task;
                      running_tasks := running_tasks self0;
                      completed_tasks := completed_tasks self0 |} Hall)
        as (self' & created & Hrun & Hc & Hq & Hr & Hd).
      exists self', (task :: created). split_and!.
      + cbn [for_in]. rewrite Hpush. exact Hrun.
      + by constructor.
      + rewrite Hq. cbn. rewrite heappush_perm.
        by rewrite <- Permutation_middle.
      + done.
      + done. }
  split.
  - intros pre td post -> Hpre Hnone. unfold execute. fold push.
    assert (Hraise : ∀ self0,
      for_in (pre ++ td :: post) push self0 = Raise (KeyError "nodeId")).
    { clear Hloop. induction pre as [|td0 pre IH]; intros self0.
      - assert (Hpush : push td self0 = Raise (KeyError "nodeId"))
          by (unfold push, create_scheduled_task; by rewrite Hnone).
        cbn [app for_in]. by rewrite Hpush.
      - apply Forall_cons in Hpre as [[nid Hnid] Hpre].
        assert (Hpush : ∃ self1, push td0 self0 = Ok self1).
        { unfold push, create_scheduled_task. rewrite Hnid. by eexists. }
        destruct Hpush as [self1 Hpush].
        cbn [app for_in]. rewrite Hpush. by apply IH. }
    by rewrite Hraise.
  - intros Hall. unfold execute. fold push.
    destruct (Hloop newTasks self Hall)
      as (self' & created & -> & Hc & Hq & Hr & Hd).
    destruct (optimize_schedule_total self') as [schedule Hopt].
    cbn -[optimize_schedule]. rewrite Hopt.
    cbn. by exists self', schedule, created.
Qed.

(** *** Starting and completing a task *)

Lemma find_queued_task self task :
  NoDup (id <$> task_queue self) →
  task ∈ task_queue self →
  find_task_by_id self (id task) = Some task.
Proof.
  intros Hnd Hin. unfold find_task_by_id.
  destruct (list_find_elem_of (λ t, id t = id task) (task_queue self) task)
    as [[i found] Hfind]; [done..|].
  rewrite Hfind. f_equal.
  apply list_find_Some in Hfind as (Hi & Hid & _).
  apply list_elem_of_lookup in Hin as [j Hj].
  assert (i = j) as ->; [|congruence].
  eapply NoDup_lookup; [exact Hnd| |].
  - by rewrite list_lookup_fmap, Hi.
  - rewrite list_lookup_fmap, Hj. cbn. congruence.
Qed.


Lemma filter_other_ids (tasks : list ScheduledTask) task :
  NoDup (id <$> tasks) → task ∈ tasks →
  task :: filter (λ t, id t ≠ id task) tasks ≡ₚ tasks.
Proof.
  induction tasks as [|x tasks IH]; intros Hnd Hin;
    [by apply elem_of_nil in Hin|].
  cbn in Hnd. apply NoDup_cons in Hnd as [Hx Hnd].
  destruct (decide (id x = id task)) as [Hid|Hid].
  - rewrite filter_cons_False by (by intros ?).
    assert (x = task) as ->.
    { apply elem_of_cons in Hin as [->|Hin]; [done|].
      exfalso. apply Hx. rewrite Hid. apply list_elem_of_fmap.
      by exists task. }
    f_equiv.
    assert (Hall : Forall (λ t, id t ≠ id task) tasks).
    { apply Forall_forall. intros t Ht Heq. apply Hx. rewrite <- Heq.
      apply list_elem_of_fmap. by exists t. }
    clear -Hall. induction Hall as [|t tasks Ht _ IH]; [done|].
    rewrite filter_cons_True by done. by rewrite IH.
  - rewrite filter_cons_True by done.
    apply elem_of_cons in Hin as [->|Hin]; [done|].
    rewrite Permutation_swap. f_equiv. by apply IH.
Qed.

Lemma odict_delete_set_fresh {V} k (v : V) (dict : list (string * V)) :
  k ∉ dict.*1 → odict_delete k (odict_set k v dict) = dict.
Proof.
  intros Hk. rewrite odict_set_keys_fresh by done.
  unfold odict_delete. rewrite filter_app.
  rewrite (filter_cons_False _ (k, v) []) by (by intros ?).
  rewrite filter_nil, app_nil_r.
  induction dict as [|[k0 v0] dict IH]; [done|].
  cbn in Hk. apply not_elem_of_cons in Hk as [Hne Hk].
  rewrite filter_cons_True by (cbn; congruence). by rewrite IH.
Qed.

(** A queued task with an id of its own, once started and completed,
    has moved from the queue to the completed tasks with its times and
    status set; the rest of the queue (up to order), the other running
    tasks and the earlier completed tasks are as they were. *)
Theorem start_then_complete (now now' : datetime) (actual_time : Z)
    (self : SchedulerNode) (task : ScheduledTask) :
  NoDup (id <$> task_queue self) →
  task ∈ task_queue self →
  id task ∉ (running_tasks self).*1 →
  let started := start_task now (id task) self in
  let completed := complete_task now' (id task) actual_time started in
  task :: task_queue started ≡ₚ task_queue self
  ∧ odict_get (id task) (running_tasks started) = Some (set_running now task)
  ∧ (∀ k, k ≠ id task →
          odict_get k (running_tasks started)
          = odict_get k (running_tasks self))
  ∧ completed_tasks started = completed_tasks self
  ∧ task_queue completed = task_queue started
  ∧ running_tasks completed = running_tasks self
  ∧ completed_tasks completed
    = completed_tasks self
      ++ [set_completed now' actual_time (set_running now task)].
Proof.
  intros Hnd Hin Hfree started completed.
  unfold completed, started, start_task.
  rewrite (find_queued_task self task Hnd Hin).
  unfold complete_task. cbn. rewrite odict_get_set_eq. cbn.
  split_and!.
  - by apply filter_other_ids.
  - done.
  - intros k Hk. by apply odict_get_set_ne.
  - done.
  - done.
  - by apply odict_delete_set_fresh.
  - done.
Qed.

Lemma execute_spec_witness :
  ∃ self' schedule,
    execute "task_0" Samples.idle_scheduler
      [Samples.mk_task_data "A" 50; Samples.mk_task_data "B" 60]
    = Ok (self', schedule)
    ∧ length (task_queue self') = 2.
Proof.
  destruct (proj2 (execute_spec "task_0" Samples.idle_scheduler
                     [Samples.mk_task_data "A" 50;
                      Samples.mk_task_data "B" 60]))
    as (self' & schedule & created & Hrun & Hcreated & Hq & _).
  - repeat constructor; by eexists.
  - exists self', schedule. split; [done|].
    apply Forall2_length in Hcreated. rewrite Hq, length_app. cbn.
    by rewrite <- Hcreated.
Defined.

Lemma start_then_complete_witness :
  completed_tasks
    (complete_task 2 "A" 7 (start_task 1 "A" Samples.waiting_scheduler))
  = [set_completed 2 7 (set_running 1 (Samples.mk_task "A" [] 50))].
Proof.
  destruct (start_then_complete 1 2 7 Samples.waiting_scheduler
              (Samples.mk_task "A" [] 50))
    as (_ & _ & _ & _ & _ & _ & Hdone).
  - apply (bool_decide_unpack _). by vm_compute.
  - by left.
  - intros Hin. by apply elem_of_nil in Hin.
  - exact Hdone.
Defined.

End QueueFacts.

(** ** The isolated runner: registration, the result protocol, history *)

Module SandboxFacts.
Import Executor History.

Section Sandbox.

Variable communicate : nat → Z → option (string * string).
Variable decode : string → option string.
Variable decode_replace : string → string.
Variable json_loads : string → option value.
Variable str_exn : parse_exn → string.

(** However [execute_isolated] ends, with a parsed result, on the time
    limit, or with an exception from [kill], the execution id is no
    longer registered afterwards and every other registration is as it
    was. *)
Theorem execute_isolated_unregisters (execution_id : string) (pid : nat)
    (limits : gmap string Z) (self : PythonExecutor) :
  running_processes
    (execute_isolated communicate decode decode_replace json_loads str_exn
       execution_id pid limits self).1
  = delete execution_id (running_processes self).
Proof.
  unfold execute_isolated.
  destruct (communicate pid (timeout_of limits)) as [[stdout stderr]|].
  - cbn. apply delete_insert_eq.
  - unfold send_signal. cbn.
    destruct (processes self !! pid) as [p|]; cbn.
    + destruct (exited p); cbn; apply delete_insert_eq.
    + apply delete_insert_eq.
Qed.

(** A cut at the first marker followed by no further marker splits the
    output in two. *)
Lemma split_once output before after :
  cut marker output = Some (before, after) →
  contains marker after = false →
  split marker output = [before; after].
Proof.
  intros Hcut Hno. unfold split.
  destruct output as [|c output]; [by vm_compute in Hcut|].
  cbn [String.length split_loop]. rewrite Hcut. f_equal.
  unfold contains in Hno.
  destruct (String.length output) as [|n]; cbn [split_loop]; [done|].
  by destruct (cut marker after).
Qed.

(** When the marker occurs once, the parse returns the dictionary that
    follows it, with the text before the marker as [stdout] and the
    decoded error stream as [stderr]. *)
Theorem parse_single_marker (stdout stderr output before after err : string)
    (result : gmap string value) :
  decode stdout = Some output →
  cut marker output = Some (before, after) →
  contains marker after = false →
  json_loads (strip after) = Some (VDict result) →
  decode stderr = Some err →
  parse_isolated_result decode decode_replace json_loads str_exn stdout stderr
  = <["stderr" := VStr err]> (<["stdout" := VStr before]> result).
Proof.
  intros Hout Hcut Hno Hjson Herr. unfold parse_isolated_result, parse_body.
  rewrite Hout. unfold contains at 1. rewrite Hcut.
  rewrite (split_once output before after Hcut Hno). cbn.
  by rewrite Hjson, Herr.
Qed.

End Sandbox.

(** [save_execution_history] appends the entry and keeps the last 100:
    the new history ends with the entry, is the tail of the old history
    with the entry added, and is never longer than 100. *)
Theorem save_execution_history_bounded (now : datetime)
    (execution_id : string) (result : gmap string value)
    (execution_history : list history_entry) :
  let entry := {| h_executionId := execution_id; h_timestamp := now;
                  h_status := result !! "status";
                  h_executionTime := result !! "executionTime" |} in
  let saved :=
    save_execution_history now execution_id result execution_history in
  last saved = Some entry
  ∧ saved `suffix_of` (execution_history ++ [entry])
  ∧ length saved = Nat.min 100 (S (length execution_history)).
Proof.
  intros entry saved. unfold saved, save_execution_history. fold entry.
  assert (Hl : length (execution_history ++ [entry])
               = S (length execution_history))
    by (rewrite length_app; cbn; lia).
  case_decide as Hlen.
  - split_and!.
    + rewrite last_lookup, lookup_drop, length_drop, Hl.
      replace (S (length execution_history) - 100
               + pred (S (length execution_history)
                       - (S (length execution_history) - 100)))
        with (length execution_history) by lia.
      by apply list_lookup_middle.
    + apply suffix_drop.
    + rewrite length_drop, Hl. lia.
  - split_and!.
    + apply last_snoc.
    + done.
    + rewrite Hl. lia.
Qed.

Lemma parse_single_marker_witness :
  parse_isolated_result Samples.ascii_decode (λ b, b) Samples.toy_json_loads
    Samples.toy_str_exn Samples.clean_stdout "warning"
  = <["stderr" := VStr "warning"]>
      (<["stdout" := VStr ("hello" +:+ Samples.newline)]> ∅).
Proof.
  apply (parse_single_marker Samples.ascii_decode (λ b, b)
           Samples.toy_json_loads Samples.toy_str_exn Samples.clean_stdout
           "warning" Samples.clean_stdout ("hello" +:+ Samples.newline)
           (Samples.newline +:+ "{}" +:+ Samples.newline)).
  - done.
  - by vm_compute.
  - by vm_compute.
  - by vm_compute.
  - done.
Defined.

End SandboxFacts.
